(** * Roller-coaster builder: track geometry and ride dynamics

  A shallow embedding of the ride engine of the roller-coaster builder
  (the zustand store [useRollerCoaster], the hybrid spline/loop track
  sampler, the vertical-loop sampler of the track renderer and the two
  per-frame ride integrators), with the properties of the design
  document proved or refuted against it.

  Numbers.  The sources compute with JavaScript numbers.  They are
  embedded as real numbers: every literal stands for the real it
  denotes ([0.9999] is [9999/10000]), [Math.PI] is [PI], and no
  operation rounds, overflows or yields [NaN].  The sources divide
  by numbers that can be zero: by the total length in the
  normalisation pass of the section table, by the width of a
  section's progress range in the samplers, by the length of the
  track in the two integrators.  JavaScript goes on with [NaN] or an
  infinity there; the quotient of the embedding has no such value,
  and a property that reads it carries the hypothesis that the
  divisor is not zero, unless it is a counterexample built on the
  divisor being zero. *)

From Stdlib Require Import Reals Lra Lia List String ZArith Bool DecimalString DecimalNat.
Import ListNotations.
Open Scope R_scope.

(** ** JavaScript number helpers *)

Module JsNum.

(** [a < b], [a <= b], [a > b] and [a >= b] as the booleans a
    conditional tests. *)
Definition ltb (a b : R) : bool := if Rlt_dec a b then true else false.
Definition leb (a b : R) : bool := if Rle_dec a b then true else false.
Definition gtb (a b : R) : bool := ltb b a.
Definition geb (a b : R) : bool := leb b a.

(** [Math.trunc]: rounding towards zero. *)
Definition trunc (x : R) : Z :=
  if Rle_dec 0 x then Zfloor x else Zceil x.

(** The remainder operator [a % b]: the sign follows the dividend. *)
Definition rem (a b : R) : R := a - b * IZR (trunc (a / b)).

(** [x || d] on numbers: [d] when [x] is zero. *)
Definition or_else (x d : R) : R := if Req_dec_T x 0 then d else x.

End JsNum.

(** ** three.js vectors and quaternions

  The sources build on [THREE.Vector3] and [THREE.Quaternion].  The
  methods they call are embedded by their defining formulas, as pure
  functions: a method that mutates its receiver returns the new value
  of the receiver. *)

Module Vector3.

Record t : Type := mk { x : R; y : R; z : R }.

Definition zero : t := mk 0 0 0.

Definition add (a b : t) : t := mk (x a + x b) (y a + y b) (z a + z b).
Definition sub (a b : t) : t := mk (x a - x b) (y a - y b) (z a - z b).
Definition multiplyScalar (a : t) (s : R) : t := mk (x a * s) (y a * s) (z a * s).
Definition negate (a : t) : t := mk (- x a) (- y a) (- z a).

(** [a.addScaledVector(v, s)] *)
Definition addScaledVector (a v : t) (s : R) : t :=
  mk (x a + x v * s) (y a + y v * s) (z a + z v * s).

Definition dot (a b : t) : R := x a * x b + y a * y b + z a * z b.

(** [new Vector3().crossVectors(a, b)] *)
Definition crossVectors (a b : t) : t :=
  mk (y a * z b - z a * y b) (z a * x b - x a * z b) (x a * y b - y a * x b).

Definition lengthSq (a : t) : R := x a * x a + y a * y a + z a * z a.
Definition length (a : t) : R := sqrt (lengthSq a).

(** [a.normalize()] is [a.divideScalar(a.length() || 1)], and
    [divideScalar(s)] multiplies by [1 / s]: the zero vector stays
    the zero vector. *)
Definition divideScalar (a : t) (s : R) : t := multiplyScalar a (1 / s).
Definition normalize (a : t) : t := divideScalar a (JsNum.or_else (length a) 1).

Definition distanceTo (a b : t) : R := length (sub a b).

(** [a.lerp(v, alpha)] *)
Definition lerp (a v : t) (alpha : R) : t :=
  mk (x a + (x v - x a) * alpha) (y a + (y v - y a) * alpha) (z a + (z v - z a) * alpha).

(** Assignment to one coordinate, [a.y = s]. *)
Definition set_y (a : t) (s : R) : t := mk (x a) s (z a).

End Vector3.

Module Quaternion.

Record t : Type := mk { x : R; y : R; z : R; w : R }.

(** [new Quaternion().setFromAxisAngle(axis, angle)]; the axis is
    assumed normalised by the caller, as in three.js. *)
Definition setFromAxisAngle (axis : Vector3.t) (angle : R) : t :=
  let halfAngle := angle / 2 in
  let s := sin halfAngle in
  mk (Vector3.x axis * s) (Vector3.y axis * s) (Vector3.z axis * s) (cos halfAngle).

(** [v.applyQuaternion(q)] *)
Definition applyQuaternion (v : Vector3.t) (q : t) : Vector3.t :=
  let vx := Vector3.x v in
  let vy := Vector3.y v in
  let vz := Vector3.z v in
  let tx := 2 * (y q * vz - z q * vy) in
  let ty := 2 * (z q * vx - x q * vz) in
  let tz := 2 * (x q * vy - y q * vx) in
  Vector3.mk (vx + w q * tx + y q * tz - z q * ty)
             (vy + w q * ty + z q * tx - x q * tz)
             (vz + w q * tz + x q * ty - y q * tx).

(** [v.applyAxisAngle(axis, angle)] *)
Definition applyAxisAngle (v axis : Vector3.t) (angle : R) : Vector3.t :=
  applyQuaternion v (setFromAxisAngle axis angle).

End Quaternion.

(** ** The spline

  [THREE.CatmullRomCurve3] is outside the repository.  A curve is the
  three queries the sources make of it; [getTrackCurve] receives the
  constructor as an argument. *)

Module Curve.

Record t : Type := mk {
  getPoint : R -> Vector3.t;
  getTangent : R -> Vector3.t;
  getLength : R
}.

(** [new THREE.CatmullRomCurve3(points, closed, "catmullrom", 0.5)] *)
Definition constructor : Type := list Vector3.t -> bool -> t.

End Curve.

(** ** Configuration constants

  [@/lib/config/scale] is imported by the store and by the ride camera
  but is not part of the sources at hand; its constants are a record
  that the definitions using them take as an argument. *)

Module Scale.

Record t : Type := mk {
  LOOP_RADIUS : R;
  HELIX_SEPARATION : R;
  LOOP_POINTS_COUNT : nat;
  EXIT_SEPARATION : R;
  FORWARD_SEPARATION : R;
  CAMERA_HEIGHT : R;
  CAMERA_LERP : R;
  CHAIN_SPEED : R;
  MIN_RIDE_SPEED : R;
  GRAVITY_SCALE : R
}.

End Scale.

(** ** The store [useRollerCoaster]

  The state held by the zustand store, and its actions as state
  transformers.  The module-level [pointCounter] is threaded next to
  the state: a [World] is the store state with the counter. *)

Module Store.

Inductive CoasterMode : Type := build | ride | preview.

Record LoopMetadata : Type := mkLoopMetadata {
  lm_entryPos : Vector3.t;
  lm_forward : Vector3.t;
  lm_up : Vector3.t;
  lm_right : Vector3.t;
  lm_radius : R;
  lm_theta : R
}.

Record TrackPoint : Type := mkTrackPoint {
  id : string;
  position : Vector3.t;
  tilt : R;
  loopMeta : option LoopMetadata
}.

Record RollerCoasterState : Type := mkState {
  mode : CoasterMode;
  trackPoints : list TrackPoint;
  selectedPointId : option string;
  rideProgress : R;
  isRiding : bool;
  rideSpeed : R;
  isDraggingPoint : bool;
  isAddingPoints : bool;
  isLooped : bool;
  hasChainLift : bool;
  showWoodSupports : bool;
  isNightMode : bool;
  cameraTarget : option Vector3.t
}.

Definition World : Type := (RollerCoasterState * nat)%type.

Definition initialState : RollerCoasterState :=
  mkState build [] None 0 false 1 false true false true false false None.

Definition initialWorld : World := (initialState, 0%nat).

(** [set({ field: v })] merges one field into the state. *)
Definition set_mode (m : CoasterMode) (s : RollerCoasterState) :=
  mkState m (trackPoints s) (selectedPointId s) (rideProgress s) (isRiding s)
    (rideSpeed s) (isDraggingPoint s) (isAddingPoints s) (isLooped s)
    (hasChainLift s) (showWoodSupports s) (isNightMode s) (cameraTarget s).
Definition set_trackPoints (l : list TrackPoint) (s : RollerCoasterState) :=
  mkState (mode s) l (selectedPointId s) (rideProgress s) (isRiding s)
    (rideSpeed s) (isDraggingPoint s) (isAddingPoints s) (isLooped s)
    (hasChainLift s) (showWoodSupports s) (isNightMode s) (cameraTarget s).
Definition set_selectedPointId (o : option string) (s : RollerCoasterState) :=
  mkState (mode s) (trackPoints s) o (rideProgress s) (isRiding s)
    (rideSpeed s) (isDraggingPoint s) (isAddingPoints s) (isLooped s)
    (hasChainLift s) (showWoodSupports s) (isNightMode s) (cameraTarget s).
Definition set_rideProgress (p : R) (s : RollerCoasterState) :=
  mkState (mode s) (trackPoints s) (selectedPointId s) p (isRiding s)
    (rideSpeed s) (isDraggingPoint s) (isAddingPoints s) (isLooped s)
    (hasChainLift s) (showWoodSupports s) (isNightMode s) (cameraTarget s).
Definition set_isRiding (b : bool) (s : RollerCoasterState) :=
  mkState (mode s) (trackPoints s) (selectedPointId s) (rideProgress s) b
    (rideSpeed s) (isDraggingPoint s) (isAddingPoints s) (isLooped s)
    (hasChainLift s) (showWoodSupports s) (isNightMode s) (cameraTarget s).
Definition set_rideSpeed (v : R) (s : RollerCoasterState) :=
  mkState (mode s) (trackPoints s) (selectedPointId s) (rideProgress s) (isRiding s)
    v (isDraggingPoint s) (isAddingPoints s) (isLooped s)
    (hasChainLift s) (showWoodSupports s) (isNightMode s) (cameraTarget s).
Definition set_isDraggingPoint (b : bool) (s : RollerCoasterState) :=
  mkState (mode s) (trackPoints s) (selectedPointId s) (rideProgress s) (isRiding s)
    (rideSpeed s) b (isAddingPoints s) (isLooped s)
    (hasChainLift s) (showWoodSupports s) (isNightMode s) (cameraTarget s).
Definition set_isAddingPoints (b : bool) (s : RollerCoasterState) :=
  mkState (mode s) (trackPoints s) (selectedPointId s) (rideProgress s) (isRiding s)
    (rideSpeed s) (isDraggingPoint s) b (isLooped s)
    (hasChainLift s) (showWoodSupports s) (isNightMode s) (cameraTarget s).
Definition set_isLooped (b : bool) (s : RollerCoasterState) :=
  mkState (mode s) (trackPoints s) (selectedPointId s) (rideProgress s) (isRiding s)
    (rideSpeed s) (isDraggingPoint s) (isAddingPoints s) b
    (hasChainLift s) (showWoodSupports s) (isNightMode s) (cameraTarget s).
Definition set_hasChainLift (b : bool) (s : RollerCoasterState) :=
  mkState (mode s) (trackPoints s) (selectedPointId s) (rideProgress s) (isRiding s)
    (rideSpeed s) (isDraggingPoint s) (isAddingPoints s) (isLooped s)
    b (showWoodSupports s) (isNightMode s) (cameraTarget s).
Definition set_showWoodSupports (b : bool) (s : RollerCoasterState) :=
  mkState (mode s) (trackPoints s) (selectedPointId s) (rideProgress s) (isRiding s)
    (rideSpeed s) (isDraggingPoint s) (isAddingPoints s) (isLooped s)
    (hasChainLift s) b (isNightMode s) (cameraTarget s).
Definition set_isNightMode (b : bool) (s : RollerCoasterState) :=
  mkState (mode s) (trackPoints s) (selectedPointId s) (rideProgress s) (isRiding s)
    (rideSpeed s) (isDraggingPoint s) (isAddingPoints s) (isLooped s)
    (hasChainLift s) (showWoodSupports s) b (cameraTarget s).
Definition set_cameraTarget (o : option Vector3.t) (s : RollerCoasterState) :=
  mkState (mode s) (trackPoints s) (selectedPointId s) (rideProgress s) (isRiding s)
    (rideSpeed s) (isDraggingPoint s) (isAddingPoints s) (isLooped s)
    (hasChainLift s) (showWoodSupports s) (isNightMode s) o.

(** *** Identifiers: [`point-${++pointCounter}`] *)

Definition point_id (n : nat) : string :=
  ("point-" ++ NilEmpty.string_of_uint (Nat.to_uint n))%string.

(** Computations that draw identifiers from the counter. *)
Definition Gen (A : Type) : Type := nat -> A * nat.

Definition ret {A : Type} (a : A) : Gen A := fun c => (a, c).

Definition bind {A B : Type} (m : Gen A) (k : A -> Gen B) : Gen B :=
  fun c => let (a, c') := m c in k a c'.

Notation "x <- m ;; k" := (bind m (fun x => k))
  (at level 61, m at next level, right associativity).

Definition nextId : Gen string := fun c => (point_id (S c), S c).

Fixpoint forEach {A B : Type} (f : A -> Gen B) (l : list A) : Gen (list B) :=
  match l with
  | [] => ret []
  | a :: l' => b <- f a ;; bs <- forEach f l' ;; ret (b :: bs)
  end.

(** A new plain track point at [pos], with a fresh identifier. *)
Definition newPoint (pos : Vector3.t) : Gen TrackPoint :=
  i <- nextId ;; ret (mkTrackPoint i pos 0 None).

(** *** Simple actions *)

Definition setMode (m : CoasterMode) (w : World) : World := (set_mode m (fst w), snd w).
Definition setCameraTarget (o : option Vector3.t) (w : World) : World :=
  (set_cameraTarget o (fst w), snd w).
Definition setIsDraggingPoint (b : bool) (w : World) : World :=
  (set_isDraggingPoint b (fst w), snd w).
Definition setIsAddingPoints (b : bool) (w : World) : World :=
  (set_isAddingPoints b (fst w), snd w).
Definition setIsLooped (b : bool) (w : World) : World := (set_isLooped b (fst w), snd w).
Definition setHasChainLift (b : bool) (w : World) : World :=
  (set_hasChainLift b (fst w), snd w).
Definition setShowWoodSupports (b : bool) (w : World) : World :=
  (set_showWoodSupports b (fst w), snd w).
Definition setIsNightMode (b : bool) (w : World) : World :=
  (set_isNightMode b (fst w), snd w).
Definition selectPoint (o : option string) (w : World) : World :=
  (set_selectedPointId o (fst w), snd w).
Definition setRideProgress (p : R) (w : World) : World :=
  (set_rideProgress p (fst w), snd w).
Definition setIsRiding (b : bool) (w : World) : World := (set_isRiding b (fst w), snd w).
Definition setRideSpeed (v : R) (w : World) : World := (set_rideSpeed v (fst w), snd w).

Definition addTrackPoint (pos : Vector3.t) (w : World) : World :=
  let (s, c) := w in
  let (p, c') := newPoint pos c in
  (set_trackPoints (trackPoints s ++ [p]) s, c').

Definition updateTrackPoint (i : string) (pos : Vector3.t) (w : World) : World :=
  let (s, c) := w in
  (set_trackPoints
     (map (fun p => if String.eqb (id p) i
                    then mkTrackPoint (id p) pos (tilt p) (loopMeta p) else p)
          (trackPoints s)) s, c).

Definition updateTrackPointTilt (i : string) (tl : R) (w : World) : World :=
  let (s, c) := w in
  (set_trackPoints
     (map (fun p => if String.eqb (id p) i
                    then mkTrackPoint (id p) (position p) tl (loopMeta p) else p)
          (trackPoints s)) s, c).

Definition removeTrackPoint (i : string) (w : World) : World :=
  let (s, c) := w in
  (set_selectedPointId
     (match selectedPointId s with
      | Some j => if String.eqb j i then None else Some j
      | None => None
      end)
     (set_trackPoints
        (filter (fun p => negb (String.eqb (id p) i)) (trackPoints s)) s), c).

Definition clearTrack (w : World) : World :=
  let (s, c) := w in
  (set_isRiding false (set_rideProgress 0
     (set_selectedPointId None (set_trackPoints [] s))), c).

(** [startRide]: the guard reads [get().trackPoints.length]. *)
Definition startRide (w : World) : World :=
  let (s, c) := w in
  if (2 <=? List.length (trackPoints s))%nat
  then (set_rideProgress 0 (set_isRiding true (set_mode ride s)), c)
  else w.

Definition stopRide (w : World) : World :=
  let (s, c) := w in
  (set_rideProgress 0 (set_isRiding false (set_mode build s)), c).

(** [Array.prototype.findIndex]; [None] stands for [-1]. *)
Fixpoint findIndex {A : Type} (f : A -> bool) (l : list A) : option nat :=
  match l with
  | [] => None
  | a :: l' => if f a then Some 0%nat else option_map S (findIndex f l')
  end.

(** [l.slice(n)] and [l.slice(0, n)] *)
Definition slice_from {A : Type} (n : nat) (l : list A) : list A := skipn n l.
Definition slice_to {A : Type} (n : nat) (l : list A) : list A := firstn n l.

(** What a call of an action that can dereference [undefined] ends
    in: the new world, or a [TypeError] raised with the world as it
    was at that moment (the store state is then the old one, the
    counter may have advanced). *)
Inductive outcome : Type :=
| Done (w : World)
| TypeError (w : World).

(** *** [createLoopAtPoint], first listing: the loop is laid out as
    plain control points and the rest of the track is shifted forward *)

Module Shifting.

Definition loopRadius : R := 10.
Definition numLoopPoints : nat := 16.
Definition leadInDist : R := 5.
Definition leadOutDist : R := 8.
Definition totalLoopLength : R := leadInDist + (loopRadius * 2) + leadOutDist.

(** The horizontal direction of the track arriving at index
    [pointIndex]. *)
Definition loopDirection (pts : list TrackPoint) (pointIndex : nat) (pos : Vector3.t)
  : Vector3.t :=
  match pointIndex with
  | O => Vector3.mk 1 0 0
  | S k =>
      match nth_error pts k with
      | Some prevPoint =>
          let direction :=
            Vector3.set_y (Vector3.normalize (Vector3.sub pos (position prevPoint))) 0 in
          if JsNum.ltb (Vector3.length direction) 0.1
          then Vector3.mk 1 0 0
          else Vector3.normalize direction
      | None => Vector3.mk 1 0 0
      end
  end.

(** A point at forward distance [d] and height [h] over [pos]. *)
Definition ahead (pos direction : Vector3.t) (d h : R) : Vector3.t :=
  Vector3.mk (Vector3.x pos + Vector3.x direction * d)
             (Vector3.y pos + h)
             (Vector3.z pos + Vector3.z direction * d).

Definition shiftPoint (direction : Vector3.t) (p : TrackPoint) : TrackPoint :=
  mkTrackPoint (id p)
    (Vector3.mk (Vector3.x (position p) + Vector3.x direction * totalLoopLength)
                (Vector3.y (position p))
                (Vector3.z (position p) + Vector3.z direction * totalLoopLength))
    (tilt p) (loopMeta p).

(** The [i]-th point of the circle, [1 <= i < numLoopPoints]. *)
Definition circlePoint (pos direction : Vector3.t) (i : nat) : Vector3.t :=
  let loopCenterForward := leadInDist + loopRadius in
  let loopCenterX := Vector3.x pos + Vector3.x direction * loopCenterForward in
  let loopCenterZ := Vector3.z pos + Vector3.z direction * loopCenterForward in
  let loopCenterY := Vector3.y pos + loopRadius in
  let angle := - PI / 2 + (INR i / INR numLoopPoints) * PI * 2 in
  let forwardOffset := cos angle * loopRadius in
  let heightOffset := sin angle * loopRadius in
  Vector3.mk (loopCenterX + Vector3.x direction * forwardOffset)
             (loopCenterY + heightOffset)
             (loopCenterZ + Vector3.z direction * forwardOffset).

(** The points of the loop, in the order the source creates them (and
    draws their identifiers). *)
Definition loopPoints (pos direction : Vector3.t) : Gen (list TrackPoint) :=
  a1 <- newPoint (ahead pos direction 2 1) ;;
  a2 <- newPoint (ahead pos direction leadInDist 2) ;;
  circle <- forEach (fun i => newPoint (circlePoint pos direction i))
                    (seq 1 (numLoopPoints - 1)) ;;
  let exitStart := leadInDist + loopRadius * 2 in
  b1 <- newPoint (ahead pos direction (exitStart + 2) 2) ;;
  b2 <- newPoint (ahead pos direction (exitStart + leadOutDist - 2) 1) ;;
  b3 <- newPoint (ahead pos direction totalLoopLength 0) ;;
  ret ([a1; a2] ++ circle ++ [b1; b2; b3]).

Definition createLoopAtPoint (i : string) (w : World) : outcome :=
  let (state, c) := w in
  match findIndex (fun p => String.eqb (id p) i) (trackPoints state) with
  | None => Done w
  | Some pointIndex =>
      match nth_error (trackPoints state) pointIndex with
      | None => TypeError w
      | Some basePoint =>
          let pos := position basePoint in
          let direction := loopDirection (trackPoints state) pointIndex pos in
          let shiftedPoints :=
            map (shiftPoint direction) (slice_from (pointIndex + 1) (trackPoints state)) in
          let (allPoints, c') := loopPoints pos direction c in
          let newTrackPoints :=
            slice_to (pointIndex + 1) (trackPoints state) ++ allPoints ++ shiftedPoints in
          Done (set_trackPoints newTrackPoints state, c')
      end
  end.

End Shifting.

(** *** [createLoopAtPoint], second listing: a helical loop with
    Hermite approach and exit points, the next legacy point replaced *)

Module Grafting.

(** The cubic Hermite blend of the source's local [hermite]. *)
Definition hermite (t : R) (p0 t0 p1 t1 : Vector3.t) (scale : R) : Vector3.t :=
  let t2 := t * t in
  let t3 := t2 * t in
  let h00 := 2 * t3 - 3 * t2 + 1 in
  let h10 := t3 - 2 * t2 + t in
  let h01 := - 2 * t3 + 3 * t2 in
  let h11 := t3 - t2 in
  Vector3.addScaledVector
    (Vector3.addScaledVector
       (Vector3.addScaledVector
          (Vector3.addScaledVector Vector3.zero p0 h00) t0 (h10 * scale)) p1 h01)
    t1 (h11 * scale).

Definition loopForward (pts : list TrackPoint) (pointIndex : nat) (entryPos : Vector3.t)
  : Vector3.t :=
  match pointIndex with
  | O => Vector3.mk 1 0 0
  | S k =>
      match nth_error pts k with
      | Some prevPoint =>
          let forward := Vector3.set_y (Vector3.sub entryPos (position prevPoint)) 0 in
          Vector3.normalize
            (if JsNum.ltb (Vector3.length forward) 0.1
             then Vector3.mk 1 0 0 else forward)
      | None => Vector3.mk 1 0 0
      end
  end.

Definition approachPoints (cfg : Scale.t) (pts : list TrackPoint) (pointIndex : nat)
    (entryPos forward : Vector3.t) : Gen (list TrackPoint) :=
  let loopRadius := Scale.LOOP_RADIUS cfg in
  let prevPoint := match pointIndex with O => None | S k => nth_error pts k end in
  let prevPrevPoint :=
    match pointIndex with S (S k) => nth_error pts k | _ => None end in
  match prevPoint with
  | None => ret []
  | Some prevPoint =>
      let prevPos := position prevPoint in
      let legacyDir :=
        match prevPrevPoint with
        | Some pp => Vector3.normalize (Vector3.sub prevPos (position pp))
        | None => Vector3.normalize (Vector3.sub entryPos prevPos)
        end in
      let legacyDir := Vector3.normalize (Vector3.set_y legacyDir 0) in
      let entryAnchor :=
        Vector3.sub entryPos (Vector3.multiplyScalar forward (loopRadius * 0.3)) in
      let dist1 := Vector3.distanceTo prevPos entryAnchor in
      let dist2 := Vector3.distanceTo entryAnchor entryPos in
      a1 <- newPoint (hermite 0.5 prevPos legacyDir entryAnchor forward (dist1 * 0.5)) ;;
      a2 <- newPoint (hermite 0.5 entryAnchor forward entryPos forward (dist2 * 0.5)) ;;
      ret [a1; a2]
  end.

Definition helixPoint (cfg : Scale.t) (entryPos forward up right : Vector3.t) (i : nat)
  : Gen TrackPoint :=
  let loopRadius := Scale.LOOP_RADIUS cfg in
  let t := INR i / INR (Scale.LOOP_POINTS_COUNT cfg) in
  let theta := t * PI * 2 in
  let forwardOffset := sin theta * loopRadius in
  let verticalOffset := (1 - cos theta) * loopRadius in
  let lateralOffset := t * Scale.HELIX_SEPARATION cfg in
  n <- nextId ;;
  ret (mkTrackPoint n
         (Vector3.mk
            (Vector3.x entryPos + Vector3.x forward * forwardOffset
               + Vector3.x right * lateralOffset)
            (Vector3.y entryPos + verticalOffset)
            (Vector3.z entryPos + Vector3.z forward * forwardOffset
               + Vector3.z right * lateralOffset))
         0
         (Some (mkLoopMetadata entryPos forward up right loopRadius theta))).

Definition transitionPoints (cfg : Scale.t) (pts : list TrackPoint) (pointIndex : nat)
    (forward right loopExit : Vector3.t) : Gen (list TrackPoint) :=
  let offsetLoopExit :=
    Vector3.add
      (Vector3.add loopExit (Vector3.multiplyScalar forward (Scale.FORWARD_SEPARATION cfg)))
      (Vector3.multiplyScalar right (Scale.EXIT_SEPARATION cfg)) in
  e <- newPoint offsetLoopExit ;;
  match nth_error pts (pointIndex + 1) with
  | None => ret [e]
  | Some targetPoint =>
      let targetPos := position targetPoint in
      let legacyDir :=
        match nth_error pts (pointIndex + 2) with
        | Some nextNextPoint =>
            Vector3.normalize (Vector3.sub (position nextNextPoint) targetPos)
        | None => Vector3.normalize (Vector3.sub targetPos offsetLoopExit)
        end in
      let dist := Vector3.distanceTo offsetLoopExit targetPos in
      let scale := dist * 0.4 in
      b <- newPoint (hermite 0.5 offsetLoopExit forward targetPos legacyDir scale) ;;
      ret [e; b]
  end.

Definition createLoopAtPoint (cfg : Scale.t) (i : string) (w : World) : outcome :=
  let (state, c) := w in
  match findIndex (fun p => String.eqb (id p) i) (trackPoints state) with
  | None => Done w
  | Some pointIndex =>
      match nth_error (trackPoints state) pointIndex with
      | None => TypeError w
      | Some entryPoint =>
          let entryPos := position entryPoint in
          let forward := loopForward (trackPoints state) pointIndex entryPos in
          let up := Vector3.mk 0 1 0 in
          let right := Vector3.normalize (Vector3.crossVectors forward up) in
          let (approach, c1) :=
            approachPoints cfg (trackPoints state) pointIndex entryPos forward c in
          let (loopPts, c2) :=
            forEach (helixPoint cfg entryPos forward up right)
                    (seq 1 (Scale.LOOP_POINTS_COUNT cfg)) c1 in
          match last (map Some loopPts) None with
          | None => TypeError (state, c2)
          | Some lastLoopPoint =>
              let loopExit := position lastLoopPoint in
              let (transition, c3) :=
                transitionPoints cfg (trackPoints state) pointIndex forward right loopExit c2 in
              let skipCount := 1%nat in
              let newTrackPoints :=
                slice_to pointIndex (trackPoints state) ++ approach ++ [entryPoint]
                  ++ loopPts ++ transition
                  ++ slice_from (pointIndex + 1 + skipCount) (trackPoints state) in
              Done (set_trackPoints newTrackPoints state, c3)
          end
      end
  end.

End Grafting.

End Store.

(** ** The hybrid track: spline sections and analytic loops

    [TrackSection], [LoopFrame], [sampleLoopAnalytically],
    [computeLoopFrame], the section table built in [useMemo] and
    [sampleHybridTrack], as the ride camera and the coaster car have
    them.  The two components carry the same text; the car's table has
    no [pointIndex] and its sampler returns no [inLoop]. *)

Module Hybrid.

(** A loop segment of the store: the fields the components read. *)
Record LoopSegment : Type := mkLoopSegment {
  entryPointId : string;
  radius : R;
  pitch : R
}.

Record LoopFrame : Type := mkLoopFrame {
  entryPos : Vector3.t;
  forward : Vector3.t;
  up : Vector3.t;
  right : Vector3.t;
  lf_radius : R
}.

Inductive SectionType : Type := spline | loop.

Record TrackSection : Type := mkSection {
  type : SectionType;
  startProgress : R;
  endProgress : R;
  arcLength : R;
  loopFrame : option LoopFrame;
  splineStartT : option R;
  splineEndT : option R;
  pointIndex : option nat
}.

Record LoopSample : Type := mkLoopSample {
  ls_point : Vector3.t;
  ls_tangent : Vector3.t;
  ls_up : Vector3.t
}.

Record Sample : Type := mkSample {
  point : Vector3.t;
  tangent : Vector3.t;
  sampleUp : Vector3.t;
  inLoop : bool
}.

Definition sampleLoopAnalytically (frame : LoopFrame) (theta : R) : LoopSample :=
  let entryPos := entryPos frame in
  let forward := forward frame in
  let up := up frame in
  let radius := lf_radius frame in
  let point :=
    Vector3.mk
      (Vector3.x entryPos + Vector3.x forward * sin theta * radius
         + Vector3.x up * (1 - cos theta) * radius)
      (Vector3.y entryPos + Vector3.y forward * sin theta * radius
         + Vector3.y up * (1 - cos theta) * radius)
      (Vector3.z entryPos + Vector3.z forward * sin theta * radius
         + Vector3.z up * (1 - cos theta) * radius) in
  let tangent :=
    Vector3.normalize
      (Vector3.addScaledVector
         (Vector3.addScaledVector Vector3.zero forward (cos theta)) up (sin theta)) in
  let inwardUp :=
    Vector3.normalize
      (Vector3.addScaledVector
         (Vector3.addScaledVector Vector3.zero forward (- sin theta)) up (cos theta)) in
  mkLoopSample point tangent inwardUp.

(** [Math.max(-1, Math.min(1, d))] *)
Definition clampDot (d : R) : R := Rmax (-1) (Rmin 1 d).

(** Projection of [v] off [t]: [v.sub(t.clone().multiplyScalar(v.dot(t)))]. *)
Definition reject (v t : Vector3.t) : Vector3.t :=
  Vector3.sub v (Vector3.multiplyScalar t (Vector3.dot v t)).

Definition computeLoopFrame (spline_ : Curve.t) (splineT : R)
    (prevTangent prevUp : Vector3.t) (radius : R) : LoopFrame :=
  let entryPos := Curve.getPoint spline_ splineT in
  let forward := Vector3.normalize (Curve.getTangent spline_ splineT) in
  let dot := clampDot (Vector3.dot prevTangent forward) in
  let entryUp :=
    if JsNum.gtb dot 0.9999 then prevUp
    else if JsNum.ltb dot (- 0.9999) then prevUp
    else
      let axis := Vector3.crossVectors prevTangent forward in
      if JsNum.gtb (Vector3.length axis) 0.0001
      then
        let axis := Vector3.normalize axis in
        let angle := acos dot in
        let quat := Quaternion.setFromAxisAngle axis angle in
        Quaternion.applyQuaternion prevUp quat
      else prevUp in
  let entryUp := reject entryUp forward in
  let entryUp :=
    if JsNum.gtb (Vector3.length entryUp) 0.001
    then Vector3.normalize entryUp
    else Vector3.normalize (reject (Vector3.mk 0 1 0) forward) in
  let right := Vector3.normalize (Vector3.crossVectors forward entryUp) in
  mkLoopFrame entryPos forward entryUp right radius.

(** The [Map] from entry point id to loop segment: a later segment
    with the same id replaces an earlier one. *)
Definition loopMap_get (loopSegments : list LoopSegment) (i : string) : option LoopSegment :=
  find (fun seg => String.eqb (entryPointId seg) i) (rev loopSegments).

(** The start frame of the table walk: world up projected off the
    first tangent, the x axis when that nearly vanishes. *)
Definition initialUp (prevTangent : Vector3.t) : Vector3.t :=
  let prevUp := reject (Vector3.mk 0 1 0) prevTangent in
  let prevUp :=
    if JsNum.ltb (Vector3.length prevUp) 0.01
    then reject (Vector3.mk 1 0 0) prevTangent
    else prevUp in
  Vector3.normalize prevUp.

(** The chord-sum estimate of a spline interval's length. *)
Definition subSamples : nat := 10.

Definition segmentLength (curve : Curve.t) (splineStartT splineEndT : R) : R :=
  fold_left
    (fun acc s =>
       let t1 := splineStartT + (INR s / INR subSamples) * (splineEndT - splineStartT) in
       let t2 := splineStartT + (INR (s + 1) / INR subSamples) * (splineEndT - splineStartT) in
       acc + Vector3.distanceTo (Curve.getPoint curve t1) (Curve.getPoint curve t2))
    (seq 0 subSamples) 0.

(** The transport of [prevUp] over one spline interval, to the frame
    at its end tangent. *)
Definition transportOverSpline (prevTangent prevUp endTangent : Vector3.t) : Vector3.t :=
  let dot := clampDot (Vector3.dot prevTangent endTangent) in
  let prevUp :=
    if JsNum.ltb dot 0.9999 && JsNum.gtb dot (- 0.9999)
    then
      let axis := Vector3.crossVectors prevTangent endTangent in
      if JsNum.gtb (Vector3.length axis) 0.0001
      then Quaternion.applyQuaternion prevUp
             (Quaternion.setFromAxisAngle (Vector3.normalize axis) (acos dot))
      else prevUp
    else prevUp in
  let prevUp := reject prevUp endTangent in
  if JsNum.gtb (Vector3.length prevUp) 0.001 then Vector3.normalize prevUp else prevUp.

(** The state of the walk over the control points. *)
Record Walk : Type := mkWalk {
  sections : list TrackSection;
  accumulatedLength : R;
  prevTangent : Vector3.t;
  prevUp : Vector3.t
}.

(** One turn of [for (let i = 0; i < numPoints; i++)]. *)
Definition walkStep (curve : Curve.t) (loopSegments : list LoopSegment) (isLooped : bool)
    (numPoints : nat) (pointIndexOf : nat -> option nat)
    (w : Walk) (ip : nat * Store.TrackPoint) : Walk :=
  let (i, trackPoint) := ip in
  let totalSplineSegments := if isLooped then numPoints else (numPoints - 1)%nat in
  let w :=
    match loopMap_get loopSegments (Store.id trackPoint) with
    | Some loopSeg =>
        let splineT := INR i / INR totalSplineSegments in
        let loopFrame :=
          computeLoopFrame curve splineT (prevTangent w) (prevUp w) (radius loopSeg) in
        let loopArcLength := 2 * PI * radius loopSeg in
        let exitSample := sampleLoopAnalytically loopFrame (PI * 2) in
        mkWalk
          (sections w ++
             [mkSection loop 0 0 loopArcLength (Some loopFrame) None None (pointIndexOf i)])
          (accumulatedLength w + loopArcLength)
          (ls_tangent exitSample) (ls_up exitSample)
    | None => w
    end in
  if (numPoints - 1 <=? i)%nat && negb isLooped then w
  else
    let splineStartT := INR i / INR totalSplineSegments in
    let splineEndT := INR (i + 1) / INR totalSplineSegments in
    let len := segmentLength curve splineStartT splineEndT in
    let endTangent := Vector3.normalize (Curve.getTangent curve splineEndT) in
    mkWalk
      (sections w ++
         [mkSection spline 0 0 len None (Some splineStartT) (Some splineEndT) (pointIndexOf i)])
      (accumulatedLength w + len)
      endTangent
      (transportOverSpline (prevTangent w) (prevUp w) endTangent).

(** [trackPoints] with their indices. *)
Definition indexed {A : Type} (l : list A) : list (nat * A) := combine (seq 0 (List.length l)) l.

Definition walk (curve : Curve.t) (trackPoints : list Store.TrackPoint)
    (loopSegments : list LoopSegment) (isLooped : bool)
    (pointIndexOf : nat -> option nat) : Walk :=
  let prevTangent := Vector3.normalize (Curve.getTangent curve 0) in
  fold_left
    (walkStep curve loopSegments isLooped (List.length trackPoints) pointIndexOf)
    (indexed trackPoints)
    (mkWalk [] 0 prevTangent (initialUp prevTangent)).

(** The normalisation pass: each section receives its progress range. *)
Definition setProgress (s : TrackSection) (startP endP : R) : TrackSection :=
  mkSection (type s) startP endP (arcLength s) (loopFrame s)
            (splineStartT s) (splineEndT s) (pointIndex s).

Fixpoint normalizeFrom (accumulatedLength runningLength : R) (l : list TrackSection)
  : list TrackSection :=
  match l with
  | [] => []
  | s :: l' =>
      let startP := runningLength / accumulatedLength in
      let runningLength := runningLength + arcLength s in
      let endP := runningLength / accumulatedLength in
      setProgress s startP endP :: normalizeFrom accumulatedLength runningLength l'
  end.

Definition normalize (accumulatedLength : R) (l : list TrackSection) : list TrackSection :=
  normalizeFrom accumulatedLength 0 l.

(** [getTrackCurve] *)
Definition getTrackCurve (catmullRom : Curve.constructor)
    (trackPoints : list Store.TrackPoint) (isLooped : bool) : option Curve.t :=
  if (List.length trackPoints <? 2)%nat then None
  else Some (catmullRom (map Store.position trackPoints) isLooped).

(** The table and its total length, for a curve at hand. *)
Definition sectionTable (curve : Curve.t) (trackPoints : list Store.TrackPoint)
    (loopSegments : list LoopSegment) (isLooped : bool)
    (pointIndexOf : nat -> option nat) : list TrackSection * R :=
  let w := walk curve trackPoints loopSegments isLooped pointIndexOf in
  (normalize (accumulatedLength w) (sections w), accumulatedLength w).

(** [sampleHybridTrack] of the ride camera.  [localT] is a quotient by
    the width of the range of the section read; the sources compute it
    unguarded, and over an empty range go on with [NaN] or an
    infinity, which the quotient below does not show. *)
Definition clampProgress (progress : R) : R := Rmax 0 (Rmin progress 0.9999).

Definition findSection (progress : R) (l : list TrackSection) : option TrackSection :=
  find (fun s => JsNum.geb progress (startProgress s) && JsNum.ltb progress (endProgress s)) l.

Definition worldUpAt (tangent : Vector3.t) : Vector3.t :=
  let up := reject (Vector3.mk 0 1 0) tangent in
  if JsNum.gtb (Vector3.lengthSq up) 0.001
  then Vector3.normalize up
  else Vector3.normalize (reject (Vector3.mk 1 0 0) tangent).

Definition sampleHybridTrack (progress : R) (l : list TrackSection) (spline_ : Curve.t)
  : option Sample :=
  match l with
  | [] => None
  | first :: _ =>
      let progress := clampProgress progress in
      let section :=
        match findSection progress l with
        | Some s => s
        | None => last l first
        end in
      let localT :=
        (progress - startProgress section) / (endProgress section - startProgress section) in
      match type section, loopFrame section with
      | loop, Some frame =>
          let theta := localT * PI * 2 in
          let sample := sampleLoopAnalytically frame theta in
          Some (mkSample (ls_point sample) (ls_tangent sample) (ls_up sample) true)
      | _, _ =>
          match splineStartT section, splineEndT section with
          | Some startT, Some endT =>
              let splineT := startT + localT * (endT - startT) in
              let point := Curve.getPoint spline_ splineT in
              let tangent := Vector3.normalize (Curve.getTangent spline_ splineT) in
              Some (mkSample point tangent (worldUpAt tangent) false)
          | _, _ => None
          end
      end
  end.

End Hybrid.

(** ** The coaster car

    Its table is the ride camera's without [pointIndex]; its sampler
    returns the point, the tangent and the up vector only, with the
    same unguarded quotient for [localT]. *)

Module CoasterCar.

Definition sectionsMemo (catmullRom : Curve.constructor)
    (trackPoints : list Store.TrackPoint) (loopSegments : list Hybrid.LoopSegment)
    (isLooped : bool) : list Hybrid.TrackSection :=
  if (List.length trackPoints <? 2)%nat then []
  else
    match Hybrid.getTrackCurve catmullRom trackPoints isLooped with
    | None => []
    | Some curve =>
        fst (Hybrid.sectionTable curve trackPoints loopSegments isLooped (fun _ => None))
    end.

Definition sampleHybridTrack (progress : R) (l : list Hybrid.TrackSection)
    (spline_ : Curve.t) : option Hybrid.LoopSample :=
  match l with
  | [] => None
  | first :: _ =>
      let progress := Hybrid.clampProgress progress in
      let section :=
        match Hybrid.findSection progress l with
        | Some s => s
        | None => last l first
        end in
      let localT :=
        (progress - Hybrid.startProgress section)
          / (Hybrid.endProgress section - Hybrid.startProgress section) in
      match Hybrid.type section, Hybrid.loopFrame section with
      | Hybrid.loop, Some frame =>
          let theta := localT * PI * 2 in
          Some (Hybrid.sampleLoopAnalytically frame theta)
      | _, _ =>
          match Hybrid.splineStartT section, Hybrid.splineEndT section with
          | Some startT, Some endT =>
              let splineT := startT + localT * (endT - startT) in
              let point := Curve.getPoint spline_ splineT in
              let tangent := Vector3.normalize (Curve.getTangent spline_ splineT) in
              Some (Hybrid.mkLoopSample point tangent (Hybrid.worldUpAt tangent))
          | _, _ => None
          end
      end
  end.

End CoasterCar.

(** ** The ride camera over the hybrid track

    The component keeps the memoised table, [curveRef] and five refs.
    A frame is a function of the frame time, of these and of the
    store. *)

Module HybridRideCamera.

Record TrackMemo : Type := mkMemo {
  sections : list Hybrid.TrackSection;
  totalArcLength : R;
  firstPeakProgress : R
}.

(** The scan for the first peak: [for (let p = 0; p <= 0.5; p += 0.01)].
    [maxHeight] starts at minus infinity, here [None].  In the reals
    the loop body runs for [p = 0, 0.01, ..., 0.5]; the fuel bounds
    the number of turns from above. *)
Record Scan : Type := mkScan {
  maxHeight : option R;
  peakProgress : R;
  foundClimb : bool
}.

Definition above (h : R) (m : option R) : bool :=
  match m with
  | None => true
  | Some v => JsNum.gtb h v
  end.

Fixpoint scanFrom (fuel : nat) (l : list Hybrid.TrackSection) (curve : Curve.t)
    (p : R) (st : Scan) : Scan :=
  match fuel with
  | O => st
  | S fuel' =>
      if JsNum.leb p 0.5 then
        match Hybrid.sampleHybridTrack p l curve with
        | Some sample =>
            let found :=
              foundClimb st || JsNum.gtb (Vector3.y (Hybrid.tangent sample)) 0.1 in
            let st' :=
              if found && above (Vector3.y (Hybrid.point sample)) (maxHeight st)
              then mkScan (Some (Vector3.y (Hybrid.point sample))) p found
              else mkScan (maxHeight st) (peakProgress st) found in
            if found && JsNum.ltb (Vector3.y (Hybrid.tangent sample)) (- 0.1)
               && JsNum.gtb p (peakProgress st')
            then st'
            else scanFrom fuel' l curve (p + 0.01) st'
        | None => scanFrom fuel' l curve (p + 0.01) st
        end
      else st
  end.

Definition firstPeak (l : list Hybrid.TrackSection) (curve : Curve.t) : R :=
  peakProgress (scanFrom 52 l curve 0 (mkScan None 0.2 false)).

(** The [useMemo] of the component. *)
Definition trackMemo (catmullRom : Curve.constructor)
    (trackPoints : list Store.TrackPoint) (loopSegments : list Hybrid.LoopSegment)
    (isLooped : bool) : TrackMemo :=
  if (List.length trackPoints <? 2)%nat then mkMemo [] 0 0.2
  else
    match Hybrid.getTrackCurve catmullRom trackPoints isLooped with
    | None => mkMemo [] 0 0.2
    | Some curve =>
        let (table, total) :=
          Hybrid.sectionTable curve trackPoints loopSegments isLooped Some in
        mkMemo table total (firstPeak table curve)
    end.

Record Refs : Type := mkRefs {
  previousCameraPos : Vector3.t;
  previousLookAt : Vector3.t;
  maxHeightReached : R;
  transportedUp : Vector3.t;
  lastProgress : R
}.

(** What a frame writes to the camera: its position, its up vector
    and the target handed to [camera.lookAt]. *)
Record Camera : Type := mkCamera {
  cam_position : Vector3.t;
  cam_up : Vector3.t;
  cam_lookAt : Vector3.t
}.

Record RideState : Type := mkRide {
  world : Store.World;
  refs : Refs;
  camera : Camera
}.

Definition initialRefs : Refs :=
  mkRefs Vector3.zero Vector3.zero 0 (Vector3.mk 0 1 0) 0.

(** The effect on [isRiding]: a new ride starts from the height of the
    first point, world up and progress zero. *)
Definition onRideStart (curveRef : option Curve.t) (st : RideState) : RideState :=
  match curveRef with
  | Some curve =>
      if Store.isRiding (fst (world st)) then
        mkRide (world st)
          (mkRefs (previousCameraPos (refs st)) (previousLookAt (refs st))
                  (Vector3.y (Curve.getPoint curve 0)) (Vector3.mk 0 1 0) 0)
          (camera st)
      else st
  | None => st
  end.

(** The speed of the frame and the height tracker after it. *)
Definition speedPhase (hasChainLift : bool) (rideProgress firstPeakProgress rideSpeed : R)
    (maxHeightReached currentHeight : R) : R * R :=
  if hasChainLift && JsNum.ltb rideProgress firstPeakProgress then
    let chainSpeed := 0.9 * rideSpeed in
    (chainSpeed, Rmax maxHeightReached currentHeight)
  else
    let constantSpeed := 12.0 in
    (constantSpeed * rideSpeed, maxHeightReached).

(** The up vector carried to the new sample. *)
Definition transportUp (l : list Hybrid.TrackSection) (curve : Curve.t)
    (lastProgress : R) (transportedUp : Vector3.t) (sample : Hybrid.Sample) : Vector3.t :=
  if Hybrid.inLoop sample then Hybrid.sampleUp sample
  else
    match Hybrid.sampleHybridTrack lastProgress l curve with
    | Some prevSample =>
        if Hybrid.inLoop prevSample then Hybrid.sampleUp sample
        else
          let prevTangent := Hybrid.tangent prevSample in
          let tangent := Hybrid.tangent sample in
          let rotationAxis := Vector3.crossVectors prevTangent tangent in
          let rotationAngle := acos (Rmin 1 (Rmax (-1) (Vector3.dot prevTangent tangent))) in
          let transportedUp :=
            if JsNum.gtb (Vector3.lengthSq rotationAxis) 0.0001
               && JsNum.gtb rotationAngle 0.0001
            then Quaternion.applyAxisAngle transportedUp
                   (Vector3.normalize rotationAxis) rotationAngle
            else transportedUp in
          let transportedUp := Hybrid.reject transportedUp tangent in
          if JsNum.gtb (Vector3.lengthSq transportedUp) 0.0001
          then Vector3.normalize transportedUp
          else Vector3.normalize (Hybrid.reject (Vector3.mk 0 1 0) tangent)
    | None => Hybrid.sampleUp sample
    end.

(** The frame from [setRideProgress(newProgress)] on. *)
Definition moveTo (memo : TrackMemo) (curve : Curve.t) (newProgress maxHeight : R)
    (st : RideState) : RideState :=
  let world' := Store.setRideProgress newProgress (world st) in
  let r := refs st in
  match Hybrid.sampleHybridTrack newProgress (sections memo) curve with
  | None =>
      mkRide world'
        (mkRefs (previousCameraPos r) (previousLookAt r) maxHeight
                (transportedUp r) (lastProgress r))
        (camera st)
  | Some sample =>
      let position := Hybrid.point sample in
      let tangent := Hybrid.tangent sample in
      let up' := transportUp (sections memo) curve (lastProgress r) (transportedUp r) sample in
      let baseUpVector := up' in
      let cameraHeight := 1.2 in
      let cameraOffset := Vector3.multiplyScalar baseUpVector cameraHeight in
      let targetCameraPos := Vector3.add position cameraOffset in
      let lookDistance := 10 in
      let targetLookAt := Vector3.add position (Vector3.multiplyScalar tangent lookDistance) in
      let camPos := Vector3.lerp (previousCameraPos r) targetCameraPos 0.5 in
      let lookAt := Vector3.lerp (previousLookAt r) targetLookAt 0.5 in
      mkRide world'
        (mkRefs camPos lookAt maxHeight up' newProgress)
        (mkCamera camPos baseUpVector lookAt)
  end.

(** [useFrame((_, delta) => ...)].  [progressDelta] is a quotient by
    the total arc length, unguarded in the sources: over a track of
    length zero they go on with [NaN] or an infinity, which the
    quotient below does not show. *)
Definition useFrame (curveRef : option Curve.t) (memo : TrackMemo) (delta : R)
    (st : RideState) : RideState :=
  let s := fst (world st) in
  if negb (Store.isRiding s) then st
  else
    match curveRef, sections memo with
    | None, _ => st
    | Some _, [] => st
    | Some curve, _ :: _ =>
        match Hybrid.sampleHybridTrack (Store.rideProgress s) (sections memo) curve with
        | None => st
        | Some currentSample =>
            let currentHeight := Vector3.y (Hybrid.point currentSample) in
            let (speed, maxHeight) :=
              speedPhase (Store.hasChainLift s) (Store.rideProgress s)
                (firstPeakProgress memo) (Store.rideSpeed s)
                (maxHeightReached (refs st)) currentHeight in
            let progressDelta := (speed * delta) / totalArcLength memo in
            let newProgress := Store.rideProgress s + progressDelta in
            let r := refs st in
            if JsNum.geb newProgress 1 then
              if Store.isLooped s then
                let newProgress := JsNum.rem newProgress 1 in
                let maxHeight :=
                  if Store.hasChainLift s
                  then Vector3.y (Curve.getPoint curve 0) else maxHeight in
                moveTo memo curve newProgress maxHeight st
              else
                mkRide (Store.stopRide (world st))
                  (mkRefs (previousCameraPos r) (previousLookAt r) maxHeight
                          (transportedUp r) (lastProgress r))
                  (camera st)
            else moveTo memo curve newProgress maxHeight st
        end
    end.

End HybridRideCamera.

(** ** The ride camera over the plain spline ([RideCamera.tsx])

    The integrator with the energy model.  The state of a frame is the
    store with the two refs that feed back into later frames,
    [maxHeightReached] and [previousUp]; the camera pose computed
    after [previousUp] is stored (roll, pitch, field of view, position
    and orientation smoothing) reads them and writes only to the camera
    and to refs of its own. *)

Module RideCamera.

Record Scan : Type := mkScan {
  maxHeight : option R;
  peakT : R;
  foundClimb : bool
}.

Fixpoint scanFrom (fuel : nat) (curve : Curve.t) (t : R) (st : Scan) : Scan :=
  match fuel with
  | O => st
  | S fuel' =>
      if JsNum.leb t 0.5 then
        let point := Curve.getPoint curve t in
        let tangent := Curve.getTangent curve t in
        let found := foundClimb st || JsNum.gtb (Vector3.y tangent) 0.1 in
        let st' :=
          if found && HybridRideCamera.above (Vector3.y point) (maxHeight st)
          then mkScan (Some (Vector3.y point)) t found
          else mkScan (maxHeight st) (peakT st) found in
        if found && JsNum.ltb (Vector3.y tangent) (- 0.1) && JsNum.gtb t (peakT st')
        then st'
        else scanFrom fuel' curve (t + 0.01) st'
      else st
  end.

(** The [useMemo] for [firstPeakT]. *)
Definition firstPeakT (catmullRom : Curve.constructor)
    (trackPoints : list Store.TrackPoint) (isLooped : bool) : R :=
  if (List.length trackPoints <? 2)%nat then 0
  else
    match Hybrid.getTrackCurve catmullRom trackPoints isLooped with
    | None => 0
    | Some curve =>
        let peak := peakT (scanFrom 52 curve 0 (mkScan None 0 false)) in
        if JsNum.gtb peak 0 then peak else 0.2
    end.

Record Refs : Type := mkRefs {
  maxHeightReached : R;
  previousUp : Vector3.t
}.

Record RideState : Type := mkRide {
  world : Store.World;
  refs : Refs
}.

Definition initialRefs : Refs := mkRefs 0 (Vector3.mk 0 1 0).

(** The effect on [isRiding]. *)
Definition onRideStart (curveRef : option Curve.t) (st : RideState) : RideState :=
  match curveRef with
  | Some curve =>
      if Store.isRiding (fst (world st)) then
        mkRide (world st)
          (mkRefs (Vector3.y (Curve.getPoint curve 0)) (Vector3.mk 0 1 0))
      else st
  | None => st
  end.

(** The speed of the frame and the height tracker after it. *)
Definition speedPhase (cfg : Scale.t) (hasChainLift : bool)
    (rideProgress firstPeakT rideSpeed : R) (maxHeightReached currentHeight : R) : R * R :=
  if hasChainLift && JsNum.ltb rideProgress firstPeakT then
    (Scale.CHAIN_SPEED cfg * rideSpeed, Rmax maxHeightReached currentHeight)
  else
    let maxHeightReached := Rmax maxHeightReached currentHeight in
    let gravity := 9.8 * Scale.GRAVITY_SCALE cfg in
    let heightDrop := maxHeightReached - currentHeight in
    let energySpeed := sqrt (2 * gravity * Rmax 0 heightDrop) in
    (Rmax (Scale.MIN_RIDE_SPEED cfg) energySpeed * rideSpeed, maxHeightReached).

(** The up vector kept for the new tangent. *)
Definition stableUp (previousUp tangent : Vector3.t) : Vector3.t :=
  let upVector := Hybrid.reject previousUp tangent in
  if JsNum.gtb (Vector3.length upVector) 0.01
  then Vector3.normalize upVector
  else Vector3.normalize (Hybrid.reject (Vector3.mk 0 1 0) tangent).

(** The frame from [setRideProgress(newProgress)] on. *)
Definition moveTo (curve : Curve.t) (newProgress maxHeight : R) (st : RideState)
  : RideState :=
  let tangent := Vector3.normalize (Curve.getTangent curve newProgress) in
  mkRide (Store.setRideProgress newProgress (world st))
         (mkRefs maxHeight (stableUp (previousUp (refs st)) tangent)).

(** [useFrame((_, delta) => ...)].  [progressDelta] is a quotient by
    the length of the curve, unguarded in the sources: over a curve of
    length zero they go on with [NaN] or an infinity, which the
    quotient below does not show. *)
Definition useFrame (cfg : Scale.t) (curveRef : option Curve.t) (firstPeakT : R)
    (delta : R) (st : RideState) : RideState :=
  let s := fst (world st) in
  if negb (Store.isRiding s) then st
  else
    match curveRef with
    | None => st
    | Some curve =>
        let curveLength := Curve.getLength curve in
        let currentPoint := Curve.getPoint curve (Store.rideProgress s) in
        let currentHeight := Vector3.y currentPoint in
        let (speed, maxHeight) :=
          speedPhase cfg (Store.hasChainLift s) (Store.rideProgress s) firstPeakT
            (Store.rideSpeed s) (maxHeightReached (refs st)) currentHeight in
        let progressDelta := (speed * delta) / curveLength in
        let newProgress := Store.rideProgress s + progressDelta in
        if JsNum.geb newProgress 1 then
          if Store.isLooped s then
            let newProgress := JsNum.rem newProgress 1 in
            let maxHeight :=
              if Store.hasChainLift s
              then Vector3.y (Curve.getPoint curve 0) else maxHeight in
            moveTo curve newProgress maxHeight st
          else
            mkRide (Store.stopRide (world st))
                   (mkRefs maxHeight (previousUp (refs st)))
        else moveTo curve newProgress maxHeight st
    end.

(** A ride of several frames: the frame times in order. *)
Definition frames (cfg : Scale.t) (curveRef : option Curve.t) (firstPeakT : R)
    (deltas : list R) (st : RideState) : RideState :=
  fold_left (fun st delta => useFrame cfg curveRef firstPeakT delta st) deltas st.


End RideCamera.

(** ** The vertical loop of the track renderer ([Track.tsx]) *)

Module VerticalLoop.

Record BarrelRollFrame : Type := mkFrame {
  entryPos : Vector3.t;
  forward : Vector3.t;
  up : Vector3.t;
  right : Vector3.t;
  radius : R;
  pitch : R
}.

Record Sample : Type := mkSample {
  point : Vector3.t;
  tangent : Vector3.t;
  sampleUp : Vector3.t;
  normal : Vector3.t
}.

Definition twoPi : R := PI * 2.

(** The eased angle and its rate, the locals [theta] and [dThetaDt]. *)
Definition theta (t : R) : R := twoPi * (t - sin (twoPi * t) / twoPi).
Definition dThetaDt (t : R) : R := twoPi * (1 - cos (twoPi * t)).

Definition sampleVerticalLoopAnalytically (frame : BarrelRollFrame) (t : R) : Sample :=
  let U0 := up frame in
  let R0 := right frame in
  let corkscrewOffset := radius frame * 0.4 in
  let theta := theta t in
  let dThetaDt := dThetaDt t in
  let point :=
    Vector3.addScaledVector
      (Vector3.addScaledVector
         (Vector3.addScaledVector (entryPos frame) (forward frame)
            (pitch frame * t + radius frame * sin theta))
         U0 (radius frame * (1 - cos theta)))
      R0 (corkscrewOffset * sin theta) in
  let tangent :=
    Vector3.normalize
      (Vector3.addScaledVector
         (Vector3.addScaledVector
            (Vector3.multiplyScalar (forward frame)
               (pitch frame + radius frame * cos theta * dThetaDt))
            U0 (radius frame * sin theta * dThetaDt))
         R0 (corkscrewOffset * cos theta * dThetaDt)) in
  let rotatedUp :=
    Vector3.normalize
      (Vector3.addScaledVector
         (Vector3.addScaledVector Vector3.zero U0 (cos theta)) (forward frame) (- sin theta)) in
  mkSample point tangent rotatedUp R0.

End VerticalLoop.

(** ** The vocabulary of the design document

    The predicates and the reference functions the properties are
    stated with.  They follow the words of the design document, not the
    sources. *)

Module Design.

(** Two vectors of length one at a right angle. *)
Definition orthonormal (a b : Vector3.t) : Prop :=
  Vector3.length a = 1 /\ Vector3.length b = 1 /\ Vector3.dot a b = 0.

Definition sumArcLength (l : list Hybrid.TrackSection) : R :=
  fold_right (fun s a => Hybrid.arcLength s + a) 0 l.

(** Each section starts where the one before it ends. *)
Definition contiguous (l : list Hybrid.TrackSection) : Prop :=
  forall i a b, nth_error l i = Some a -> nth_error l (S i) = Some b ->
                Hybrid.startProgress b = Hybrid.endProgress a.

Definition firstSection (l : list Hybrid.TrackSection) : option Hybrid.TrackSection :=
  hd_error l.
Definition lastSection (l : list Hybrid.TrackSection) : option Hybrid.TrackSection :=
  last (map Some l) None.

(** The progress ranges of [table] partition [0, 1) and its arc
    lengths add up to [total]. *)
Definition partitions (table : list Hybrid.TrackSection) (total : R) : Prop :=
  (exists first, firstSection table = Some first /\ Hybrid.startProgress first = 0) /\
  (exists final, lastSection table = Some final /\ Hybrid.endProgress final = 1) /\
  contiguous table /\
  sumArcLength table = total.



(** The section read at [progress]: the first whose range holds the
    clamped progress, the last one when there is none. *)
Definition located (progress : R) (l : list Hybrid.TrackSection) (s : Hybrid.TrackSection)
  : Prop :=
  let c := Hybrid.clampProgress progress in
  Hybrid.findSection c l = Some s \/ (Hybrid.findSection c l = None /\ lastSection l = Some s).

(** A progress range that is not empty: the local parameter of a
    progress is a quotient by its width. *)
Definition properRange (s : Hybrid.TrackSection) : Prop :=
  Hybrid.startProgress s <> Hybrid.endProgress s.

(** A section as the table walk makes them: a loop section with an
    orthonormal frame, or else a section with its spline range. *)
Definition wellFormed (s : Hybrid.TrackSection) : Prop :=
  match Hybrid.type s, Hybrid.loopFrame s with
  | Hybrid.loop, Some frame => orthonormal (Hybrid.forward frame) (Hybrid.up frame)
  | _, _ => Hybrid.splineStartT s <> None /\ Hybrid.splineEndT s <> None
  end.

(** What is asked of a frame whose advanced progress [newProgress]
    reaches 1: [before] and [after] are the store around the frame,
    [tracker] the height tracker after it, [startHeight] the track
    height at progress 0 and [maxHeight] the tracker as the speed phase
    left it. *)
Definition endsOrWraps (before after : Store.World)
    (tracker newProgress startHeight maxHeight : R) : Prop :=
  let s := fst before in
  (Store.isLooped s = false ->
     after = Store.stopRide before /\
     Store.isRiding (fst after) = false /\
     Store.rideProgress (fst after) = 0 /\
     Store.mode (fst after) = Store.build) /\
  (Store.isLooped s = true ->
     Store.rideProgress (fst after) = JsNum.rem newProgress 1 /\
     Store.rideProgress (fst after) = newProgress - IZR (Zfloor newProgress) /\
     0 <= Store.rideProgress (fst after) < 1 /\
     Store.isRiding (fst after) = true /\
     Store.mode (fst after) = Store.mode s /\
     (Store.hasChainLift s = true -> tracker = startHeight) /\
     (Store.hasChainLift s = false -> tracker = maxHeight)).

(** Parallel transport: the minimal rotation taking [prevTangent] to
    [tangent] (skipped when the two are parallel or anti-parallel
    within the tolerance [parallelWithin]) applied to [prevUp]; then
    the projection onto the tangent removed and the result
    renormalised, world up projected off the tangent standing in when
    the result is [nearZero]. *)
Definition parallelTransport (parallelWithin : Vector3.t -> Vector3.t -> bool)
    (nearZero : Vector3.t -> bool) (prevTangent prevUp tangent : Vector3.t) : Vector3.t :=
  let rotated :=
    if parallelWithin prevTangent tangent then prevUp
    else
      let axis := Vector3.normalize (Vector3.crossVectors prevTangent tangent) in
      let angle := acos (Rmax (-1) (Rmin 1 (Vector3.dot prevTangent tangent))) in
      Quaternion.applyAxisAngle prevUp axis angle in
  let projected :=
    Vector3.sub rotated (Vector3.multiplyScalar tangent (Vector3.dot rotated tangent)) in
  if nearZero projected
  then
    let worldUp := Vector3.mk 0 1 0 in
    Vector3.normalize
      (Vector3.sub worldUp (Vector3.multiplyScalar tangent (Vector3.dot worldUp tangent)))
  else Vector3.normalize projected.

(** The tolerances of the hybrid ride camera. *)
Definition hybridParallel (a b : Vector3.t) : bool :=
  JsNum.leb (Vector3.lengthSq (Vector3.crossVectors a b)) 0.0001
  || JsNum.leb (acos (Rmax (-1) (Rmin 1 (Vector3.dot a b)))) 0.0001.
Definition hybridNearZero (v : Vector3.t) : bool := JsNum.leb (Vector3.lengthSq v) 0.0001.

(** The tolerance of the plain ride camera. *)
Definition plainNearZero (v : Vector3.t) : bool := JsNum.leb (Vector3.length v) 0.01.

End Design.

(** ** Example tracks *)

Module Examples.

Definition origin : Vector3.t := Vector3.mk 0 0 0.
Definition ex : Vector3.t := Vector3.mk 1 0 0.
Definition ey : Vector3.t := Vector3.mk 0 1 0.
Definition ez : Vector3.t := Vector3.mk 0 0 1.
Definition down : Vector3.t := Vector3.mk 0 (-1) 0.

Definition plainPoint (i : string) (pos : Vector3.t) : Store.TrackPoint :=
  Store.mkTrackPoint i pos 0 None.

(** Constants for the examples. *)
Definition config : Scale.t := Scale.mk 8 3 16 3 4 1.2 0.1 0.9 1 1.

(** Two control points on the same spot.  The spline through them is
    the constant curve: it has length zero, and its tangent, the
    normalised difference of two equal points, is the zero vector. *)
Definition stackedPoints : list Store.TrackPoint :=
  [plainPoint "point-1" origin; plainPoint "point-2" origin].
Definition pointCurve : Curve.t := Curve.mk (fun _ => origin) (fun _ => Vector3.zero) 0.

(** A straight level track of length 10.  The Catmull-Rom spline
    through its two control points is the segment between them,
    [10 t] along the x axis for [t] in [0, 1]. *)
Definition linePoints : list Store.TrackPoint :=
  [plainPoint "point-1" origin; plainPoint "point-2" (Vector3.mk 10 0 0)].
Definition lineCurve : Curve.t :=
  Curve.mk (fun t => Vector3.mk (10 * t) 0 0) (fun _ => ex) 10.
(** A loop of circumference 10 at its first point. *)
Definition lineLoop : list Hybrid.LoopSegment := [Hybrid.mkLoopSegment "point-1" (5 / PI) 0].
Definition lineFrame : Hybrid.LoopFrame := Hybrid.mkLoopFrame origin ex ey ez (5 / PI).
Definition lineTable : list Hybrid.TrackSection :=
  [Hybrid.mkSection Hybrid.loop 0 0.5 10 (Some lineFrame) None None (Some 0%nat);
   Hybrid.mkSection Hybrid.spline 0.5 1 10 None (Some 0) (Some 1) (Some 0%nat)].
Definition lineMemo : HybridRideCamera.TrackMemo :=
  HybridRideCamera.trackMemo (fun _ _ => lineCurve) linePoints lineLoop false.

(** The store once the two points are placed, the chain lift is
    switched off and the ride is started. *)
Definition lineWorld : Store.World :=
  Store.startRide
    (Store.setHasChainLift false
       (Store.addTrackPoint (Vector3.mk 10 0 0)
          (Store.addTrackPoint origin Store.initialWorld))).

(** The ride on the hybrid track: from the start, a frame of 5/12 s
    takes the rider to the top of the loop, and one of half a second
    past its end. *)
Definition lineStart : HybridRideCamera.RideState :=
  HybridRideCamera.onRideStart (Some lineCurve)
    (HybridRideCamera.mkRide lineWorld HybridRideCamera.initialRefs
       (HybridRideCamera.mkCamera Vector3.zero ey Vector3.zero)).
Definition lineTop : HybridRideCamera.RideState :=
  HybridRideCamera.useFrame (Some lineCurve) lineMemo (5 / 12) lineStart.
Definition linePast : HybridRideCamera.RideState :=
  HybridRideCamera.useFrame (Some lineCurve) lineMemo 0.5 lineTop.

(** The same track under the plain ride camera, at the start and half
    way along. *)
Definition plainStart : RideCamera.RideState :=
  RideCamera.onRideStart (Some lineCurve)
    (RideCamera.mkRide lineWorld RideCamera.initialRefs).
Definition plainHalfway : RideCamera.RideState :=
  RideCamera.mkRide (Store.setRideProgress 0.5 lineWorld) (RideCamera.refs plainStart).
Definition hybridHalfway : HybridRideCamera.RideState :=
  HybridRideCamera.mkRide (Store.setRideProgress 0.5 lineWorld)
    (HybridRideCamera.refs lineStart) (HybridRideCamera.camera lineStart).


End Examples.

(** ** The store as its users drive it

    The components reach the store through its actions only.  A
    session is a sequence of such calls; a call of [createLoopAtPoint]
    that raises leaves the store as the exception found it. *)

Module Session.

Inductive action : Type :=
| SetMode (m : Store.CoasterMode)
| SetCameraTarget (o : option Vector3.t)
| AddTrackPoint (pos : Vector3.t)
| UpdateTrackPoint (i : string) (pos : Vector3.t)
| UpdateTrackPointTilt (i : string) (tl : R)
| RemoveTrackPoint (i : string)
| CreateLoopAtPoint (i : string)
| SelectPoint (o : option string)
| ClearTrack
| SetRideProgress (p : R)
| SetIsRiding (b : bool)
| SetRideSpeed (v : R)
| SetIsDraggingPoint (b : bool)
| SetIsAddingPoints (b : bool)
| SetIsLooped (b : bool)
| SetHasChainLift (b : bool)
| SetShowWoodSupports (b : bool)
| SetIsNightMode (b : bool)
| StartRide
| StopRide.

(** The world a call leaves behind, whether it returned or raised. *)
Definition settle (o : Store.outcome) : Store.World :=
  match o with
  | Store.Done w => w
  | Store.TypeError w => w
  end.

(** One call; [createLoopAtPoint] is that of the listing in use. *)
Definition perform (createLoopAtPoint : string -> Store.World -> Store.outcome)
    (a : action) (w : Store.World) : Store.World :=
  match a with
  | SetMode m => Store.setMode m w
  | SetCameraTarget o => Store.setCameraTarget o w
  | AddTrackPoint pos => Store.addTrackPoint pos w
  | UpdateTrackPoint i pos => Store.updateTrackPoint i pos w
  | UpdateTrackPointTilt i tl => Store.updateTrackPointTilt i tl w
  | RemoveTrackPoint i => Store.removeTrackPoint i w
  | CreateLoopAtPoint i => settle (createLoopAtPoint i w)
  | SelectPoint o => Store.selectPoint o w
  | ClearTrack => Store.clearTrack w
  | SetRideProgress p => Store.setRideProgress p w
  | SetIsRiding b => Store.setIsRiding b w
  | SetRideSpeed v => Store.setRideSpeed v w
  | SetIsDraggingPoint b => Store.setIsDraggingPoint b w
  | SetIsAddingPoints b => Store.setIsAddingPoints b w
  | SetIsLooped b => Store.setIsLooped b w
  | SetHasChainLift b => Store.setHasChainLift b w
  | SetShowWoodSupports b => Store.setShowWoodSupports b w
  | SetIsNightMode b => Store.setIsNightMode b w
  | StartRide => Store.startRide w
  | StopRide => Store.stopRide w
  end.

Definition run (createLoopAtPoint : string -> Store.World -> Store.outcome)
    (l : list action) (w : Store.World) : Store.World :=
  fold_left (fun w a => perform createLoopAtPoint a w) l w.

(** The identifiers of the track points of a world. *)
Definition ids (w : Store.World) : list string :=
  map Store.id (Store.trackPoints (fst w)).

(** Every identifier in use was drawn from the counter. *)
Definition drawn (w : Store.World) : Prop :=
  Forall (fun i => exists k, (1 <= k <= snd w)%nat /\ i = Store.point_id k) (ids w).

(** How often an identifier occurs in a list of them. *)
Definition occurrences (l : list string) (x : string) : nat := count_occ string_dec l x.

(** The [m] identifiers drawn from counter value [c] on. *)
Definition drawnFrom (c m : nat) : list string := map Store.point_id (seq (S c) m).

(** The invariant of the store: no identifier occurs twice, and each
    was drawn from the counter. *)
Definition distinctIds (w : Store.World) : Prop :=
  NoDup (ids w) /\ drawn w.

(** The approach points of the second listing: two when the entry
    point has a predecessor, none at the first point. *)
Definition approachCount (pts : list Store.TrackPoint) (pointIndex : nat) : nat :=
  match pointIndex with
  | O => 0
  | S j => match nth_error pts j with Some _ => 2 | None => 0 end
  end.

(** Its transition points: the exit anchor, and a blend point when a
    point follows the entry point. *)
Definition transitionCount (pts : list Store.TrackPoint) (pointIndex : nat) : nat :=
  match nth_error pts (pointIndex + 1) with Some _ => 2 | None => 1 end.

End Session.
(** ** The handle of a track point ([TrackPoint] in [GameUI.tsx])

    The handlers the component registers on its transform controls.
    [worldPos] is what [meshRef.current.getWorldPosition] yields, or
    [None] while the mesh is not mounted. *)

Module TrackPointHandle.

Definition moveTo (i : string) (worldPos : Vector3.t) (w : Store.World) : Store.World :=
  let clampedY := Rmax 0.5 (Vector3.y worldPos) in
  Store.updateTrackPoint i (Vector3.mk (Vector3.x worldPos) clampedY (Vector3.z worldPos)) w.

Definition handleDraggingChanged (i : string) (value : bool) (worldPos : option Vector3.t)
    (w : Store.World) : Store.World :=
  let w := Store.setIsDraggingPoint value w in
  match negb value, worldPos with
  | true, Some p => moveTo i p w
  | _, _ => w
  end.

Definition handleObjectChange (i : string) (worldPos : option Vector3.t) (w : Store.World)
  : Store.World :=
  match worldPos with
  | Some p => moveTo i p w
  | None => w
  end.

(** [handleClick]: a click selects the point in build mode only. *)
Definition handleClick (i : string) (w : Store.World) : Store.World :=
  match Store.mode (fst w) with
  | Store.build => Store.selectPoint (Some i) w
  | _ => w
  end.

End TrackPointHandle.
(** ** The track renderer ([Track.tsx] and its earlier listing)

    [interpolateTilt] with [getTrackTiltAtProgress], and the loop
    sampler of the earlier listing, which also returns the normal. *)

Module TrackRenderer.

(** [trackPoints[i]] for an integral [i]; [None] stands for
    [undefined]. *)
Definition at_index {A : Type} (l : list A) (i : Z) : option A :=
  if (i <? 0)%Z then None else nth_error l (Z.to_nat i).

(** [interpolateTilt]; [None] stands for the [TypeError] of reading
    [tilt] off [undefined]. *)
Definition interpolateTilt (trackPoints : list Store.TrackPoint) (t : R) (isLooped : bool)
  : option R :=
  if (List.length trackPoints <? 2)%nat then Some 0
  else
    let n := Z.of_nat (List.length trackPoints) in
    let scaledT := if isLooped then t * IZR n else t * IZR (n - 1) in
    let index := Zfloor scaledT in
    let frac := scaledT - IZR index in
    if isLooped then
      let i0 := Z.rem index n in
      let i1 := Z.rem (index + 1) n in
      match at_index trackPoints i0, at_index trackPoints i1 with
      | Some p0, Some p1 => Some (Store.tilt p0 * (1 - frac) + Store.tilt p1 * frac)
      | _, _ => None
      end
    else if (n - 1 <=? index)%Z then option_map Store.tilt (at_index trackPoints (n - 1))
    else
      match at_index trackPoints index, at_index trackPoints (index + 1) with
      | Some p0, Some p1 => Some (Store.tilt p0 * (1 - frac) + Store.tilt p1 * frac)
      | _, _ => None
      end.

Definition getTrackTiltAtProgress (trackPoints : list Store.TrackPoint) (progress : R)
    (isLooped : bool) : option R :=
  interpolateTilt trackPoints progress isLooped.

Record RailSample : Type := mkRailSample {
  rs_point : Vector3.t;
  rs_tangent : Vector3.t;
  rs_up : Vector3.t;
  rs_normal : Vector3.t
}.

(** [sampleLoopAnalytically] of the earlier listing. *)
Definition sampleLoopAnalytically (frame : Hybrid.LoopFrame) (theta : R) : RailSample :=
  let entryPos := Hybrid.entryPos frame in
  let forward := Hybrid.forward frame in
  let up := Hybrid.up frame in
  let radius := Hybrid.lf_radius frame in
  let point :=
    Vector3.mk
      (Vector3.x entryPos + Vector3.x forward * sin theta * radius
         + Vector3.x up * (1 - cos theta) * radius)
      (Vector3.y entryPos + Vector3.y forward * sin theta * radius
         + Vector3.y up * (1 - cos theta) * radius)
      (Vector3.z entryPos + Vector3.z forward * sin theta * radius
         + Vector3.z up * (1 - cos theta) * radius) in
  let tangent :=
    Vector3.normalize
      (Vector3.addScaledVector
         (Vector3.addScaledVector Vector3.zero forward (cos theta)) up (sin theta)) in
  let inwardUp :=
    Vector3.normalize
      (Vector3.addScaledVector
         (Vector3.addScaledVector Vector3.zero forward (- sin theta)) up (cos theta)) in
  let normal := Vector3.normalize (Vector3.crossVectors tangent inwardUp) in
  mkRailSample point tangent inwardUp normal.

End TrackRenderer.
(** ** The pose of the plain ride camera

    The part of a frame of [RideCamera.tsx] after the up vector is
    stored: bank, pitch, field of view and position.  The frame goes on
    to build a rotation matrix from [rightVector], [pitchedUp] and the
    negated [pitchedTangent] and to slerp the camera's quaternion
    towards it; the pose stops at the three vectors. *)

Module CameraPose.

Record Refs : Type := mkRefs {
  previousRoll : R;
  previousFov : R;
  previousPitchOffset : R;
  previousCameraPos : Vector3.t
}.

Definition initialRefs : Refs := mkRefs 0 75 0 Vector3.zero.

Record Pose : Type := mkPose {
  bankedUp : Vector3.t;
  rightVector : Vector3.t;
  finalUp : Vector3.t;
  pitchedTangent : Vector3.t;
  pitchedUp : Vector3.t;
  targetCameraPos : Vector3.t;
  fov : R;
  cameraPosition : Vector3.t
}.

(** [previous + (target - previous) * CAMERA_LERP] *)
Definition approach (cfg : Scale.t) (previous target : R) : R :=
  previous + (target - previous) * Scale.CAMERA_LERP cfg.

(** [tilt] is what [getTrackTiltAtProgress] returned; [position],
    [tangent] and [upVector] are those of the frame. *)
Definition pose (cfg : Scale.t) (tilt : R) (position tangent upVector : Vector3.t) (r : Refs)
  : Refs * Pose :=
  let targetRoll := (tilt * PI) / 180 in
  let roll := approach cfg (previousRoll r) targetRoll in
  let bankQuat := Quaternion.setFromAxisAngle tangent (- roll) in
  let bankedUp := Quaternion.applyQuaternion upVector bankQuat in
  let rightVector := Vector3.normalize (Vector3.crossVectors tangent bankedUp) in
  let finalUp := Vector3.normalize (Vector3.crossVectors rightVector tangent) in
  let slopeIntensity := Rmax 0 (- Vector3.y tangent) in
  let targetPitchOffset := slopeIntensity * 0.25 in
  let pitchOffset := approach cfg (previousPitchOffset r) targetPitchOffset in
  let pitchQuat := Quaternion.setFromAxisAngle rightVector pitchOffset in
  let pitchedTangent := Quaternion.applyQuaternion tangent pitchQuat in
  let pitchedUp := Quaternion.applyQuaternion finalUp pitchQuat in
  let cameraOffset := Vector3.multiplyScalar finalUp (Scale.CAMERA_HEIGHT cfg) in
  let targetCameraPos := Vector3.add position cameraOffset in
  let targetFov := 75 + slopeIntensity * 15 in
  let fov := approach cfg (previousFov r) targetFov in
  let cameraPos :=
    Vector3.lerp (previousCameraPos r) targetCameraPos (Scale.CAMERA_LERP cfg) in
  (mkRefs roll fov pitchOffset cameraPos,
   mkPose bankedUp rightVector finalUp pitchedTangent pitchedUp targetCameraPos fov cameraPos).

(** The input of one frame: the tilt, and the position, the tangent
    and the up vector on the track. *)
Record Input : Type := mkInput {
  in_tilt : R;
  in_position : Vector3.t;
  in_tangent : Vector3.t;
  in_up : Vector3.t
}.

(** The refs after a run of frames. *)
Definition poses (cfg : Scale.t) (inputs : list Input) (r : Refs) : Refs :=
  fold_left
    (fun r i => fst (pose cfg (in_tilt i) (in_position i) (in_tangent i) (in_up i) r))
    inputs r.

(** The ranges the field of view and the pitch offset are meant to
    stay in. *)
Definition inRange (r : Refs) : Prop :=
  75 <= previousFov r <= 90 /\ 0 <= previousPitchOffset r <= 0.25.

End CameraPose.

(** ** Predicates on section tables *)

Module Tables.

(** Sections with lengths that are not negative. *)
Definition lengthsNonneg (l : list Hybrid.TrackSection) : Prop :=
  Forall (fun s => 0 <= Hybrid.arcLength s) l.

End Tables.

(** ** Rides of several frames *)

Module Rides.

(** The frames of a ride on the hybrid track, in order. *)
Definition hybridFrames (curveRef : option Curve.t) (memo : HybridRideCamera.TrackMemo)
    (deltas : list R) (st : HybridRideCamera.RideState) : HybridRideCamera.RideState :=
  fold_left (fun st delta => HybridRideCamera.useFrame curveRef memo delta st) deltas st.

(** What the frames of a ride keep, between the store [w] and the
    height tracker [m] before and [w'] and [m'] after: the progress
    within [0, 1), the settings of the ride and the track, and, unless
    a closed track with the chain lift wraps around, a height tracker
    that does not fall. *)
Definition keeps (w : Store.World) (m : R) (w' : Store.World) (m' : R) : Prop :=
  let s := fst w in
  let s' := fst w' in
  0 <= Store.rideProgress s' < 1 /\
  Store.rideSpeed s' = Store.rideSpeed s /\
  Store.hasChainLift s' = Store.hasChainLift s /\
  Store.isLooped s' = Store.isLooped s /\
  Store.trackPoints s' = Store.trackPoints s /\
  (Store.hasChainLift s = false \/ Store.isLooped s = false -> m <= m').

Definition plainKeeps (st st' : RideCamera.RideState) : Prop :=
  keeps (RideCamera.world st) (RideCamera.maxHeightReached (RideCamera.refs st))
        (RideCamera.world st') (RideCamera.maxHeightReached (RideCamera.refs st')).

Definition hybridKeeps (st st' : HybridRideCamera.RideState) : Prop :=
  keeps (HybridRideCamera.world st)
        (HybridRideCamera.maxHeightReached (HybridRideCamera.refs st))
        (HybridRideCamera.world st')
        (HybridRideCamera.maxHeightReached (HybridRideCamera.refs st')).

End Rides.

(** ** Further example tracks *)

Module Samples.

(** The track of three points on a line that a session of three
    clicks builds, its second point tilted by 10 degrees and its third
    by -20. *)
Definition tiltedWorld : Store.World :=
  Store.updateTrackPointTilt "point-3" (-20)
    (Store.updateTrackPointTilt "point-2" 10
       (Store.addTrackPoint (Vector3.mk 20 0 0)
          (Store.addTrackPoint (Vector3.mk 10 0 0)
             (Store.addTrackPoint (Vector3.mk 0 0 0) Store.initialWorld)))).

Definition tiltedPoints : list Store.TrackPoint := Store.trackPoints (fst tiltedWorld).

(** A vertical loop of radius 5 that advances 3 along the x axis. *)
Definition rollFrame : VerticalLoop.BarrelRollFrame :=
  VerticalLoop.mkFrame (Vector3.mk 0 0 0) (Vector3.mk 1 0 0) (Vector3.mk 0 1 0)
    (Vector3.mk 0 0 1) 5 3.

End Samples.

(** * Properties *)

Import Design Examples.

(** ** Comparisons and the remainder *)

Lemma ltb_spec (a b : R) : JsNum.ltb a b = true <-> a < b.
Proof. unfold JsNum.ltb. destruct (Rlt_dec a b); split; intros; auto; discriminate. Qed.

Lemma leb_spec (a b : R) : JsNum.leb a b = true <-> a <= b.
Proof. unfold JsNum.leb. destruct (Rle_dec a b); split; intros; auto; discriminate. Qed.

Lemma ltb_false (a b : R) : JsNum.ltb a b = false <-> b <= a.
Proof.
  unfold JsNum.ltb. destruct (Rlt_dec a b); split; intros; auto; try discriminate; lra.
Qed.

Lemma leb_false (a b : R) : JsNum.leb a b = false <-> b < a.
Proof.
  unfold JsNum.leb. destruct (Rle_dec a b); split; intros; auto; try discriminate; lra.
Qed.

Lemma ltb_true (a b : R) : a < b -> JsNum.ltb a b = true.
Proof. apply ltb_spec. Qed.

Lemma ltb_ge (a b : R) : b <= a -> JsNum.ltb a b = false.
Proof. apply ltb_false. Qed.

Lemma gtb_true (a b : R) : b < a -> JsNum.gtb a b = true.
Proof. intros H. unfold JsNum.gtb. apply ltb_spec. exact H. Qed.


Lemma geb_true (a b : R) : b <= a -> JsNum.geb a b = true.
Proof. intros H. unfold JsNum.geb. apply leb_spec. exact H. Qed.

Lemma geb_false (a b : R) : a < b -> JsNum.geb a b = false.
Proof. intros H. unfold JsNum.geb. apply leb_false. exact H. Qed.

Lemma gtb_negb_leb (a b : R) : JsNum.gtb a b = negb (JsNum.leb a b).
Proof.
  unfold JsNum.gtb, JsNum.ltb, JsNum.leb.
  destruct (Rlt_dec b a), (Rle_dec a b); try reflexivity; lra.
Qed.

(** Past 1, [x % 1] is the fractional part of [x]. *)
Lemma rem_one (x : R) : 1 <= x ->
  JsNum.rem x 1 = x - IZR (Zfloor x) /\ 0 <= JsNum.rem x 1 < 1.
Proof.
  intros H. unfold JsNum.rem, JsNum.trunc.
  replace (x / 1) with x by field.
  destruct (Rle_dec 0 x) as [_|n]; [|lra].
  pose proof (Zfloor_bound x). split; [ring | lra].
Qed.

(** ** The store *)

Lemma findIndex_none {A : Type} (f : A -> bool) (l : list A) :
  (forall a, In a l -> f a = false) -> Store.findIndex f l = None.
Proof.
  induction l as [|a l IH]; simpl; intros H; auto.
  rewrite (H a (or_introl eq_refl)). rewrite IH; auto.
Qed.

Lemma lineWorld_state :
  lineWorld
  = (Store.mkState Store.ride linePoints None 0 true 1 false true false false false false None,
     2%nat).
Proof. reflexivity. Qed.

(** C4.  [startRide] changes the store only when at least two track
    points exist: with fewer it leaves the whole state (and the
    identifier counter) as it was; with two or more it sets the mode to
    ride, [isRiding] to true and [rideProgress] to 0, and leaves the
    track points alone. *)
Theorem startRide_guard (w : Store.World) :
  ((List.length (Store.trackPoints (fst w)) < 2)%nat -> Store.startRide w = w) /\
  ((2 <= List.length (Store.trackPoints (fst w)))%nat ->
   Store.mode (fst (Store.startRide w)) = Store.ride /\
   Store.isRiding (fst (Store.startRide w)) = true /\
   Store.rideProgress (fst (Store.startRide w)) = 0 /\
   Store.trackPoints (fst (Store.startRide w)) = Store.trackPoints (fst w) /\
   snd (Store.startRide w) = snd w).
Proof.
  destruct w as [s c]. unfold Store.startRide. cbn [fst snd].
  destruct (2 <=? List.length (Store.trackPoints s))%nat eqn:E.
  - apply Nat.leb_le in E. split; intros H; [lia|]. cbn. repeat split.
  - apply Nat.leb_gt in E. split; intros H; [reflexivity | lia].
Qed.

Lemma startRide_guard_witness :
  Store.startRide Store.initialWorld = Store.initialWorld /\
  Store.mode
    (fst (Store.startRide
            (Store.addTrackPoint ex (Store.addTrackPoint origin Store.initialWorld))))
  = Store.ride.
Proof.
  split.
  - apply (proj1 (startRide_guard Store.initialWorld)). cbn. lia.
  - apply (proj2 (startRide_guard
                    (Store.addTrackPoint ex (Store.addTrackPoint origin Store.initialWorld)))).
    cbn. lia.
Defined.

(** C9.  [createLoopAtPoint] with an id that no track point carries
    leaves the store, and the identifier counter, exactly as they were;
    this holds for both listings of the action. *)
Theorem createLoopAtPoint_unknown_id (cfg : Scale.t) (i : string) (w : Store.World) :
  (forall p, In p (Store.trackPoints (fst w)) -> Store.id p <> i) ->
  Store.Shifting.createLoopAtPoint i w = Store.Done w /\
  Store.Grafting.createLoopAtPoint cfg i w = Store.Done w.
Proof.
  intros H. destruct w as [s c]. simpl in H.
  assert (E : Store.findIndex (fun p => String.eqb (Store.id p) i) (Store.trackPoints s)
              = None).
  { apply findIndex_none. intros p Hp. apply String.eqb_neq. auto. }
  unfold Store.Shifting.createLoopAtPoint, Store.Grafting.createLoopAtPoint.
  rewrite E. split; reflexivity.
Qed.

Lemma createLoopAtPoint_unknown_id_witness :
  Store.Shifting.createLoopAtPoint "point-9" lineWorld = Store.Done lineWorld /\
  Store.Grafting.createLoopAtPoint config "point-9" lineWorld = Store.Done lineWorld.
Proof.
  apply (createLoopAtPoint_unknown_id config "point-9" lineWorld).
  rewrite lineWorld_state. cbn [fst Store.trackPoints linePoints].
  intros p [<- | [<- | []]]; cbn; discriminate.
Defined.

(** ** Vectors *)

Lemma vec_eq (a b : Vector3.t) :
  Vector3.x a = Vector3.x b -> Vector3.y a = Vector3.y b -> Vector3.z a = Vector3.z b ->
  a = b.
Proof. destruct a, b; simpl; intros; subst; reflexivity. Qed.

Ltac vsimpl :=
  cbv [origin ex ey ez down Vector3.zero Hybrid.reject Vector3.sub Vector3.add
       Vector3.multiplyScalar Vector3.addScaledVector Vector3.dot Vector3.crossVectors
       Vector3.negate Vector3.lengthSq Vector3.x Vector3.y Vector3.z].
Ltac vec := apply vec_eq; vsimpl; simpl INR; first [ring | lra].

Lemma lengthSq_nonneg (v : Vector3.t) : 0 <= Vector3.lengthSq v.
Proof. unfold Vector3.lengthSq. nra. Qed.

Lemma length_sq (v : Vector3.t) : Vector3.length v * Vector3.length v = Vector3.lengthSq v.
Proof. unfold Vector3.length. apply sqrt_sqrt. apply lengthSq_nonneg. Qed.

Lemma length_one_iff (v : Vector3.t) : Vector3.length v = 1 <-> Vector3.lengthSq v = 1.
Proof.
  split; intros H.
  - rewrite <- length_sq, H. ring.
  - unfold Vector3.length. rewrite H. apply sqrt_1.
Qed.

Lemma length_zero_iff (v : Vector3.t) : Vector3.length v = 0 <-> Vector3.lengthSq v = 0.
Proof.
  split; intros H.
  - rewrite <- length_sq, H. ring.
  - unfold Vector3.length. rewrite H. apply sqrt_0.
Qed.

Lemma lengthSq_zero (v : Vector3.t) : Vector3.lengthSq v = 0 -> v = Vector3.zero.
Proof. unfold Vector3.lengthSq. intros H. apply vec_eq; simpl; nra. Qed.

Lemma length_mk (a b c l : R) : 0 <= l -> a * a + b * b + c * c = l * l ->
  Vector3.length (Vector3.mk a b c) = l.
Proof.
  intros Hl H. unfold Vector3.length, Vector3.lengthSq. simpl. rewrite H.
  apply sqrt_square. exact Hl.
Qed.

Lemma length_negate (v : Vector3.t) : Vector3.length (Vector3.negate v) = Vector3.length v.
Proof. unfold Vector3.length, Vector3.lengthSq. simpl. f_equal. ring. Qed.

Lemma normalize_unit (v : Vector3.t) : Vector3.length v = 1 -> Vector3.normalize v = v.
Proof.
  intros H. unfold Vector3.normalize, Vector3.divideScalar, JsNum.or_else.
  rewrite H. destruct (Req_dec_T 1 0); [lra|].
  apply vec_eq; simpl; field.
Qed.

Lemma normalize_zero : Vector3.normalize Vector3.zero = Vector3.zero.
Proof.
  unfold Vector3.normalize, Vector3.divideScalar, Vector3.multiplyScalar.
  apply vec_eq; simpl; ring.
Qed.

Lemma normalize_scaled (v : Vector3.t) : Vector3.length v <> 0 ->
  Vector3.normalize v = Vector3.multiplyScalar v (/ Vector3.length v).
Proof.
  intros H. unfold Vector3.normalize, Vector3.divideScalar, JsNum.or_else.
  destruct (Req_dec_T (Vector3.length v) 0); [contradiction|].
  f_equal. field. exact H.
Qed.

Lemma normalize_length (v : Vector3.t) :
  Vector3.length v <> 0 -> Vector3.length (Vector3.normalize v) = 1.
Proof.
  intros H. rewrite normalize_scaled by exact H. apply length_one_iff.
  replace (Vector3.lengthSq (Vector3.multiplyScalar v (/ Vector3.length v)))
    with (/ Vector3.length v * / Vector3.length v * Vector3.lengthSq v)
    by (unfold Vector3.lengthSq; simpl; ring).
  rewrite <- length_sq. field. exact H.
Qed.

Lemma normalize_dot (v t : Vector3.t) : Vector3.length v <> 0 ->
  Vector3.dot (Vector3.normalize v) t = Vector3.dot v t / Vector3.length v.
Proof.
  intros H. rewrite normalize_scaled by exact H.
  replace (Vector3.dot (Vector3.multiplyScalar v (/ Vector3.length v)) t)
    with (/ Vector3.length v * Vector3.dot v t)
    by (unfold Vector3.dot; simpl; ring).
  field. exact H.
Qed.

(** [normalize] yields a unit vector or the zero vector. *)
Lemma normalize_cases (v : Vector3.t) :
  Vector3.length (Vector3.normalize v) = 1 \/ Vector3.normalize v = Vector3.zero.
Proof.
  destruct (Req_dec_T (Vector3.length v) 0) as [E|E].
  - right. apply length_zero_iff in E. apply lengthSq_zero in E. rewrite E.
    apply normalize_zero.
  - left. apply normalize_length. exact E.
Qed.

Lemma length_ex : Vector3.length ex = 1.
Proof. apply length_mk; lra. Qed.

Lemma length_ey : Vector3.length ey = 1.
Proof. apply length_mk; lra. Qed.


Lemma orthonormal_ex_ey : orthonormal ex ey.
Proof. repeat split; [apply length_ex | apply length_ey | vsimpl; ring]. Qed.

(** ** The analytic loop *)

(** C5.  For a loop frame whose entry forward and entry up are
    orthonormal, the loop sampler returns the entry forward as tangent
    and the entry up as up at angle 0, the negated entry up at angle pi
    (the rider is inverted), and the entry forward and entry up again
    at angle 2 pi. *)
Theorem loop_sample_entry_inversion_closure (frame : Hybrid.LoopFrame) :
  orthonormal (Hybrid.forward frame) (Hybrid.up frame) ->
  Hybrid.ls_tangent (Hybrid.sampleLoopAnalytically frame 0) = Hybrid.forward frame /\
  Hybrid.ls_up (Hybrid.sampleLoopAnalytically frame 0) = Hybrid.up frame /\
  Hybrid.ls_up (Hybrid.sampleLoopAnalytically frame PI) = Vector3.negate (Hybrid.up frame) /\
  Hybrid.ls_tangent (Hybrid.sampleLoopAnalytically frame (2 * PI)) = Hybrid.forward frame /\
  Hybrid.ls_up (Hybrid.sampleLoopAnalytically frame (2 * PI)) = Hybrid.up frame.
Proof.
  intros (Hf & Hu & _).
  unfold Hybrid.sampleLoopAnalytically. cbn [Hybrid.ls_tangent Hybrid.ls_up].
  rewrite sin_0, cos_0, sin_PI, cos_PI, sin_2PI, cos_2PI.
  repeat split.
  - rewrite <- (normalize_unit _ Hf) at 2. f_equal. apply vec_eq; simpl; ring.
  - rewrite <- (normalize_unit _ Hu) at 2. f_equal. apply vec_eq; simpl; ring.
  - assert (Hn : Vector3.length (Vector3.negate (Hybrid.up frame)) = 1)
      by (rewrite length_negate; exact Hu).
    rewrite <- (normalize_unit _ Hn). f_equal. apply vec_eq; simpl; ring.
  - rewrite <- (normalize_unit _ Hf) at 2. f_equal. apply vec_eq; simpl; ring.
  - rewrite <- (normalize_unit _ Hu) at 2. f_equal. apply vec_eq; simpl; ring.
Qed.

Lemma loop_sample_entry_inversion_closure_witness :
  Hybrid.ls_tangent (Hybrid.sampleLoopAnalytically lineFrame 0) = ex /\
  Hybrid.ls_up (Hybrid.sampleLoopAnalytically lineFrame 0) = ey /\
  Hybrid.ls_up (Hybrid.sampleLoopAnalytically lineFrame PI) = Vector3.negate ey /\
  Hybrid.ls_tangent (Hybrid.sampleLoopAnalytically lineFrame (2 * PI)) = ex /\
  Hybrid.ls_up (Hybrid.sampleLoopAnalytically lineFrame (2 * PI)) = ey.
Proof.
  apply (loop_sample_entry_inversion_closure lineFrame). exact orthonormal_ex_ey.
Defined.

(** ** The eased angle of the vertical loop *)

Lemma twoPi_pos : 0 < VerticalLoop.twoPi.
Proof. unfold VerticalLoop.twoPi. pose proof PI_RGT_0. lra. Qed.

(** [dThetaDt] is the derivative of [theta]. *)
Lemma theta_derive (u : R) : derivable_pt_lim VerticalLoop.theta u (VerticalLoop.dThetaDt u).
Proof.
  pose proof twoPi_pos as Hp.
  set (k := VerticalLoop.twoPi) in *.
  assert (D : derivable_pt_lim
                (mult_real_fct k (id - (mult_real_fct (/ k) (comp sin (mult_real_fct k id))))%F)
                u (k * (1 - / k * (cos (k * u) * (k * 1))))).
  { apply derivable_pt_lim_scal.
    apply derivable_pt_lim_minus; [apply derivable_pt_lim_id|].
    apply derivable_pt_lim_scal.
    apply (derivable_pt_lim_comp (mult_real_fct k id) sin).
    - apply derivable_pt_lim_scal. apply derivable_pt_lim_id.
    - apply derivable_pt_lim_sin. }
  assert (E : VerticalLoop.dThetaDt u = k * (1 - / k * (cos (k * u) * (k * 1)))).
  { unfold VerticalLoop.dThetaDt. fold k. field. lra. }
  rewrite E. intros eps Heps. destruct (D eps Heps) as [d Hd]. exists d.
  intros h Hh Hlt. specialize (Hd h Hh Hlt).
  unfold VerticalLoop.theta. fold k.
  unfold mult_real_fct, minus_fct, comp, id in Hd.
  replace ((k * (u + h - sin (k * (u + h)) / k) - k * (u - sin (k * u) / k)) / h)
    with ((k * (u + h - / k * sin (k * (u + h))) - k * (u - / k * sin (k * u))) / h)
    by (unfold Rdiv; ring).
  exact Hd.
Qed.

(** C8.  The eased angle of the vertical-loop sampler,
    [theta u = 2 pi (u - sin (2 pi u) / (2 pi))], starts at 0 and ends
    at 2 pi; its derivative is the sampler's
    [dThetaDt u = 2 pi (1 - cos (2 pi u))], which is zero at both
    ends. *)
Theorem eased_theta_endpoints :
  VerticalLoop.theta 0 = 0 /\
  VerticalLoop.theta 1 = 2 * PI /\
  (forall u, derivable_pt_lim VerticalLoop.theta u (VerticalLoop.dThetaDt u)) /\
  VerticalLoop.dThetaDt 0 = 0 /\
  VerticalLoop.dThetaDt 1 = 0.
Proof.
  pose proof twoPi_pos as Hp.
  unfold VerticalLoop.theta, VerticalLoop.dThetaDt.
  assert (E1 : VerticalLoop.twoPi * 1 = 2 * PI) by (unfold VerticalLoop.twoPi; ring).
  assert (E0 : VerticalLoop.twoPi * 0 = 0) by ring.
  rewrite E1, E0, sin_0, cos_0, sin_2PI, cos_2PI.
  repeat split.
  - field. lra.
  - unfold VerticalLoop.twoPi in *. field. lra.
  - apply theta_derive.
  - ring.
  - ring.
Qed.

(** ** The sampler of the hybrid track *)

Lemma clampProgress_idem (p : R) :
  Hybrid.clampProgress (Hybrid.clampProgress p) = Hybrid.clampProgress p.
Proof. unfold Hybrid.clampProgress, Rmax, Rmin. repeat (destruct (Rle_dec _ _)); lra. Qed.

Lemma clampProgress_range (p : R) : 0 <= Hybrid.clampProgress p <= 0.9999.
Proof. unfold Hybrid.clampProgress, Rmax, Rmin. repeat (destruct (Rle_dec _ _)); lra. Qed.

Lemma clampProgress_id (p : R) : 0 <= p <= 0.9999 -> Hybrid.clampProgress p = p.
Proof.
  intros H. unfold Hybrid.clampProgress, Rmax, Rmin. repeat destruct (Rle_dec _ _); lra.
Qed.

Lemma last_in {A : Type} (l : list A) (d : A) : l <> [] -> In (last l d) l.
Proof.
  induction l as [|a l IH]; [congruence|]. intros _.
  destruct l as [|b l]; [left; reflexivity|].
  right. apply IH. discriminate.
Qed.

Lemma last_map_some {A : Type} (l : list A) (a d : A) :
  last (map Some (a :: l)) None = Some (last (a :: l) d).
Proof.
  revert a. induction l as [|b l IH]; intros a; [reflexivity|].
  change (last (map Some (a :: b :: l)) None) with (last (map Some (b :: l)) None).
  change (last (a :: b :: l) d) with (last (b :: l) d).
  apply IH.
Qed.

Lemma lastSection_last (first : Hybrid.TrackSection) (rest : list Hybrid.TrackSection) :
  lastSection (first :: rest) = Some (last (first :: rest) first).
Proof. apply last_map_some. Qed.

Lemma located_in (c : R) (l : list Hybrid.TrackSection) (s : Hybrid.TrackSection) :
  Hybrid.findSection c l = Some s \/ (Hybrid.findSection c l = None /\ lastSection l = Some s) ->
  In s l.
Proof.
  intros [H | [_ H]].
  - unfold Hybrid.findSection in H. apply find_some in H. tauto.
  - destruct l as [|first rest]; [discriminate|].
    rewrite lastSection_last in H. injection H as H. rewrite <- H.
    apply (last_in (first :: rest) first). discriminate.
Qed.

(** C7.  The hybrid sampler, of the ride camera and of the car alike,
    clamps its progress into [0, 0.9999] before it looks for a section:
    whatever the progress, negative or past 1, the sample is the sample
    at the clamped progress.  The section it reads is the first whose
    range holds the clamped progress, the last one when there is none;
    where that section has a range that is not empty, the sample is
    taken in it at the local parameter of the clamped progress, on the
    loop frame of a loop section and on the spline otherwise, and it is
    not null whenever the section carries what its kind needs.  A
    progress out of range ends in no branch of its own. *)
Theorem sampleHybridTrack_clamps (p : R) (l : list Hybrid.TrackSection) (curve : Curve.t) :
  l <> [] ->
  let c := Hybrid.clampProgress p in
  0 <= c <= 0.9999 /\
  (p <= 0 -> c = 0) /\
  (0.9999 <= p -> c = 0.9999) /\
  (0 <= p <= 0.9999 -> c = p) /\
  Hybrid.sampleHybridTrack p l curve = Hybrid.sampleHybridTrack c l curve /\
  CoasterCar.sampleHybridTrack p l curve = CoasterCar.sampleHybridTrack c l curve /\
  exists section,
    In section l /\
    located p l section /\
    let localT :=
      (c - Hybrid.startProgress section)
      / (Hybrid.endProgress section - Hybrid.startProgress section) in
    (properRange section ->
     (forall frame,
        Hybrid.type section = Hybrid.loop -> Hybrid.loopFrame section = Some frame ->
        let sample := Hybrid.sampleLoopAnalytically frame (localT * PI * 2) in
        Hybrid.sampleHybridTrack p l curve
        = Some (Hybrid.mkSample (Hybrid.ls_point sample) (Hybrid.ls_tangent sample)
                  (Hybrid.ls_up sample) true) /\
        CoasterCar.sampleHybridTrack p l curve = Some sample) /\
     (forall startT endT,
        Hybrid.type section = Hybrid.spline \/ Hybrid.loopFrame section = None ->
        Hybrid.splineStartT section = Some startT -> Hybrid.splineEndT section = Some endT ->
        let splineT := startT + localT * (endT - startT) in
        let tangent := Vector3.normalize (Curve.getTangent curve splineT) in
        Hybrid.sampleHybridTrack p l curve
        = Some (Hybrid.mkSample (Curve.getPoint curve splineT) tangent
                  (Hybrid.worldUpAt tangent) false) /\
        CoasterCar.sampleHybridTrack p l curve
        = Some (Hybrid.mkLoopSample (Curve.getPoint curve splineT) tangent
                  (Hybrid.worldUpAt tangent))) /\
     ((exists frame, Hybrid.type section = Hybrid.loop /\ Hybrid.loopFrame section = Some frame)
      \/ (Hybrid.splineStartT section <> None /\ Hybrid.splineEndT section <> None) ->
      (exists sample, Hybrid.sampleHybridTrack p l curve = Some sample) /\
      (exists sample, CoasterCar.sampleHybridTrack p l curve = Some sample))).
Proof.
  intros Hne c.
  split; [apply clampProgress_range|].
  split; [intros H; unfold c, Hybrid.clampProgress, Rmax, Rmin;
          repeat destruct (Rle_dec _ _); lra|].
  split; [intros H; unfold c, Hybrid.clampProgress, Rmax, Rmin;
          repeat destruct (Rle_dec _ _); lra|].
  split; [apply clampProgress_id|].
  destruct l as [|first rest]; [congruence|].
  split; [unfold c, Hybrid.sampleHybridTrack; rewrite clampProgress_idem; reflexivity|].
  split; [unfold c, CoasterCar.sampleHybridTrack; rewrite clampProgress_idem; reflexivity|].
  set (section := match Hybrid.findSection c (first :: rest) with
                  | Some s => s
                  | None => last (first :: rest) first
                  end).
  assert (Hloc : Hybrid.findSection c (first :: rest) = Some section \/
                 (Hybrid.findSection c (first :: rest) = None /\
                  lastSection (first :: rest) = Some section)).
  { unfold section. destruct (Hybrid.findSection c (first :: rest)) as [s|].
    - left. reflexivity.
    - right. split; [reflexivity | apply lastSection_last]. }
  exists section. split; [exact (located_in _ _ _ Hloc)|]. split; [exact Hloc|].
  intros localT _.
  assert (Hcam : forall frame,
             Hybrid.type section = Hybrid.loop -> Hybrid.loopFrame section = Some frame ->
             let sample := Hybrid.sampleLoopAnalytically frame (localT * PI * 2) in
             Hybrid.sampleHybridTrack p (first :: rest) curve
             = Some (Hybrid.mkSample (Hybrid.ls_point sample) (Hybrid.ls_tangent sample)
                       (Hybrid.ls_up sample) true) /\
             CoasterCar.sampleHybridTrack p (first :: rest) curve = Some sample).
  { intros frame Et Ef. unfold Hybrid.sampleHybridTrack, CoasterCar.sampleHybridTrack.
    fold c. fold section. rewrite Et, Ef. split; reflexivity. }
  assert (Hspl : forall startT endT,
             Hybrid.type section = Hybrid.spline \/ Hybrid.loopFrame section = None ->
             Hybrid.splineStartT section = Some startT ->
             Hybrid.splineEndT section = Some endT ->
             let splineT := startT + localT * (endT - startT) in
             let tangent := Vector3.normalize (Curve.getTangent curve splineT) in
             Hybrid.sampleHybridTrack p (first :: rest) curve
             = Some (Hybrid.mkSample (Curve.getPoint curve splineT) tangent
                       (Hybrid.worldUpAt tangent) false) /\
             CoasterCar.sampleHybridTrack p (first :: rest) curve
             = Some (Hybrid.mkLoopSample (Curve.getPoint curve splineT) tangent
                       (Hybrid.worldUpAt tangent))).
  { intros startT endT Hk Es Ee.
    unfold Hybrid.sampleHybridTrack, CoasterCar.sampleHybridTrack.
    fold c. fold section. rewrite Es, Ee.
    destruct Hk as [Et | Ef]; [rewrite Et | rewrite Ef].
    - destruct (Hybrid.loopFrame section); split; reflexivity.
    - destruct (Hybrid.type section); split; reflexivity. }
  split; [exact Hcam|]. split; [exact Hspl|].
  intros [(frame & Et & Ef) | [Hs He]].
  - destruct (Hcam frame Et Ef) as [E1 E2]. split; eexists; eassumption.
  - destruct (Hybrid.splineStartT section) as [startT|] eqn:Es; [|congruence].
    destruct (Hybrid.splineEndT section) as [endT|] eqn:Ee; [|congruence].
    destruct (Hybrid.type section) eqn:Et.
    + destruct (Hspl startT endT (or_introl eq_refl) eq_refl eq_refl) as [E1 E2].
      split; eexists; eassumption.
    + destruct (Hybrid.loopFrame section) as [frame|] eqn:Ef.
      * destruct (Hcam frame eq_refl eq_refl) as [E1 E2]. split; eexists; eassumption.
      * destruct (Hspl startT endT (or_intror eq_refl) eq_refl eq_refl) as [E1 E2].
        split; eexists; eassumption.
Qed.

(** On the straight track with its loop, a progress of 7 is sampled
    where 0.9999 is: on the spline, 9.998 along the track. *)
Lemma sampleHybridTrack_clamps_witness :
  Hybrid.clampProgress 7 = 0.9999 /\
  Hybrid.sampleHybridTrack 7 lineTable lineCurve
  = Hybrid.sampleHybridTrack 0.9999 lineTable lineCurve /\
  Hybrid.sampleHybridTrack 7 lineTable lineCurve
  = Some (Hybrid.mkSample (Vector3.mk 9.998 0 0)
            (Vector3.normalize ex) (Hybrid.worldUpAt (Vector3.normalize ex)) false).
Proof.
  destruct (sampleHybridTrack_clamps 7 lineTable lineCurve ltac:(discriminate))
    as (_ & _ & Hc & _ & Hs & _ & section & _ & Hloc & Hv).
  assert (E : Hybrid.clampProgress 7 = 0.9999) by (apply Hc; lra).
  rewrite E in Hs, Hv.
  split; [exact E|]. split; [exact Hs|].
  assert (Hf : Hybrid.findSection 0.9999 lineTable
               = Some (Hybrid.mkSection Hybrid.spline 0.5 1 10 None (Some 0) (Some 1)
                         (Some 0%nat))).
  { unfold Hybrid.findSection, lineTable.
    cbn [find Hybrid.startProgress Hybrid.endProgress].
    rewrite (geb_true 0.9999 0), (ltb_ge 0.9999 0.5), (geb_true 0.9999 0.5),
      (ltb_true 0.9999 1) by lra.
    reflexivity. }
  unfold located in Hloc. rewrite E in Hloc. cbv zeta in Hloc.
  destruct Hloc as [Hl | [Hl _]]; rewrite Hf in Hl; [|discriminate].
  injection Hl as <-.
  unfold properRange in Hv.
  cbn [Hybrid.startProgress Hybrid.endProgress Hybrid.type Hybrid.loopFrame
       Hybrid.splineStartT Hybrid.splineEndT] in Hv.
  destruct (Hv ltac:(lra)) as (_ & Hspl & _).
  destruct (Hspl 0 1 (or_introl eq_refl) eq_refl eq_refl) as [-> _].
  cbv zeta. unfold lineCurve. cbn [Curve.getPoint Curve.getTangent].
  do 2 f_equal. f_equal; lra.
Defined.

(** ** The section table *)

Lemma sumArcLength_app (l : list Hybrid.TrackSection) (s : Hybrid.TrackSection) :
  sumArcLength (l ++ [s]) = sumArcLength l + Hybrid.arcLength s.
Proof. induction l as [|a l IH]; simpl; [ring | rewrite IH; ring]. Qed.

Lemma normalizeFrom_arcLength (acc r : R) (l : list Hybrid.TrackSection) :
  map Hybrid.arcLength (Hybrid.normalizeFrom acc r l) = map Hybrid.arcLength l.
Proof.
  revert r. induction l as [|s l IH]; intros r; simpl; [reflexivity | now rewrite IH].
Qed.

Lemma sumArcLength_map (l l' : list Hybrid.TrackSection) :
  map Hybrid.arcLength l = map Hybrid.arcLength l' -> sumArcLength l = sumArcLength l'.
Proof.
  revert l'. induction l as [|s l IH]; intros [|s' l'] H; simpl in *; try discriminate; auto.
  injection H as H1 H2. rewrite H1, (IH _ H2). reflexivity.
Qed.

Lemma normalizeFrom_first (acc r : R) (l : list Hybrid.TrackSection) (s : Hybrid.TrackSection) :
  firstSection (Hybrid.normalizeFrom acc r l) = Some s -> Hybrid.startProgress s = r / acc.
Proof.
  destruct l as [|a l]; simpl; intros H; [discriminate | injection H as <-; reflexivity].
Qed.

Lemma normalizeFrom_last (acc r : R) (l : list Hybrid.TrackSection) (s : Hybrid.TrackSection) :
  lastSection (Hybrid.normalizeFrom acc r l) = Some s ->
  Hybrid.endProgress s = (r + sumArcLength l) / acc.
Proof.
  unfold lastSection. revert r. induction l as [|a l IH]; intros r; [discriminate|].
  destruct l as [|b l].
  - simpl. intros H. injection H as <-. simpl. f_equal. ring.
  - intros H. change (Hybrid.normalizeFrom acc r (a :: b :: l))
      with (Hybrid.setProgress a (r / acc) ((r + Hybrid.arcLength a) / acc)
              :: Hybrid.normalizeFrom acc (r + Hybrid.arcLength a) (b :: l)) in H.
    rewrite map_cons in H.
    remember (Hybrid.normalizeFrom acc (r + Hybrid.arcLength a) (b :: l)) as tl eqn:Etl.
    destruct tl as [|c tl]; [simpl in Etl; discriminate|].
    change (last (Some (Hybrid.setProgress a (r / acc) ((r + Hybrid.arcLength a) / acc))
                  :: map Some (c :: tl)) None)
      with (last (map Some (c :: tl)) None) in H.
    rewrite Etl in H. apply IH in H. rewrite H. f_equal.
    change (sumArcLength (a :: b :: l)) with (Hybrid.arcLength a + sumArcLength (b :: l)).
    ring.
Qed.

Lemma normalizeFrom_contiguous (acc r : R) (l : list Hybrid.TrackSection) :
  contiguous (Hybrid.normalizeFrom acc r l).
Proof.
  revert r. induction l as [|a l IH]; intros r i x y Hx Hy.
  - destruct i; discriminate.
  - destruct i as [|i].
    + simpl in Hx. injection Hx as <-.
      destruct l as [|b l]; [discriminate|].
      simpl in Hy. injection Hy as <-. reflexivity.
    + simpl in Hx, Hy. exact (IH _ i x y Hx Hy).
Qed.

Lemma normalizeFrom_nonempty (acc r : R) (l : list Hybrid.TrackSection) :
  l <> [] -> Hybrid.normalizeFrom acc r l <> [].
Proof. destruct l; [congruence | discriminate]. Qed.

Lemma lastSection_some (l : list Hybrid.TrackSection) :
  l <> [] -> exists s, lastSection l = Some s.
Proof.
  unfold lastSection. induction l as [|a l IH]; [congruence|]. intros _.
  destruct l as [|b l]; [exists a; reflexivity|].
  destruct IH as [s Hs]; [discriminate|]. exists s. exact Hs.
Qed.

(** The walk keeps its length equal to the sum over its sections. *)
Lemma walkStep_accumulated curve segs isLooped n pix w ip :
  Hybrid.accumulatedLength w = sumArcLength (Hybrid.sections w) ->
  Hybrid.accumulatedLength (Hybrid.walkStep curve segs isLooped n pix w ip)
  = sumArcLength (Hybrid.sections (Hybrid.walkStep curve segs isLooped n pix w ip)).
Proof.
  intros H. unfold Hybrid.walkStep. destruct ip as [i p].
  destruct (Hybrid.loopMap_get segs (Store.id p)) as [seg|];
    destruct ((n - 1 <=? i)%nat && negb isLooped);
    cbn [Hybrid.accumulatedLength Hybrid.sections];
    rewrite ?sumArcLength_app; cbn [Hybrid.arcLength]; rewrite ?H; reflexivity.
Qed.

Lemma walkStep_grows curve segs isLooped n pix w ip :
  Hybrid.sections w <> [] ->
  Hybrid.sections (Hybrid.walkStep curve segs isLooped n pix w ip) <> [].
Proof.
  intros H. unfold Hybrid.walkStep. destruct ip as [i p].
  destruct (Hybrid.loopMap_get segs (Store.id p)) as [seg|];
    destruct ((n - 1 <=? i)%nat && negb isLooped); cbn [Hybrid.sections];
    try assumption; intros E; apply app_eq_nil in E; destruct E; discriminate.
Qed.

Lemma walkStep_first curve segs isLooped n pix w p :
  (2 <= n)%nat ->
  Hybrid.sections (Hybrid.walkStep curve segs isLooped n pix w (0%nat, p)) <> [].
Proof.
  intros Hn. unfold Hybrid.walkStep.
  assert (E : (n - 1 <=? 0)%nat = false) by (apply Nat.leb_gt; lia).
  rewrite E. cbn [andb].
  destruct (Hybrid.loopMap_get segs (Store.id p)); cbn [Hybrid.sections];
    intros E'; apply app_eq_nil in E'; destruct E'; discriminate.
Qed.

Lemma fold_walk_invariant curve segs isLooped n pix (P : Hybrid.Walk -> Prop) :
  (forall w ip, P w -> P (Hybrid.walkStep curve segs isLooped n pix w ip)) ->
  forall l w, P w -> P (fold_left (Hybrid.walkStep curve segs isLooped n pix) l w).
Proof. intros Hs l. induction l as [|a l IH]; intros w Hw; simpl; auto. Qed.

Lemma walk_accumulated curve tps segs isLooped pix :
  Hybrid.accumulatedLength (Hybrid.walk curve tps segs isLooped pix)
  = sumArcLength (Hybrid.sections (Hybrid.walk curve tps segs isLooped pix)).
Proof.
  unfold Hybrid.walk.
  apply (fold_walk_invariant curve segs isLooped (List.length tps) pix
           (fun w => Hybrid.accumulatedLength w = sumArcLength (Hybrid.sections w))).
  - intros w ip. apply walkStep_accumulated.
  - reflexivity.
Qed.

Lemma walk_nonempty curve tps segs isLooped pix :
  (2 <= List.length tps)%nat ->
  Hybrid.sections (Hybrid.walk curve tps segs isLooped pix) <> [].
Proof.
  intros Hn. unfold Hybrid.walk, Hybrid.indexed.
  destruct tps as [|p tps]; [simpl in Hn; lia|].
  cbn [List.length seq combine fold_left].
  apply (fold_walk_invariant curve segs isLooped (S (List.length tps)) pix
           (fun w => Hybrid.sections w <> [])).
  - intros w ip. apply walkStep_grows.
  - apply walkStep_first. simpl in Hn. lia.
Qed.

Lemma sectionTable_partitions (curve : Curve.t) (trackPoints : list Store.TrackPoint)
    (loopSegments : list Hybrid.LoopSegment) (isLooped : bool)
    (pointIndexOf : nat -> option nat) :
  (2 <= List.length trackPoints)%nat ->
  snd (Hybrid.sectionTable curve trackPoints loopSegments isLooped pointIndexOf) <> 0 ->
  partitions (fst (Hybrid.sectionTable curve trackPoints loopSegments isLooped pointIndexOf))
             (snd (Hybrid.sectionTable curve trackPoints loopSegments isLooped pointIndexOf)).
Proof.
  intros Hn Hz.
  unfold Hybrid.sectionTable in *. cbn [fst snd] in *.
  set (w := Hybrid.walk curve trackPoints loopSegments isLooped pointIndexOf) in *.
  assert (Hne : Hybrid.sections w <> []) by (apply walk_nonempty; exact Hn).
  assert (Hacc : Hybrid.accumulatedLength w = sumArcLength (Hybrid.sections w))
    by apply walk_accumulated.
  unfold partitions, Hybrid.normalize.
  repeat split.
  - destruct (Hybrid.normalizeFrom (Hybrid.accumulatedLength w) 0 (Hybrid.sections w))
      as [|s l] eqn:E.
    + exfalso. revert E. apply normalizeFrom_nonempty. exact Hne.
    + exists s. split; [reflexivity|].
      assert (F : firstSection (Hybrid.normalizeFrom (Hybrid.accumulatedLength w) 0
                                  (Hybrid.sections w)) = Some s) by (rewrite E; reflexivity).
      apply normalizeFrom_first in F. rewrite F. unfold Rdiv. ring.
  - destruct (lastSection_some _ (normalizeFrom_nonempty (Hybrid.accumulatedLength w) 0 _ Hne))
      as [s Hs].
    exists s. split; [exact Hs|].
    apply normalizeFrom_last in Hs. rewrite Hs, <- Hacc. field. exact Hz.
  - apply normalizeFrom_contiguous.
  - rewrite Hacc. apply sumArcLength_map. apply normalizeFrom_arcLength.
Qed.

(** ** The example tracks, evaluated *)

Lemma reject_ey_ex : Hybrid.reject ey ex = ey.
Proof. vec. Qed.


Lemma clampDot_id (d : R) : -1 <= d <= 1 -> Hybrid.clampDot d = d.
Proof.
  intros H. unfold Hybrid.clampDot, Rmax, Rmin. repeat destruct (Rle_dec _ _); lra.
Qed.

Lemma initialUp_ex : Hybrid.initialUp ex = ey.
Proof.
  unfold Hybrid.initialUp. fold ey. rewrite reject_ey_ex, length_ey.
  rewrite (ltb_ge 1 0.01) by lra. apply normalize_unit, length_ey.
Qed.


Lemma lineFrame_computed :
  Hybrid.computeLoopFrame lineCurve (INR 0 / INR 1) ex ey (5 / PI) = lineFrame.
Proof.
  unfold Hybrid.computeLoopFrame. cbn [lineCurve Curve.getPoint Curve.getTangent].
  rewrite (normalize_unit ex length_ex).
  assert (D : Vector3.dot ex ex = 1) by (vsimpl; ring).
  rewrite D, (clampDot_id 1) by lra. rewrite (gtb_true 1 0.9999) by lra.
  rewrite reject_ey_ex, length_ey, (gtb_true 1 0.001) by lra.
  rewrite (normalize_unit ey length_ey).
  assert (C : Vector3.crossVectors ex ey = ez) by vec.
  rewrite C. rewrite (normalize_unit ez) by (apply length_mk; lra).
  unfold lineFrame. f_equal. vec.
Qed.


Lemma distance_on_line (a b : R) : a <= b ->
  Vector3.distanceTo (Curve.getPoint lineCurve a) (Curve.getPoint lineCurve b) = 10 * (b - a).
Proof.
  intros H. unfold Vector3.distanceTo, Vector3.sub.
  cbn [lineCurve Curve.getPoint Vector3.x Vector3.y Vector3.z].
  apply length_mk; [lra | ring].
Qed.

Lemma distance_on_point (a b : R) :
  Vector3.distanceTo (Curve.getPoint pointCurve a) (Curve.getPoint pointCurve b) = 0.
Proof.
  unfold Vector3.distanceTo, Vector3.sub, origin.
  cbn [pointCurve Curve.getPoint Vector3.x Vector3.y Vector3.z].
  apply length_mk; [lra | ring].
Qed.

Lemma segmentLength_point (a b : R) : Hybrid.segmentLength pointCurve a b = 0.
Proof.
  unfold Hybrid.segmentLength, Hybrid.subSamples. cbn [seq fold_left].
  rewrite !distance_on_point. lra.
Qed.

Lemma segmentLength_line :
  Hybrid.segmentLength lineCurve (INR 0 / INR 1) (INR 1 / INR 1) = 10.
Proof.
  unfold Hybrid.segmentLength, Hybrid.subSamples. cbn [seq fold_left Nat.add].
  rewrite !distance_on_line by (simpl; lra). simpl. lra.
Qed.

Lemma walkStep_last_plain curve segs n pix w i p :
  Hybrid.loopMap_get segs (Store.id p) = None ->
  (n - 1 <=? i)%nat = true ->
  Hybrid.walkStep curve segs false n pix w (i, p) = w.
Proof. intros H1 H2. unfold Hybrid.walkStep. rewrite H1, H2. reflexivity. Qed.

Lemma section_eq ty s e a f ts te ix s' e' a' ts' te' :
  s = s' -> e = e' -> a = a' -> ts = ts' -> te = te' ->
  Hybrid.mkSection ty s e a f ts te ix = Hybrid.mkSection ty s' e' a' f ts' te' ix.
Proof. intros; subst; reflexivity. Qed.

Lemma loop_circumference : 2 * PI * (5 / PI) = 10.
Proof. field. pose proof PI_RGT_0. lra. Qed.

Lemma line_walk :
  Hybrid.sections (Hybrid.walk lineCurve linePoints lineLoop false Some)
  = [Hybrid.mkSection Hybrid.loop 0 0 10 (Some lineFrame) None None (Some 0%nat);
     Hybrid.mkSection Hybrid.spline 0 0 10 None (Some (INR 0 / INR 1)) (Some (INR 1 / INR 1))
       (Some 0%nat)]
  /\ Hybrid.accumulatedLength (Hybrid.walk lineCurve linePoints lineLoop false Some)
     = 0 + 10 + 10.
Proof.
  unfold Hybrid.walk, Hybrid.indexed, linePoints.
  cbn [List.length seq combine fold_left].
  rewrite walkStep_last_plain by reflexivity.
  cbn [lineCurve Curve.getTangent]. rewrite (normalize_unit ex length_ex), initialUp_ex.
  unfold Hybrid.walkStep.
  assert (L : Hybrid.loopMap_get lineLoop (Store.id (plainPoint "point-1" origin))
              = Some (Hybrid.mkLoopSegment "point-1" (5 / PI) 0)) by reflexivity.
  rewrite L. cbn [Nat.sub Nat.leb andb negb Hybrid.radius Hybrid.prevTangent Hybrid.prevUp
    Hybrid.sections Hybrid.accumulatedLength app Nat.add].
  fold lineCurve. rewrite lineFrame_computed, segmentLength_line, loop_circumference.
  split; reflexivity.
Qed.

(** The table of the straight track with its loop. *)
Lemma line_table :
  Hybrid.sectionTable lineCurve linePoints lineLoop false Some = (lineTable, 20).
Proof.
  unfold Hybrid.sectionTable. destruct line_walk as [S A]. rewrite S, A.
  assert (T : 0 + 10 + 10 = 20) by lra.
  rewrite T. f_equal.
  unfold Hybrid.normalize. cbn [Hybrid.normalizeFrom Hybrid.setProgress Hybrid.arcLength
    Hybrid.type Hybrid.loopFrame Hybrid.splineStartT Hybrid.splineEndT Hybrid.pointIndex].
  unfold lineTable. f_equal; [|f_equal].
  - apply section_eq; try reflexivity; lra.
  - apply section_eq; try reflexivity; try lra;
      cbn [Hybrid.splineStartT Hybrid.splineEndT]; f_equal; simpl INR; lra.
Qed.

Lemma lineMemo_sections : HybridRideCamera.sections lineMemo = lineTable.
Proof.
  unfold lineMemo, HybridRideCamera.trackMemo, Hybrid.getTrackCurve.
  cbn [linePoints List.length Nat.ltb Nat.leb].
  rewrite line_table. reflexivity.
Qed.

Lemma lineMemo_total : HybridRideCamera.totalArcLength lineMemo = 20.
Proof.
  unfold lineMemo, HybridRideCamera.trackMemo, Hybrid.getTrackCurve.
  cbn [linePoints List.length Nat.ltb Nat.leb].
  rewrite line_table. reflexivity.
Qed.

Lemma stacked_walk (pix : nat -> option nat) :
  Hybrid.sections (Hybrid.walk pointCurve stackedPoints [] false pix)
  = [Hybrid.mkSection Hybrid.spline 0 0 0 None (Some (INR 0 / INR 1)) (Some (INR 1 / INR 1))
       (pix 0%nat)]
  /\ Hybrid.accumulatedLength (Hybrid.walk pointCurve stackedPoints [] false pix) = 0 + 0.
Proof.
  unfold Hybrid.walk, Hybrid.indexed, stackedPoints.
  cbn [List.length seq combine fold_left].
  rewrite walkStep_last_plain by reflexivity.
  unfold Hybrid.walkStep.
  assert (L : Hybrid.loopMap_get [] (Store.id (plainPoint "point-1" origin)) = None)
    by reflexivity.
  rewrite L.
  cbn [Nat.sub Nat.leb andb negb Hybrid.sections Hybrid.accumulatedLength app Nat.add].
  rewrite segmentLength_point. split; reflexivity.
Qed.

(** The table of the two stacked points: its total length is zero, and
    so is the quotient that becomes the end of its only section. *)
Lemma stacked_table_degenerate (pix : nat -> option nat) :
  snd (Hybrid.sectionTable pointCurve stackedPoints [] false pix) = 0 /\
  exists final,
    lastSection (fst (Hybrid.sectionTable pointCurve stackedPoints [] false pix))
    = Some final /\
    Hybrid.endProgress final = 0.
Proof.
  unfold Hybrid.sectionTable. cbn [fst snd].
  destruct (stacked_walk pix) as [S A]. rewrite S, A.
  split; [lra|]. eexists. split; [reflexivity|].
  cbn [Hybrid.setProgress Hybrid.endProgress Hybrid.arcLength]. unfold Rdiv. ring.
Qed.



Lemma trackMemo_table (catmullRom : Curve.constructor) (trackPoints : list Store.TrackPoint)
    (loopSegments : list Hybrid.LoopSegment) (isLooped : bool) :
  (2 <= List.length trackPoints)%nat ->
  HybridRideCamera.sections
    (HybridRideCamera.trackMemo catmullRom trackPoints loopSegments isLooped)
  = fst (Hybrid.sectionTable (catmullRom (map Store.position trackPoints) isLooped)
           trackPoints loopSegments isLooped Some) /\
  HybridRideCamera.totalArcLength
    (HybridRideCamera.trackMemo catmullRom trackPoints loopSegments isLooped)
  = snd (Hybrid.sectionTable (catmullRom (map Store.position trackPoints) isLooped)
           trackPoints loopSegments isLooped Some).
Proof.
  intros H. unfold HybridRideCamera.trackMemo, Hybrid.getTrackCurve.
  assert (E : (List.length trackPoints <? 2)%nat = false) by (apply Nat.ltb_ge; exact H).
  rewrite E.
  destruct (Hybrid.sectionTable (catmullRom (map Store.position trackPoints) isLooped)
              trackPoints loopSegments isLooped Some) as [table total].
  split; reflexivity.
Qed.

Lemma sectionsMemo_table (catmullRom : Curve.constructor) (trackPoints : list Store.TrackPoint)
    (loopSegments : list Hybrid.LoopSegment) (isLooped : bool) :
  (2 <= List.length trackPoints)%nat ->
  CoasterCar.sectionsMemo catmullRom trackPoints loopSegments isLooped
  = fst (Hybrid.sectionTable (catmullRom (map Store.position trackPoints) isLooped)
           trackPoints loopSegments isLooped (fun _ => None)).
Proof.
  intros H. unfold CoasterCar.sectionsMemo, Hybrid.getTrackCurve.
  assert (E : (List.length trackPoints <? 2)%nat = false) by (apply Nat.ltb_ge; exact H).
  rewrite E. reflexivity.
Qed.

(** C3, as amended.  For a section table built from at least two track
    points whose total arc length is not zero, the progress ranges
    partition [0, 1): the first section starts at 0, the last ends at
    1, each section starts where the one before it ends, and the arc
    lengths of the sections add up to the total that divides them.
    This holds of the ride camera's table and of the coaster car's. *)
Theorem section_table_partition (catmullRom : Curve.constructor)
    (trackPoints : list Store.TrackPoint) (loopSegments : list Hybrid.LoopSegment)
    (isLooped : bool) :
  (2 <= List.length trackPoints)%nat ->
  let memo := HybridRideCamera.trackMemo catmullRom trackPoints loopSegments isLooped in
  let carTable :=
    Hybrid.sectionTable (catmullRom (map Store.position trackPoints) isLooped)
      trackPoints loopSegments isLooped (fun _ => None) in
  (HybridRideCamera.totalArcLength memo <> 0 ->
   partitions (HybridRideCamera.sections memo) (HybridRideCamera.totalArcLength memo)) /\
  CoasterCar.sectionsMemo catmullRom trackPoints loopSegments isLooped = fst carTable /\
  (snd carTable <> 0 ->
   partitions (CoasterCar.sectionsMemo catmullRom trackPoints loopSegments isLooped)
              (snd carTable)).
Proof.
  intros Hn memo carTable.
  destruct (trackMemo_table catmullRom trackPoints loopSegments isLooped Hn) as [Es Et].
  pose proof (sectionsMemo_table catmullRom trackPoints loopSegments isLooped Hn) as Ec.
  subst memo carTable. split; [|split].
  - intros Hz. rewrite Es, Et. apply sectionTable_partitions; [exact Hn|].
    rewrite <- Et. exact Hz.
  - exact Ec.
  - intros Hz. rewrite Ec. apply sectionTable_partitions; assumption.
Qed.

Lemma section_table_partition_witness :
  partitions (HybridRideCamera.sections lineMemo) (HybridRideCamera.totalArcLength lineMemo).
Proof.
  assert (Hn : (2 <= List.length linePoints)%nat) by (cbn; lia).
  apply (proj1 (section_table_partition (fun _ _ => lineCurve) linePoints lineLoop false Hn)).
  fold lineMemo. rewrite lineMemo_total. lra.
Defined.

(** C3 as stated fails on two control points placed on the same spot:
    the table has one section of length zero, the total length that
    divides the running length is zero, and the end of the last section
    is not 1.  (In JavaScript the quotient is [NaN]; in the embedding it
    is [0 * / 0 = 0].) *)
Lemma coincident_points_break_partition :
  (2 <= List.length stackedPoints)%nat /\
  HybridRideCamera.totalArcLength
    (HybridRideCamera.trackMemo (fun _ _ => pointCurve) stackedPoints [] false) = 0 /\
  exists final,
    lastSection (HybridRideCamera.sections
                   (HybridRideCamera.trackMemo (fun _ _ => pointCurve) stackedPoints [] false))
    = Some final /\
    Hybrid.endProgress final <> 1.
Proof.
  assert (Hn : (2 <= List.length stackedPoints)%nat) by (cbn; lia).
  split; [exact Hn|].
  destruct (trackMemo_table (fun _ _ => pointCurve) stackedPoints [] false Hn) as [Es Et].
  destruct (stacked_table_degenerate Some) as [Z (final & Hl & He)].
  rewrite Es, Et. split; [exact Z|].
  exists final. split; [exact Hl|]. rewrite He. lra.
Qed.

(** ** The frame of a sample *)

Lemma lengthSq_reject (v t : Vector3.t) :
  Vector3.lengthSq t = 1 ->
  Vector3.lengthSq (Hybrid.reject v t) = Vector3.lengthSq v - Vector3.dot v t * Vector3.dot v t.
Proof.
  unfold Hybrid.reject, Vector3.lengthSq, Vector3.dot. simpl. intros H.
  set (d := Vector3.x v * Vector3.x t + Vector3.y v * Vector3.y t + Vector3.z v * Vector3.z t).
  replace ((Vector3.x v - Vector3.x t * d) * (Vector3.x v - Vector3.x t * d)
           + (Vector3.y v - Vector3.y t * d) * (Vector3.y v - Vector3.y t * d)
           + (Vector3.z v - Vector3.z t * d) * (Vector3.z v - Vector3.z t * d))
    with (Vector3.x v * Vector3.x v + Vector3.y v * Vector3.y v + Vector3.z v * Vector3.z v
          - 2 * d * d
          + d * d * (Vector3.x t * Vector3.x t + Vector3.y t * Vector3.y t
                     + Vector3.z t * Vector3.z t))
    by (unfold d; ring).
  rewrite H. ring.
Qed.

Lemma dot_reject (v t : Vector3.t) :
  Vector3.lengthSq t = 1 -> Vector3.dot (Hybrid.reject v t) t = 0.
Proof.
  unfold Hybrid.reject, Vector3.lengthSq, Vector3.dot. simpl. intros H.
  set (d := Vector3.x v * Vector3.x t + Vector3.y v * Vector3.y t + Vector3.z v * Vector3.z t).
  replace ((Vector3.x v - Vector3.x t * d) * Vector3.x t
           + (Vector3.y v - Vector3.y t * d) * Vector3.y t
           + (Vector3.z v - Vector3.z t * d) * Vector3.z t)
    with (d - d * (Vector3.x t * Vector3.x t + Vector3.y t * Vector3.y t
                   + Vector3.z t * Vector3.z t))
    by (unfold d; ring).
  rewrite H. ring.
Qed.

Lemma length_pos_of_lengthSq (v : Vector3.t) : 0 < Vector3.lengthSq v -> Vector3.length v <> 0.
Proof. intros H E. apply length_zero_iff in E. lra. Qed.

(** The local up of a spline sample is a unit vector at a right angle
    to the tangent, whichever axis it was projected from: world up, or
    the x axis when the tangent is within tolerance of vertical. *)
Lemma worldUpAt_frame (t : Vector3.t) :
  Vector3.length t = 1 \/ t = Vector3.zero ->
  Vector3.length (Hybrid.worldUpAt t) = 1 /\ Vector3.dot (Hybrid.worldUpAt t) t = 0.
Proof.
  intros [Ht | ->].
  - apply length_one_iff in Ht.
    pose proof (lengthSq_reject (Vector3.mk 0 1 0) t Ht) as Ly.
    pose proof (lengthSq_reject (Vector3.mk 1 0 0) t Ht) as Lx.
    unfold Hybrid.worldUpAt. unfold JsNum.gtb.
    destruct (JsNum.ltb 0.001 (Vector3.lengthSq (Hybrid.reject (Vector3.mk 0 1 0) t))) eqn:E.
    + apply ltb_spec in E.
      assert (N : Vector3.length (Hybrid.reject (Vector3.mk 0 1 0) t) <> 0)
        by (apply length_pos_of_lengthSq; lra).
      split; [apply normalize_length; exact N|].
      rewrite normalize_dot by exact N. rewrite dot_reject by exact Ht. unfold Rdiv. ring.
    + apply ltb_false in E.
      assert (P : 0 < Vector3.lengthSq (Hybrid.reject (Vector3.mk 1 0 0) t)).
      { rewrite Lx. rewrite Ly in E. revert E Ht.
        unfold Vector3.lengthSq, Vector3.dot. simpl. intros E Ht. nra. }
      assert (N : Vector3.length (Hybrid.reject (Vector3.mk 1 0 0) t) <> 0)
        by (apply length_pos_of_lengthSq; exact P).
      split; [apply normalize_length; exact N|].
      rewrite normalize_dot by exact N. rewrite dot_reject by exact Ht. unfold Rdiv. ring.
  - assert (E : Hybrid.reject (Vector3.mk 0 1 0) Vector3.zero = Vector3.mk 0 1 0) by vec.
    unfold Hybrid.worldUpAt. rewrite E.
    assert (L : Vector3.lengthSq (Vector3.mk 0 1 0) = 1)
      by (unfold Vector3.lengthSq; simpl; ring).
    rewrite L. rewrite (gtb_true 1 0.001) by lra.
    rewrite normalize_unit by (apply length_one_iff; exact L).
    split; [apply length_one_iff; exact L | unfold Vector3.dot; simpl; ring].
Qed.

(** With an orthonormal entry frame, tangent and up of a loop sample
    are orthonormal at every angle. *)
Lemma loop_sample_frame (frame : Hybrid.LoopFrame) (theta : R) :
  orthonormal (Hybrid.forward frame) (Hybrid.up frame) ->
  Vector3.length (Hybrid.ls_up (Hybrid.sampleLoopAnalytically frame theta)) = 1 /\
  Vector3.dot (Hybrid.ls_up (Hybrid.sampleLoopAnalytically frame theta))
              (Hybrid.ls_tangent (Hybrid.sampleLoopAnalytically frame theta)) = 0.
Proof.
  intros (Hf & Hu & Hd).
  apply length_one_iff in Hf. apply length_one_iff in Hu.
  unfold Hybrid.sampleLoopAnalytically. cbn [Hybrid.ls_up Hybrid.ls_tangent].
  set (f := Hybrid.forward frame) in *. set (u := Hybrid.up frame) in *.
  pose proof (sin2_cos2 theta) as SC. unfold Rsqr in SC.
  set (tv := Vector3.addScaledVector
               (Vector3.addScaledVector Vector3.zero f (cos theta)) u (sin theta)).
  set (uv := Vector3.addScaledVector
               (Vector3.addScaledVector Vector3.zero f (- sin theta)) u (cos theta)).
  set (ff := Vector3.x f * Vector3.x f + Vector3.y f * Vector3.y f + Vector3.z f * Vector3.z f).
  set (uu := Vector3.x u * Vector3.x u + Vector3.y u * Vector3.y u + Vector3.z u * Vector3.z u).
  set (fu := Vector3.x f * Vector3.x u + Vector3.y f * Vector3.y u + Vector3.z f * Vector3.z u).
  assert (Hff : ff = 1) by exact Hf.
  assert (Huu : uu = 1) by exact Hu.
  assert (Hfu : fu = 0) by exact Hd.
  assert (Lt : Vector3.lengthSq tv = 1).
  { replace (Vector3.lengthSq tv)
      with (cos theta * cos theta * ff + sin theta * sin theta * uu
            + 2 * sin theta * cos theta * fu)
      by (unfold tv, ff, uu, fu, Vector3.lengthSq; simpl; ring).
    rewrite Hff, Huu, Hfu. lra. }
  assert (Lu : Vector3.lengthSq uv = 1).
  { replace (Vector3.lengthSq uv)
      with (sin theta * sin theta * ff + cos theta * cos theta * uu
            - 2 * sin theta * cos theta * fu)
      by (unfold uv, ff, uu, fu, Vector3.lengthSq; simpl; ring).
    rewrite Hff, Huu, Hfu. lra. }
  rewrite (normalize_unit tv) by (apply length_one_iff; exact Lt).
  rewrite (normalize_unit uv) by (apply length_one_iff; exact Lu).
  split; [apply length_one_iff; exact Lu|].
  replace (Vector3.dot uv tv)
    with (sin theta * cos theta * (uu - ff)
          + (cos theta * cos theta - sin theta * sin theta) * fu)
    by (unfold uv, tv, ff, uu, fu, Vector3.dot; simpl; ring).
  rewrite Hff, Huu, Hfu. ring.
Qed.

Lemma selected_in (p : R) (l : list Hybrid.TrackSection) (first : Hybrid.TrackSection) :
  l <> [] ->
  In (match Hybrid.findSection p l with Some s => s | None => last l first end) l.
Proof.
  intros H. destruct (Hybrid.findSection p l) as [s|] eqn:E.
  - unfold Hybrid.findSection in E. apply find_some in E. tauto.
  - apply last_in. exact H.
Qed.


Lemma lineTable_wellFormed : Forall wellFormed lineTable.
Proof.
  unfold lineTable.
  constructor; [exact orthonormal_ex_ey|].
  constructor; [split; discriminate | constructor].
Qed.







(** ** The ride integrator *)


Lemma fold_Rmax_ge (l : list R) (a : R) : a <= fold_left Rmax l a.
Proof.
  revert a. induction l as [|x l IH]; intros a; [apply Rle_refl|].
  cbn [fold_left]. eapply Rle_trans; [apply Rmax_l | apply IH].
Qed.











Lemma wrap_world (w : Store.World) (newProgress : R) :
  1 <= newProgress ->
  Store.isRiding (fst w) = true ->
  let after := Store.setRideProgress (JsNum.rem newProgress 1) w in
  Store.rideProgress (fst after) = JsNum.rem newProgress 1 /\
  Store.rideProgress (fst after) = newProgress - IZR (Zfloor newProgress) /\
  0 <= Store.rideProgress (fst after) < 1 /\
  Store.isRiding (fst after) = true /\
  Store.mode (fst after) = Store.mode (fst w).
Proof.
  intros Hp Hr. destruct (rem_one newProgress Hp) as [R1 R2].
  destruct w as [s c]. cbn in *. repeat split; try assumption; lra.
Qed.

Lemma stop_world (w : Store.World) :
  Store.isRiding (fst (Store.stopRide w)) = false /\
  Store.rideProgress (fst (Store.stopRide w)) = 0 /\
  Store.mode (fst (Store.stopRide w)) = Store.build.
Proof. destruct w as [s c]. cbn. repeat split. Qed.

Lemma plain_frame_past_end (cfg : Scale.t) (curve : Curve.t) (firstPeakT delta : R)
    (st : RideCamera.RideState) (speed maxHeight : R) :
  let s := fst (RideCamera.world st) in
  let newProgress := Store.rideProgress s + (speed * delta) / Curve.getLength curve in
  let st' := RideCamera.useFrame cfg (Some curve) firstPeakT delta st in
  Store.isRiding s = true ->
  RideCamera.speedPhase cfg (Store.hasChainLift s) (Store.rideProgress s) firstPeakT
    (Store.rideSpeed s) (RideCamera.maxHeightReached (RideCamera.refs st))
    (Vector3.y (Curve.getPoint curve (Store.rideProgress s))) = (speed, maxHeight) ->
  1 <= newProgress ->
  endsOrWraps (RideCamera.world st) (RideCamera.world st')
    (RideCamera.maxHeightReached (RideCamera.refs st')) newProgress
    (Vector3.y (Curve.getPoint curve 0)) maxHeight.
Proof.
  intros s newProgress st' Hr Hs Hp.
  assert (E : st' =
    if Store.isLooped s then
      RideCamera.moveTo curve (JsNum.rem newProgress 1)
        (if Store.hasChainLift s then Vector3.y (Curve.getPoint curve 0) else maxHeight) st
    else RideCamera.mkRide (Store.stopRide (RideCamera.world st))
           (RideCamera.mkRefs maxHeight (RideCamera.previousUp (RideCamera.refs st)))).
  { subst st'. unfold RideCamera.useFrame. fold s. rewrite Hr. cbn [negb].
    rewrite Hs. fold newProgress. rewrite (geb_true _ _ Hp). reflexivity. }
  unfold endsOrWraps. fold s. split; intros Hl; rewrite E, Hl.
  - cbn [RideCamera.world]. split; [reflexivity | apply stop_world].
  - unfold RideCamera.moveTo. cbn [RideCamera.world RideCamera.refs RideCamera.maxHeightReached].
    pose proof (wrap_world (RideCamera.world st) newProgress Hp Hr) as W. cbv zeta in W.
    fold s in W. repeat split; try apply W; intros ->; reflexivity.
Qed.

Lemma hybrid_frame_past_end (curve : Curve.t) (memo : HybridRideCamera.TrackMemo) (delta : R)
    (st : HybridRideCamera.RideState) (currentSample : Hybrid.Sample) (speed maxHeight : R) :
  let s := fst (HybridRideCamera.world st) in
  let newProgress :=
    Store.rideProgress s + (speed * delta) / HybridRideCamera.totalArcLength memo in
  let st' := HybridRideCamera.useFrame (Some curve) memo delta st in
  Store.isRiding s = true ->
  Hybrid.sampleHybridTrack (Store.rideProgress s) (HybridRideCamera.sections memo) curve
    = Some currentSample ->
  HybridRideCamera.speedPhase (Store.hasChainLift s) (Store.rideProgress s)
    (HybridRideCamera.firstPeakProgress memo) (Store.rideSpeed s)
    (HybridRideCamera.maxHeightReached (HybridRideCamera.refs st))
    (Vector3.y (Hybrid.point currentSample)) = (speed, maxHeight) ->
  1 <= newProgress ->
  endsOrWraps (HybridRideCamera.world st) (HybridRideCamera.world st')
    (HybridRideCamera.maxHeightReached (HybridRideCamera.refs st')) newProgress
    (Vector3.y (Curve.getPoint curve 0)) maxHeight.
Proof.
  intros s newProgress st' Hr Hc Hs Hp.
  assert (Hne : exists a l, HybridRideCamera.sections memo = a :: l).
  { destruct (HybridRideCamera.sections memo) as [|a l] eqn:E; [discriminate | eauto]. }
  destruct Hne as (a & l & Hsec).
  assert (E : st' =
    if Store.isLooped s then
      HybridRideCamera.moveTo memo curve (JsNum.rem newProgress 1)
        (if Store.hasChainLift s then Vector3.y (Curve.getPoint curve 0) else maxHeight) st
    else HybridRideCamera.mkRide (Store.stopRide (HybridRideCamera.world st))
           (HybridRideCamera.mkRefs
              (HybridRideCamera.previousCameraPos (HybridRideCamera.refs st))
              (HybridRideCamera.previousLookAt (HybridRideCamera.refs st)) maxHeight
              (HybridRideCamera.transportedUp (HybridRideCamera.refs st))
              (HybridRideCamera.lastProgress (HybridRideCamera.refs st)))
           (HybridRideCamera.camera st)).
  { subst st'. unfold HybridRideCamera.useFrame. fold s. rewrite Hr. cbn [negb].
    rewrite Hc. rewrite Hsec at 1. rewrite Hs. fold newProgress.
    rewrite (geb_true _ _ Hp). reflexivity. }
  unfold endsOrWraps. fold s. split; intros Hl; rewrite E, Hl.
  - cbn [HybridRideCamera.world]. split; [reflexivity | apply stop_world].
  - pose proof (wrap_world (HybridRideCamera.world st) newProgress Hp Hr) as W. cbv zeta in W.
    fold s in W. unfold HybridRideCamera.moveTo.
    destruct (Hybrid.sampleHybridTrack (JsNum.rem newProgress 1)
                (HybridRideCamera.sections memo) curve);
      cbn [HybridRideCamera.world HybridRideCamera.refs HybridRideCamera.maxHeightReached];
      repeat split; try apply W; intros ->; reflexivity.
Qed.

(** C2.  In a frame of an active ride whose advanced progress reaches
    or exceeds 1: on an open path the ride ends, [stopRide] leaving
    [isRiding] false, [rideProgress] 0 and the mode build, so that the
    progress never wraps; on a closed path the new progress is the
    advanced progress modulo 1, its fractional part, the ride goes on,
    and with the chain lift on the height tracker is reset to the
    height of the track at progress 0 (with it off the tracker stays as
    the speed phase left it).  Both ride cameras do so. *)
Theorem ride_end_or_wrap :
  (forall (cfg : Scale.t) (curve : Curve.t) (firstPeakT delta : R)
          (st : RideCamera.RideState) (speed maxHeight : R),
      let s := fst (RideCamera.world st) in
      let newProgress := Store.rideProgress s + (speed * delta) / Curve.getLength curve in
      let st' := RideCamera.useFrame cfg (Some curve) firstPeakT delta st in
      Store.isRiding s = true ->
      RideCamera.speedPhase cfg (Store.hasChainLift s) (Store.rideProgress s) firstPeakT
        (Store.rideSpeed s) (RideCamera.maxHeightReached (RideCamera.refs st))
        (Vector3.y (Curve.getPoint curve (Store.rideProgress s))) = (speed, maxHeight) ->
      1 <= newProgress ->
      endsOrWraps (RideCamera.world st) (RideCamera.world st')
        (RideCamera.maxHeightReached (RideCamera.refs st')) newProgress
        (Vector3.y (Curve.getPoint curve 0)) maxHeight) /\
  (forall (curve : Curve.t) (memo : HybridRideCamera.TrackMemo) (delta : R)
          (st : HybridRideCamera.RideState) (currentSample : Hybrid.Sample)
          (speed maxHeight : R),
      let s := fst (HybridRideCamera.world st) in
      let newProgress :=
        Store.rideProgress s + (speed * delta) / HybridRideCamera.totalArcLength memo in
      let st' := HybridRideCamera.useFrame (Some curve) memo delta st in
      Store.isRiding s = true ->
      Hybrid.sampleHybridTrack (Store.rideProgress s) (HybridRideCamera.sections memo) curve
        = Some currentSample ->
      HybridRideCamera.speedPhase (Store.hasChainLift s) (Store.rideProgress s)
        (HybridRideCamera.firstPeakProgress memo) (Store.rideSpeed s)
        (HybridRideCamera.maxHeightReached (HybridRideCamera.refs st))
        (Vector3.y (Hybrid.point currentSample)) = (speed, maxHeight) ->
      1 <= newProgress ->
      endsOrWraps (HybridRideCamera.world st) (HybridRideCamera.world st')
        (HybridRideCamera.maxHeightReached (HybridRideCamera.refs st')) newProgress
        (Vector3.y (Curve.getPoint curve 0)) maxHeight).
Proof.
  split.
  - exact plain_frame_past_end.
  - exact hybrid_frame_past_end.
Qed.

Lemma ride_end_or_wrap_witness :
  Store.isRiding
    (fst (RideCamera.world (RideCamera.useFrame config (Some lineCurve) 0.2 10 plainHalfway)))
  = false /\
  Store.rideProgress
    (fst (RideCamera.world (RideCamera.useFrame config (Some lineCurve) 0.2 10 plainHalfway)))
  = 0 /\
  Store.mode
    (fst (RideCamera.world (RideCamera.useFrame config (Some lineCurve) 0.2 10 plainHalfway)))
  = Store.build.
Proof.
  set (phase := RideCamera.speedPhase config false 0.5 0.2 1 0
                  (Vector3.y (Curve.getPoint lineCurve 0.5))).
  assert (Hs : phase = (fst phase, snd phase)) by apply surjective_pairing.
  assert (Hp : 1 <= 0.5 + (fst phase * 10) / Curve.getLength lineCurve).
  { unfold phase, RideCamera.speedPhase. cbn [andb fst config Scale.MIN_RIDE_SPEED
      lineCurve Curve.getLength].
    match goal with |- context [Rmax 1 ?e] => pose proof (Rmax_l 1 e) end. lra. }
  destruct (proj1 ride_end_or_wrap config lineCurve 0.2 10 plainHalfway
              (fst phase) (snd phase) eq_refl Hs Hp) as [Hopen _].
  destruct (Hopen eq_refl) as (_ & H1 & H2 & H3).
  repeat split; assumption.
Defined.

(** ** Frame transport *)

Lemma clamp_commutes (d : R) : Rmin 1 (Rmax (-1) d) = Rmax (-1) (Rmin 1 d).
Proof. unfold Rmin, Rmax. repeat destruct (Rle_dec _ _); lra. Qed.

Lemma transportUp_outside (l : list Hybrid.TrackSection) (curve : Curve.t)
    (lastProgress : R) (up : Vector3.t) (sample prevSample : Hybrid.Sample) :
  Hybrid.inLoop sample = false ->
  Hybrid.sampleHybridTrack lastProgress l curve = Some prevSample ->
  Hybrid.inLoop prevSample = false ->
  HybridRideCamera.transportUp l curve lastProgress up sample
  = parallelTransport hybridParallel hybridNearZero
      (Hybrid.tangent prevSample) up (Hybrid.tangent sample).
Proof.
  intros Hs Hp Hq. unfold HybridRideCamera.transportUp, parallelTransport.
  rewrite Hs, Hp, Hq. unfold hybridParallel, hybridNearZero, Hybrid.reject.
  rewrite clamp_commutes. rewrite !gtb_negb_leb. rewrite <- negb_orb.
  unfold Quaternion.applyAxisAngle.
  destruct (JsNum.leb _ _ || JsNum.leb _ _); cbn [negb]; destruct (JsNum.leb _ _); reflexivity.
Qed.

Lemma transportUp_after_loop (l : list Hybrid.TrackSection) (curve : Curve.t)
    (lastProgress : R) (up : Vector3.t) (sample prevSample : Hybrid.Sample) :
  Hybrid.sampleHybridTrack lastProgress l curve = Some prevSample ->
  Hybrid.inLoop prevSample = true ->
  HybridRideCamera.transportUp l curve lastProgress up sample = Hybrid.sampleUp sample.
Proof.
  intros Hp Hq. unfold HybridRideCamera.transportUp. rewrite Hp, Hq.
  destruct (Hybrid.inLoop sample); reflexivity.
Qed.

Lemma stableUp_no_rotation (prevTangent previousUp tangent : Vector3.t) :
  RideCamera.stableUp previousUp tangent
  = parallelTransport (fun _ _ => true) plainNearZero prevTangent previousUp tangent.
Proof.
  unfold RideCamera.stableUp, parallelTransport, plainNearZero, Hybrid.reject.
  rewrite gtb_negb_leb. destruct (JsNum.leb _ _); reflexivity.
Qed.

Lemma moveTo_transports (memo : HybridRideCamera.TrackMemo) (curve : Curve.t)
    (newProgress maxHeight : R) (st : HybridRideCamera.RideState) (sample : Hybrid.Sample) :
  Hybrid.sampleHybridTrack newProgress (HybridRideCamera.sections memo) curve = Some sample ->
  HybridRideCamera.transportedUp
    (HybridRideCamera.refs (HybridRideCamera.moveTo memo curve newProgress maxHeight st))
  = HybridRideCamera.transportUp (HybridRideCamera.sections memo) curve
      (HybridRideCamera.lastProgress (HybridRideCamera.refs st))
      (HybridRideCamera.transportedUp (HybridRideCamera.refs st)) sample.
Proof. intros H. unfold HybridRideCamera.moveTo. rewrite H. reflexivity. Qed.

(** C6, as amended.  In the ride camera over the hybrid track, at a
    frame whose new sample lies outside a loop section, the up vector
    stored is: the parallel transport of the stored up from the tangent
    at the last progress to the new tangent (the rotation skipped when
    the squared length of the cross product or the angle is at most
    0.0001, the fallback taken when the squared length of the
    projected vector is at most 0.0001) when the sample at the last
    progress lies outside a loop as well; the local up of the new
    sample when the sample at the last progress lies inside a loop, or
    is missing.  The plain ride camera never rotates: it only removes
    from the stored up its projection onto the new tangent and
    renormalises, with world up projected off the tangent as the
    fallback under length 0.01. *)
Theorem transported_up (l : list Hybrid.TrackSection) (curve : Curve.t)
    (lastProgress : R) (up : Vector3.t) (sample : Hybrid.Sample) :
  Hybrid.inLoop sample = false ->
  match Hybrid.sampleHybridTrack lastProgress l curve with
  | Some prevSample =>
      if Hybrid.inLoop prevSample
      then HybridRideCamera.transportUp l curve lastProgress up sample
           = Hybrid.sampleUp sample
      else HybridRideCamera.transportUp l curve lastProgress up sample
           = parallelTransport hybridParallel hybridNearZero
               (Hybrid.tangent prevSample) up (Hybrid.tangent sample)
  | None => HybridRideCamera.transportUp l curve lastProgress up sample
            = Hybrid.sampleUp sample
  end /\
  (forall memo newProgress maxHeight st,
      Hybrid.sampleHybridTrack newProgress (HybridRideCamera.sections memo) curve
        = Some sample ->
      HybridRideCamera.transportedUp
        (HybridRideCamera.refs (HybridRideCamera.moveTo memo curve newProgress maxHeight st))
      = HybridRideCamera.transportUp (HybridRideCamera.sections memo) curve
          (HybridRideCamera.lastProgress (HybridRideCamera.refs st))
          (HybridRideCamera.transportedUp (HybridRideCamera.refs st)) sample) /\
  (forall prevTangent previousUp tangent,
      RideCamera.stableUp previousUp tangent
      = parallelTransport (fun _ _ => true) plainNearZero prevTangent previousUp tangent) /\
  (forall newProgress maxHeight st,
      RideCamera.previousUp
        (RideCamera.refs (RideCamera.moveTo curve newProgress maxHeight st))
      = RideCamera.stableUp (RideCamera.previousUp (RideCamera.refs st))
          (Vector3.normalize (Curve.getTangent curve newProgress))).
Proof.
  intros Hs. split; [|split; [|split]].
  - destruct (Hybrid.sampleHybridTrack lastProgress l curve) as [prevSample|] eqn:Hp.
    + destruct (Hybrid.inLoop prevSample) eqn:Hq.
      * apply (transportUp_after_loop l curve lastProgress up sample prevSample Hp Hq).
      * apply (transportUp_outside l curve lastProgress up sample prevSample Hs Hp Hq).
    + unfold HybridRideCamera.transportUp. rewrite Hs, Hp. reflexivity.
  - intros memo newProgress maxHeight st H. apply moveTo_transports. exact H.
  - intros prevTangent previousUp tangent. apply stableUp_no_rotation.
  - intros newProgress maxHeight st. reflexivity.
Qed.

(** ** The ride over the straight track with its loop *)

Lemma line_sample_loop (p : R) : 0 <= p < 0.5 ->
  Hybrid.sampleHybridTrack p lineTable lineCurve
  = Some (Hybrid.mkSample
            (Hybrid.ls_point (Hybrid.sampleLoopAnalytically lineFrame
                                ((p - 0) / (0.5 - 0) * PI * 2)))
            (Hybrid.ls_tangent (Hybrid.sampleLoopAnalytically lineFrame
                                  ((p - 0) / (0.5 - 0) * PI * 2)))
            (Hybrid.ls_up (Hybrid.sampleLoopAnalytically lineFrame
                             ((p - 0) / (0.5 - 0) * PI * 2)))
            true).
Proof.
  intros H. unfold Hybrid.sampleHybridTrack, lineTable.
  rewrite clampProgress_id by lra.
  unfold Hybrid.findSection. cbn [find Hybrid.startProgress Hybrid.endProgress].
  rewrite (geb_true p 0), (ltb_true p 0.5) by lra. cbn [andb].
  cbn [Hybrid.type Hybrid.loopFrame Hybrid.startProgress Hybrid.endProgress].
  reflexivity.
Qed.

Lemma worldUpAt_ex : Hybrid.worldUpAt ex = ey.
Proof.
  unfold Hybrid.worldUpAt. fold ey. rewrite reject_ey_ex.
  assert (L : Vector3.lengthSq ey = 1) by (vsimpl; ring).
  rewrite L, (gtb_true 1 0.001) by lra. apply normalize_unit, length_ey.
Qed.

Lemma line_sample_spline (p : R) : 0.5 <= p <= 0.9999 ->
  Hybrid.sampleHybridTrack p lineTable lineCurve
  = Some (Hybrid.mkSample
            (Curve.getPoint lineCurve (0 + (p - 0.5) / (1 - 0.5) * (1 - 0))) ex ey false).
Proof.
  intros H. unfold Hybrid.sampleHybridTrack, lineTable.
  rewrite clampProgress_id by lra.
  unfold Hybrid.findSection. cbn [find Hybrid.startProgress Hybrid.endProgress].
  rewrite (ltb_ge p 0.5) by lra. rewrite andb_false_r.
  rewrite (geb_true p 0.5), (ltb_true p 1) by lra. cbn [andb].
  cbn [Hybrid.type Hybrid.loopFrame Hybrid.startProgress Hybrid.endProgress
       Hybrid.splineStartT Hybrid.splineEndT].
  cbn [lineCurve Curve.getTangent]. rewrite (normalize_unit ex length_ex), worldUpAt_ex.
  reflexivity.
Qed.

(** At the top of the loop the rider looks backwards, head down. *)
Lemma loop_top_sample :
  Hybrid.ls_tangent (Hybrid.sampleLoopAnalytically lineFrame PI) = Vector3.negate ex /\
  Hybrid.ls_up (Hybrid.sampleLoopAnalytically lineFrame PI) = down.
Proof.
  unfold Hybrid.sampleLoopAnalytically. cbn [Hybrid.ls_tangent Hybrid.ls_up lineFrame
    Hybrid.forward Hybrid.up].
  rewrite sin_PI, cos_PI. split.
  - assert (E : forall s, Vector3.addScaledVector
                            (Vector3.addScaledVector Vector3.zero ex s) ey 0
                          = Vector3.multiplyScalar ex s) by (intros s; vec).
    rewrite E.
    assert (E' : Vector3.multiplyScalar ex (-1) = Vector3.negate ex) by vec.
    rewrite E'. apply normalize_unit. rewrite length_negate. apply length_ex.
  - assert (E : forall s, Vector3.addScaledVector
                            (Vector3.addScaledVector Vector3.zero ex (- 0)) ey s
                          = Vector3.multiplyScalar ey s) by (intros s; vec).
    rewrite E.
    assert (E' : Vector3.multiplyScalar ey (-1) = down) by vec.
    rewrite E'. apply normalize_unit. apply length_mk; lra.
Qed.

Lemma transported_up_witness :
  HybridRideCamera.transportUp lineTable lineCurve 0.6 ey
    (Hybrid.mkSample (Vector3.mk 7 0 0) ex ey false)
  = parallelTransport hybridParallel hybridNearZero ex ey ex.
Proof.
  pose proof (proj1 (transported_up lineTable lineCurve 0.6 ey
                       (Hybrid.mkSample (Vector3.mk 7 0 0) ex ey false) eq_refl)) as H.
  rewrite line_sample_spline in H by lra. exact H.
Defined.

(** A frame of the straight track, chain lift off, that stays short of
    the end. *)
Lemma line_frame (delta p : R) (r : HybridRideCamera.Refs) (c : HybridRideCamera.Camera) :
  0 <= p <= 0.9999 ->
  p + (12.0 * 1 * delta) / 20 < 1 ->
  HybridRideCamera.useFrame (Some lineCurve) lineMemo delta
    (HybridRideCamera.mkRide (Store.setRideProgress p lineWorld) r c)
  = HybridRideCamera.moveTo lineMemo lineCurve (p + (12.0 * 1 * delta) / 20)
      (HybridRideCamera.maxHeightReached r)
      (HybridRideCamera.mkRide (Store.setRideProgress p lineWorld) r c).
Proof.
  intros Hp Hn. unfold HybridRideCamera.useFrame.
  rewrite lineWorld_state. unfold Store.setRideProgress.
  cbn [HybridRideCamera.world HybridRideCamera.refs fst snd Store.set_rideProgress
       Store.isRiding Store.rideProgress Store.hasChainLift Store.isLooped Store.rideSpeed
       negb].
  rewrite lineMemo_sections, lineMemo_total. unfold lineTable at 1.
  assert (S : exists sample, Hybrid.sampleHybridTrack p lineTable lineCurve = Some sample).
  { destruct (Rlt_dec p 0.5).
    - rewrite line_sample_loop by lra. eauto.
    - rewrite line_sample_spline by lra. eauto. }
  destruct S as [sample ->].
  unfold HybridRideCamera.speedPhase. cbn [andb].
  rewrite (geb_false _ 1 Hn). reflexivity.
Qed.

Lemma lineStart_state :
  lineStart
  = HybridRideCamera.mkRide (Store.setRideProgress 0 lineWorld)
      (HybridRideCamera.mkRefs Vector3.zero Vector3.zero 0 ey 0)
      (HybridRideCamera.mkCamera Vector3.zero ey Vector3.zero).
Proof. reflexivity. Qed.

Lemma moveTo_line_state (np mh : R) (w : Store.World) (r : HybridRideCamera.Refs)
    (c : HybridRideCamera.Camera) (sample : Hybrid.Sample) :
  Hybrid.sampleHybridTrack np lineTable lineCurve = Some sample ->
  exists camPos lookAt,
    HybridRideCamera.moveTo lineMemo lineCurve np mh (HybridRideCamera.mkRide w r c)
    = HybridRideCamera.mkRide (Store.setRideProgress np w)
        (HybridRideCamera.mkRefs camPos lookAt mh
           (HybridRideCamera.transportUp lineTable lineCurve
              (HybridRideCamera.lastProgress r) (HybridRideCamera.transportedUp r) sample)
           np)
        (HybridRideCamera.mkCamera camPos
           (HybridRideCamera.transportUp lineTable lineCurve
              (HybridRideCamera.lastProgress r) (HybridRideCamera.transportedUp r) sample)
           lookAt).
Proof.
  intros H. unfold HybridRideCamera.moveTo. rewrite lineMemo_sections, H.
  eexists. eexists. reflexivity.
Qed.

Lemma loop_top_reached :
  Hybrid.sampleHybridTrack 0.25 lineTable lineCurve
  = Some (Hybrid.mkSample (Hybrid.ls_point (Hybrid.sampleLoopAnalytically lineFrame PI))
            (Vector3.negate ex) down true).
Proof.
  pose proof (line_sample_loop 0.25 ltac:(lra)) as S.
  assert (T : (0.25 - 0) / (0.5 - 0) * PI * 2 = PI) by lra. rewrite T in S.
  destruct loop_top_sample as [Lt Lu]. rewrite Lt, Lu in S. exact S.
Qed.

(** The first frame ends at the top of the loop. *)
Lemma lineTop_explicit :
  exists camPos lookAt,
    lineTop = HybridRideCamera.mkRide (Store.setRideProgress 0.25 lineWorld)
                (HybridRideCamera.mkRefs camPos lookAt 0 down 0.25)
                (HybridRideCamera.mkCamera camPos down lookAt).
Proof.
  unfold lineTop. rewrite lineStart_state, line_frame by lra.
  assert (N : 0 + 12.0 * 1 * (5 / 12) / 20 = 0.25) by lra. rewrite N.
  destruct (moveTo_line_state 0.25 0 (Store.setRideProgress 0 lineWorld)
              (HybridRideCamera.mkRefs Vector3.zero Vector3.zero 0 ey 0)
              (HybridRideCamera.mkCamera Vector3.zero ey Vector3.zero) _ loop_top_reached)
    as (camPos & lookAt & E).
  exists camPos, lookAt. cbn [HybridRideCamera.maxHeightReached]. rewrite E. reflexivity.
Qed.

(** The second frame leaves the loop, and the stored up is the local
    up of the new sample. *)
Lemma linePast_explicit :
  exists camPos lookAt,
    linePast = HybridRideCamera.mkRide (Store.setRideProgress 0.55 lineWorld)
                 (HybridRideCamera.mkRefs camPos lookAt 0 ey 0.55)
                 (HybridRideCamera.mkCamera camPos ey lookAt).
Proof.
  destruct lineTop_explicit as (camPos & lookAt & Etop).
  pose proof (line_sample_spline 0.55 ltac:(lra)) as S2.
  unfold linePast. rewrite Etop, line_frame by lra.
  assert (N : 0.25 + 12.0 * 1 * 0.5 / 20 = 0.55) by lra. rewrite N.
  destruct (moveTo_line_state 0.55 0 (Store.setRideProgress 0.25 lineWorld)
              (HybridRideCamera.mkRefs camPos lookAt 0 down 0.25)
              (HybridRideCamera.mkCamera camPos down lookAt) _ S2)
    as (camPos' & lookAt' & E).
  exists camPos', lookAt'. cbn [HybridRideCamera.maxHeightReached]. rewrite E.
  rewrite (transportUp_after_loop lineTable lineCurve _ _ _ _ loop_top_reached eq_refl).
  reflexivity.
Qed.

Lemma transport_at_top :
  parallelTransport hybridParallel hybridNearZero (Vector3.negate ex) down ex = down.
Proof.
  unfold parallelTransport.
  assert (C : Vector3.crossVectors (Vector3.negate ex) ex = Vector3.zero) by vec.
  assert (P : hybridParallel (Vector3.negate ex) ex = true).
  { unfold hybridParallel. rewrite C.
    assert (L : Vector3.lengthSq Vector3.zero = 0) by (vsimpl; ring).
    rewrite L. replace (JsNum.leb 0 0.0001) with true; [reflexivity|].
    symmetry. apply leb_spec. lra. }
  rewrite P.
  assert (D : Vector3.dot down ex = 0) by (vsimpl; ring).
  rewrite D.
  assert (E : Vector3.sub down (Vector3.multiplyScalar ex 0) = down) by vec.
  rewrite E.
  assert (Z : hybridNearZero down = false).
  { unfold hybridNearZero. apply leb_false. vsimpl. lra. }
  rewrite Z. apply normalize_unit. apply length_mk; lra.
Qed.

(** C6 as stated fails on the straight track with a loop at its first
    point.  Started with the chain lift off, a frame of 5/12 s takes
    the rider to progress 0.25, the top of the loop, where the stored
    up points down and the tangent backwards.  The next frame, of half
    a second, ends at progress 0.55, on the spline and outside the
    loop.  The transport of the previous pair to the new tangent keeps
    the up pointing down (the tangents are anti-parallel, no rotation,
    and down is already at a right angle to the new tangent); the frame
    stores the local up of the new sample instead, which points up. *)
Lemma up_flips_after_loop :
  Store.rideProgress (fst (HybridRideCamera.world lineTop)) = 0.25 /\
  HybridRideCamera.lastProgress (HybridRideCamera.refs lineTop) = 0.25 /\
  HybridRideCamera.transportedUp (HybridRideCamera.refs lineTop) = down /\
  option_map Hybrid.tangent
    (Hybrid.sampleHybridTrack 0.25 (HybridRideCamera.sections lineMemo) lineCurve)
  = Some (Vector3.negate ex) /\
  Store.rideProgress (fst (HybridRideCamera.world linePast)) = 0.55 /\
  Hybrid.sampleHybridTrack 0.55 (HybridRideCamera.sections lineMemo) lineCurve
  = Some (Hybrid.mkSample (Vector3.mk 1 0 0) ex ey false) /\
  HybridRideCamera.transportedUp (HybridRideCamera.refs linePast) = ey /\
  parallelTransport hybridParallel hybridNearZero (Vector3.negate ex) down ex = down /\
  ey <> down.
Proof.
  destruct lineTop_explicit as (camPos & lookAt & Etop).
  destruct linePast_explicit as (camPos' & lookAt' & Epast).
  rewrite Etop, Epast, lineMemo_sections, loop_top_reached.
  rewrite (line_sample_spline 0.55) by lra.
  rewrite lineWorld_state.
  cbn [HybridRideCamera.world HybridRideCamera.refs HybridRideCamera.transportedUp
       HybridRideCamera.lastProgress Store.setRideProgress fst snd Store.set_rideProgress
       Store.rideProgress option_map Hybrid.tangent].
  repeat split.
  - f_equal. f_equal. cbn [lineCurve Curve.getPoint]. f_equal. lra.
  - exact transport_at_top.
  - unfold ey, down. intros H. injection H as H. lra.
Qed.

(** ** Identifiers of track points *)

Lemma point_id_inj (n m : nat) : Store.point_id n = Store.point_id m -> n = m.
Proof.
  unfold Store.point_id. intros H. simpl in H. injection H as H.
  apply Unsigned.to_uint_inj.
  apply (f_equal NilEmpty.uint_of_string) in H.
  rewrite !NilEmpty.usu in H. congruence.
Qed.

Lemma point_ids_NoDup (c n : nat) : NoDup (map Store.point_id (seq c n)).
Proof.
  revert c. induction n as [|n IH]; intros c; simpl; constructor.
  - intros H. apply in_map_iff in H. destruct H as [k [Hk Hin]].
    apply point_id_inj in Hk. apply in_seq in Hin. lia.
  - apply IH.
Qed.

Lemma newPoint_run (pos : Vector3.t) (c : nat) :
  Store.newPoint pos c = (Store.mkTrackPoint (Store.point_id (S c)) pos 0 None, S c).
Proof. reflexivity. Qed.

Lemma forEach_cons {A B : Type} (f : A -> Store.Gen B) (a : A) (l : list A) (c : nat) :
  Store.forEach f (a :: l) c
  = (fst (f a c) :: fst (Store.forEach f l (snd (f a c))),
     snd (Store.forEach f l (snd (f a c)))).
Proof.
  cbn [Store.forEach]. unfold Store.bind, Store.ret.
  destruct (f a c) as [b c1]. cbn [fst snd].
  destruct (Store.forEach f l c1) as [bs c2]. reflexivity.
Qed.

(** A run of [forEach] over points that each draw one identifier draws
    the next [length l] identifiers, in order. *)
Lemma forEach_ids {A : Type} (f : A -> Store.Gen Store.TrackPoint) (l : list A) :
  (forall a c, Store.id (fst (f a c)) = Store.point_id (S c) /\ snd (f a c) = S c) ->
  forall c,
    map Store.id (fst (Store.forEach f l c)) = map Store.point_id (seq (S c) (List.length l)) /\
    snd (Store.forEach f l c) = (c + List.length l)%nat.
Proof.
  intros Hf. induction l as [|a l IH]; intros c.
  - cbn. split; [reflexivity | lia].
  - rewrite forEach_cons. cbn [fst snd map List.length seq].
    destruct (Hf a c) as [Hid Hc]. rewrite Hc.
    destruct (IH (S c)) as [IHid IHc]. rewrite Hid, IHid, IHc.
    split; [reflexivity | lia].
Qed.

Lemma forEach_length {A B : Type} (f : A -> Store.Gen B) (l : list A) (c : nat) :
  List.length (fst (Store.forEach f l c)) = List.length l.
Proof.
  revert c. induction l as [|a l IH]; intros c.
  - reflexivity.
  - rewrite forEach_cons. cbn [fst List.length]. rewrite IH. reflexivity.
Qed.

Lemma forEach_nth {A B : Type} (f : A -> Store.Gen B) (l : list A) :
  (forall a c, snd (f a c) = S c) ->
  forall c k a,
    nth_error l k = Some a ->
    nth_error (fst (Store.forEach f l c)) k = Some (fst (f a (c + k)%nat)).
Proof.
  intros Hf. induction l as [|a0 l IH]; intros c k a Hk.
  - destruct k; discriminate.
  - rewrite forEach_cons. cbn [fst]. destruct k as [|k].
    + injection Hk as <-. cbn. rewrite Nat.add_0_r. reflexivity.
    + cbn [nth_error] in *. rewrite Hf. rewrite (IH (S c) k a Hk).
      replace (S c + k)%nat with (c + S k)%nat by lia. reflexivity.
Qed.


Lemma bind_run {A B : Type} (m : Store.Gen A) (k : A -> Store.Gen B) (c : nat) :
  Store.bind m k c = k (fst (m c)) (snd (m c)).
Proof. unfold Store.bind. destruct (m c). reflexivity. Qed.


Lemma occurrences_app (l l' : list string) (x : string) :
  Session.occurrences (l ++ l') x = (Session.occurrences l x + Session.occurrences l' x)%nat.
Proof. apply count_occ_app. Qed.

Lemma occurrences_drawnFrom (c m : nat) (x : string) : (Session.occurrences (Session.drawnFrom c m) x <= 1)%nat.
Proof. apply NoDup_count_occ. apply point_ids_NoDup. Qed.

Lemma occurrences_filter (f : string -> bool) (l : list string) (x : string) :
  (Session.occurrences (filter f l) x <= Session.occurrences l x)%nat.
Proof.
  unfold Session.occurrences. induction l as [|a l IH]; simpl; [lia|].
  destruct (f a); simpl; destruct (string_dec a x); lia.
Qed.

Lemma occurrences_split (k : nat) (l : list string) (x : string) :
  Session.occurrences l x = (Session.occurrences (firstn k l) x + Session.occurrences (skipn k l) x)%nat.
Proof. rewrite <- occurrences_app, firstn_skipn. reflexivity. Qed.

Lemma occurrences_skipn (k j : nat) (l : list string) (x : string) :
  (Session.occurrences (skipn (k + j) l) x <= Session.occurrences (skipn k l) x)%nat.
Proof.
  rewrite Nat.add_comm, <- skipn_skipn.
  rewrite (occurrences_split j (skipn k l) x). lia.
Qed.


(** A world whose identifiers are among those of [w] and the next [m]
    drawn, each as often at most, keeps the invariant. *)
Lemma distinctIds_grow (w w' : Store.World) (m : nat) :
  snd w' = (snd w + m)%nat ->
  (forall x, (Session.occurrences (Session.ids w') x
              <= Session.occurrences (Session.ids w) x + Session.occurrences (Session.drawnFrom (snd w) m) x)%nat) ->
  Session.distinctIds w -> Session.distinctIds w'.
Proof.
  intros Hc Hocc [Hnd Hdr].
  assert (Hin : forall x, In x (Session.ids w') ->
                          In x (Session.ids w) \/ In x (Session.drawnFrom (snd w) m)).
  { intros x Hx. apply (count_occ_In string_dec) in Hx. specialize (Hocc x).
    unfold Session.occurrences in Hocc.
    destruct (in_dec string_dec x (Session.ids w)) as [H|H]; [left; exact H|].
    right. apply (count_occ_In string_dec).
    apply (count_occ_not_In string_dec) in H. lia. }
  split.
  - apply (NoDup_count_occ string_dec). intros x. specialize (Hocc x).
    pose proof (proj1 (NoDup_count_occ string_dec _) Hnd x) as H1.
    pose proof (occurrences_drawnFrom (snd w) m x) as H2.
    unfold Session.occurrences in *.
    destruct (in_dec string_dec x (Session.ids w)) as [Ho|Ho].
    + assert (~ In x (Session.drawnFrom (snd w) m)) as Hn.
      { intros Hn. unfold Session.drawnFrom in Hn. apply in_map_iff in Hn.
        destruct Hn as [j [Hj Hseq]]. apply in_seq in Hseq.
        unfold Session.drawn in Hdr. rewrite Forall_forall in Hdr.
        destruct (Hdr x Ho) as [k [Hk Hx]]. rewrite Hx in Hj. apply point_id_inj in Hj. lia. }
      apply (count_occ_not_In string_dec) in Hn. lia.
    + apply (count_occ_not_In string_dec) in Ho. lia.
  - unfold Session.drawn in *. rewrite Forall_forall in *. intros x Hx.
    destruct (Hin x Hx) as [H|H].
    + destruct (Hdr x H) as [k [Hk E]]. exists k. split; [lia | exact E].
    + unfold Session.drawnFrom in H. apply in_map_iff in H. destruct H as [j [Hj Hseq]].
      apply in_seq in Hseq. exists j. split; [lia | symmetry; exact Hj].
Qed.

Lemma distinctIds_same (w w' : Store.World) :
  snd w' = snd w -> Session.ids w' = Session.ids w -> Session.distinctIds w -> Session.distinctIds w'.
Proof.
  intros Hc Hi. apply (distinctIds_grow w w' 0); [lia|].
  intros x. rewrite Hi. lia.
Qed.

Lemma ids_update_map (f : Store.TrackPoint -> Store.TrackPoint) (l : list Store.TrackPoint) :
  (forall p, Store.id (f p) = Store.id p) -> map Store.id (map f l) = map Store.id l.
Proof.
  intros H. rewrite map_map. apply map_ext. exact H.
Qed.

Lemma ids_filter (i : string) (l : list Store.TrackPoint) :
  map Store.id (filter (fun p => negb (String.eqb (Store.id p) i)) l)
  = filter (fun j => negb (String.eqb j i)) (map Store.id l).
Proof.
  induction l as [|p l IH]; simpl; [reflexivity|].
  destruct (String.eqb (Store.id p) i); simpl; rewrite IH; reflexivity.
Qed.

(** The points the first listing lays out for a loop: twenty of them,
    with the next twenty identifiers. *)
Lemma shifting_loopPoints_run (pos d : Vector3.t) (c : nat) :
  snd (Store.Shifting.loopPoints pos d c) = (c + 20)%nat /\
  map Store.id (fst (Store.Shifting.loopPoints pos d c)) = Session.drawnFrom c 20 /\
  List.length (fst (Store.Shifting.loopPoints pos d c)) = 20%nat.
Proof.
  unfold Store.Shifting.loopPoints.
  set (f := fun i : nat => Store.newPoint (Store.Shifting.circlePoint pos d i)).
  set (l := seq 1 (Store.Shifting.numLoopPoints - 1)).
  assert (Hl : List.length l = 15%nat) by reflexivity.
  destruct (forEach_ids f l) with (c := S (S c)) as [Hid Hc].
  { intros a c0. unfold f. rewrite newPoint_run. split; reflexivity. }
  pose proof (forEach_length f l (S (S c))) as Hlen.
  repeat (rewrite bind_run; cbv beta; rewrite ?newPoint_run; cbn [fst snd]).
  rewrite Hc, Hl.
  repeat (rewrite bind_run; cbv beta; rewrite ?newPoint_run; cbn [fst snd]).
  unfold Store.ret. cbn [fst snd].

  split; [lia|]. split.
  - rewrite !map_app, Hid, Hl. cbn [map Store.id app].
    replace (S (S c) + 15)%nat with (c + 17)%nat by lia.
    unfold Session.drawnFrom.
    change 20%nat with (2 + (15 + 3))%nat.
    rewrite (seq_app 2 (15 + 3)), (seq_app 15 3), !map_app.
    cbn [seq map app].
    repeat (f_equal; try lia).
  - rewrite !length_app, Hlen, Hl. reflexivity.
Qed.

(** ** [findIndex] *)

Lemma findIndex_some {A : Type} (f : A -> bool) (l : list A) (k : nat) :
  Store.findIndex f l = Some k ->
  exists a, nth_error l k = Some a /\ f a = true /\
            forall j b, (j < k)%nat -> nth_error l j = Some b -> f b = false.
Proof.
  revert k. induction l as [|a l IH]; intros k H; [discriminate|].
  cbn [Store.findIndex] in H. destruct (f a) eqn:Fa.
  - injection H as <-. exists a. repeat split; auto. intros j b Hj. lia.
  - destruct (Store.findIndex f l) as [k'|] eqn:E; [|discriminate].
    injection H as <-. destruct (IH k' eq_refl) as [a' [Hn [Hf Hlt]]].
    exists a'. repeat split; auto.
    intros [|j] b Hj Hb.
    + injection Hb as <-. exact Fa.
    + apply (Hlt j b); [lia | exact Hb].
Qed.

Lemma findIndex_found {A : Type} (f : A -> bool) (l : list A) (a : A) :
  In a l -> f a = true -> exists k, Store.findIndex f l = Some k.
Proof.
  induction l as [|b l IH]; intros Hin Hf; [destruct Hin|].
  cbn [Store.findIndex]. destruct (f b) eqn:Fb; [exists 0%nat; reflexivity|].
  destruct Hin as [->|Hin]; [congruence|].
  destruct (IH Hin Hf) as [k Hk]. rewrite Hk. exists (S k). reflexivity.
Qed.

Lemma skipn_nth {A : Type} (l : list A) (k : nat) (a : A) :
  nth_error l k = Some a -> skipn k l = a :: skipn (k + 1) l.
Proof.
  revert k. induction l as [|b l IH]; intros [|k] H; try discriminate.
  - injection H as <-. reflexivity.
  - cbn [nth_error] in H. cbn [skipn Nat.add]. apply IH. exact H.
Qed.

(** ** The two listings of [createLoopAtPoint] on a point of the track *)

Lemma shifting_create_run (i : string) (state : Store.RollerCoasterState) (c k : nat)
    (basePoint : Store.TrackPoint) :
  Store.findIndex (fun p => String.eqb (Store.id p) i) (Store.trackPoints state) = Some k ->
  nth_error (Store.trackPoints state) k = Some basePoint ->
  let pos := Store.position basePoint in
  let direction := Store.Shifting.loopDirection (Store.trackPoints state) k pos in
  Store.Shifting.createLoopAtPoint i (state, c)
  = Store.Done
      (Store.set_trackPoints
         (firstn (k + 1) (Store.trackPoints state)
            ++ fst (Store.Shifting.loopPoints pos direction c)
            ++ map (Store.Shifting.shiftPoint direction)
                   (skipn (k + 1) (Store.trackPoints state)))
         state,
       snd (Store.Shifting.loopPoints pos direction c)).
Proof.
  intros Hf Hn pos direction. unfold Store.Shifting.createLoopAtPoint.
  rewrite Hf, Hn. fold pos. fold direction.
  destruct (Store.Shifting.loopPoints pos direction c) as [pts c']. reflexivity.
Qed.

Lemma drawnFrom_app (c a b : nat) :
  Session.drawnFrom c (a + b) = Session.drawnFrom c a ++ Session.drawnFrom (c + a) b.
Proof.
  unfold Session.drawnFrom. rewrite seq_app, map_app.
  replace (S c + a)%nat with (S (c + a)) by lia. reflexivity.
Qed.

Lemma shifting_create_distinct (i : string) (w : Store.World) :
  Session.distinctIds w ->
  Session.distinctIds (Session.settle (Store.Shifting.createLoopAtPoint i w)).
Proof.
  destruct w as [state c]. intros Hinv.
  destruct (Store.findIndex (fun p => String.eqb (Store.id p) i) (Store.trackPoints state))
    as [k|] eqn:Hf.
  - destruct (findIndex_some _ _ _ Hf) as [basePoint [Hn _]].
    rewrite (shifting_create_run i state c k basePoint Hf Hn). cbn [Session.settle].
    set (pos := Store.position basePoint).
    set (d := Store.Shifting.loopDirection (Store.trackPoints state) k pos).
    destruct (shifting_loopPoints_run pos d c) as [Hc [Hids _]].
    apply (distinctIds_grow (state, c) _ 20); [exact Hc| |exact Hinv].
    intros x. unfold Session.ids. cbn [fst snd Store.set_trackPoints Store.trackPoints].
    rewrite !map_app, Hids, !occurrences_app.
    rewrite (ids_update_map (Store.Shifting.shiftPoint d)) by reflexivity.
    rewrite <- firstn_map, <- skipn_map.
    rewrite (occurrences_split (k + 1) (map Store.id (Store.trackPoints state)) x). lia.
  - unfold Store.Shifting.createLoopAtPoint. rewrite Hf. exact Hinv.
Qed.

Lemma approachPoints_run (cfg : Scale.t) (pts : list Store.TrackPoint) (k : nat)
    (entryPos forward : Vector3.t) (c : nat) :
  let r := Store.Grafting.approachPoints cfg pts k entryPos forward c in
  snd r = (c + Session.approachCount pts k)%nat /\
  map Store.id (fst r) = Session.drawnFrom c (Session.approachCount pts k) /\
  List.length (fst r) = Session.approachCount pts k.
Proof.
  unfold Store.Grafting.approachPoints, Session.approachCount.
  destruct k as [|j].
  - cbn. repeat split. lia.
  - destruct (nth_error pts j) as [prevPoint|].
    + repeat (rewrite bind_run; cbv beta; rewrite ?newPoint_run; cbn [fst snd]).
      unfold Store.ret. cbn. repeat split. lia.
    + cbn. repeat split. lia.
Qed.

Lemma helixPoints_run (cfg : Scale.t) (entryPos forward up right : Vector3.t) (l : list nat)
    (c : nat) :
  let r := Store.forEach (Store.Grafting.helixPoint cfg entryPos forward up right) l c in
  snd r = (c + List.length l)%nat /\
  map Store.id (fst r) = Session.drawnFrom c (List.length l) /\
  List.length (fst r) = List.length l.
Proof.
  cbv zeta.
  destruct (forEach_ids (Store.Grafting.helixPoint cfg entryPos forward up right) l)
    with (c := c) as [Hid Hc].
  { intros a c0. split; reflexivity. }
  rewrite Hc, Hid, forEach_length. repeat split.
Qed.

Lemma transitionPoints_run (cfg : Scale.t) (pts : list Store.TrackPoint) (k : nat)
    (forward right loopExit : Vector3.t) (c : nat) :
  let r := Store.Grafting.transitionPoints cfg pts k forward right loopExit c in
  snd r = (c + Session.transitionCount pts k)%nat /\
  map Store.id (fst r) = Session.drawnFrom c (Session.transitionCount pts k) /\
  List.length (fst r) = Session.transitionCount pts k.
Proof.
  unfold Store.Grafting.transitionPoints, Session.transitionCount.
  rewrite bind_run; cbv beta; rewrite newPoint_run; cbn [fst snd].
  destruct (nth_error pts (k + 1)) as [targetPoint|].
  - rewrite bind_run; cbv beta; rewrite newPoint_run; cbn [fst snd].
    unfold Store.ret. cbn. repeat split. lia.
  - unfold Store.ret. cbn. repeat split. lia.
Qed.

Lemma last_some_nil {A : Type} (l : list A) : last (map Some l) None = None -> l = [].
Proof.
  induction l as [|a l IH]; [reflexivity|]. intros H.
  destruct l as [|b l]; [discriminate|].
  change (last (map Some (b :: l)) None = None) in H. specialize (IH H). discriminate.
Qed.

(** The second listing on the point at index [k]: with no loop points
    to lay out it raises on the missing last loop point, the store
    unchanged; else it grafts the loop in place of the next point. *)
Lemma grafting_create_run (cfg : Scale.t) (i : string) (state : Store.RollerCoasterState)
    (c k : nat) (entryPoint : Store.TrackPoint) :
  Store.findIndex (fun p => String.eqb (Store.id p) i) (Store.trackPoints state) = Some k ->
  nth_error (Store.trackPoints state) k = Some entryPoint ->
  let pts := Store.trackPoints state in
  let entryPos := Store.position entryPoint in
  let forward := Store.Grafting.loopForward pts k entryPos in
  let up := Vector3.mk 0 1 0 in
  let right := Vector3.normalize (Vector3.crossVectors forward up) in
  let approach := Store.Grafting.approachPoints cfg pts k entryPos forward c in
  let loopPts :=
    Store.forEach (Store.Grafting.helixPoint cfg entryPos forward up right)
      (seq 1 (Scale.LOOP_POINTS_COUNT cfg)) (snd approach) in
  match last (map Some (fst loopPts)) None with
  | None =>
      Scale.LOOP_POINTS_COUNT cfg = 0%nat /\
      Store.Grafting.createLoopAtPoint cfg i (state, c)
      = Store.TypeError (state, (c + Session.approachCount pts k)%nat)
  | Some lastLoopPoint =>
      let transition :=
        Store.Grafting.transitionPoints cfg pts k forward right
          (Store.position lastLoopPoint) (snd loopPts) in
      Store.Grafting.createLoopAtPoint cfg i (state, c)
      = Store.Done
          (Store.set_trackPoints
             (firstn k pts ++ fst approach ++ [entryPoint] ++ fst loopPts
                ++ fst transition ++ skipn (k + 1 + 1) pts)
             state,
           snd transition)
  end.
Proof.
  intros Hf Hn pts entryPos forward up right approach loopPts.
  unfold Store.Grafting.createLoopAtPoint. rewrite Hf, Hn.
  fold pts entryPos forward. fold up. fold right. fold approach.
  destruct approach as [ap c1] eqn:Ea. cbn [snd fst] in *.
  fold loopPts. destruct loopPts as [lp c2] eqn:El. cbn [snd fst] in *.
  destruct (last (map Some lp) None) as [lastLoopPoint|] eqn:Elast.
  - destruct (Store.Grafting.transitionPoints cfg pts k forward right
                (Store.position lastLoopPoint) c2) as [tr c3]. reflexivity.
  - apply last_some_nil in Elast. subst lp.
    pose proof (forEach_length (Store.Grafting.helixPoint cfg entryPos forward up right)
                  (seq 1 (Scale.LOOP_POINTS_COUNT cfg)) c1) as Hlen.
    fold loopPts in Hlen. rewrite El in Hlen. cbn [fst List.length] in Hlen.
    rewrite length_seq in Hlen.
    destruct (helixPoints_run cfg entryPos forward up right
                (seq 1 (Scale.LOOP_POINTS_COUNT cfg)) c1) as [Hc _].
    fold loopPts in Hc. rewrite El in Hc. cbn [snd] in Hc. rewrite length_seq in Hc.
    destruct (approachPoints_run cfg pts k entryPos forward c) as [Hc1 _].
    fold approach in Hc1. rewrite Ea in Hc1. cbn [snd] in Hc1.
    split; [lia|]. f_equal. f_equal. lia.
Qed.

Lemma grafting_create_distinct (cfg : Scale.t) (i : string) (w : Store.World) :
  Session.distinctIds w ->
  Session.distinctIds (Session.settle (Store.Grafting.createLoopAtPoint cfg i w)).
Proof.
  destruct w as [state c]. intros Hinv.
  destruct (Store.findIndex (fun p => String.eqb (Store.id p) i) (Store.trackPoints state))
    as [k|] eqn:Hf.
  - destruct (findIndex_some _ _ _ Hf) as [entryPoint [Hn _]].
    pose proof (grafting_create_run cfg i state c k entryPoint Hf Hn) as Hrun.
    cbv zeta in Hrun.
    set (pts := Store.trackPoints state) in *.
    set (entryPos := Store.position entryPoint) in *.
    set (forward := Store.Grafting.loopForward pts k entryPos) in *.
    set (up := Vector3.mk 0 1 0) in *.
    set (right := Vector3.normalize (Vector3.crossVectors forward up)) in *.
    destruct (approachPoints_run cfg pts k entryPos forward c) as [Hc1 [Hi1 _]].
    set (approach := Store.Grafting.approachPoints cfg pts k entryPos forward c) in *.
    destruct (helixPoints_run cfg entryPos forward up right
                (seq 1 (Scale.LOOP_POINTS_COUNT cfg)) (snd approach)) as [Hc2 [Hi2 _]].
    set (loopPts := Store.forEach (Store.Grafting.helixPoint cfg entryPos forward up right)
                      (seq 1 (Scale.LOOP_POINTS_COUNT cfg)) (snd approach)) in *.
    rewrite length_seq in Hc2, Hi2.
    destruct (last (map Some (fst loopPts)) None) as [lastLoopPoint|].
    + rewrite Hrun. cbn [Session.settle].
      destruct (transitionPoints_run cfg pts k forward right
                  (Store.position lastLoopPoint) (snd loopPts)) as [Hc3 [Hi3 _]].
      set (transition := Store.Grafting.transitionPoints cfg pts k forward right
                           (Store.position lastLoopPoint) (snd loopPts)) in *.
      set (m := (Session.approachCount pts k + (Scale.LOOP_POINTS_COUNT cfg
                                         + Session.transitionCount pts k))%nat).
      apply (distinctIds_grow (state, c) _ m); [cbn [snd]; lia| |exact Hinv].
      intros x. unfold Session.ids. cbn [fst snd Store.set_trackPoints Store.trackPoints].
      fold pts. unfold m. rewrite !drawnFrom_app.
      rewrite !map_app, Hi1, Hi2, Hi3, !occurrences_app.
      rewrite Hc2, Hc1.
      replace (c + Session.approachCount pts k + Scale.LOOP_POINTS_COUNT cfg)%nat
        with (c + Session.approachCount pts k + Scale.LOOP_POINTS_COUNT cfg)%nat by lia.
      rewrite <- firstn_map, <- skipn_map.
      rewrite (occurrences_split k (map Store.id pts) x).
      assert (Hh : nth_error (map Store.id pts) k = Some (Store.id entryPoint))
        by (rewrite nth_error_map; fold pts in Hn; rewrite Hn; reflexivity).
      rewrite (skipn_nth _ _ _ Hh).
      change (Store.id entryPoint :: skipn (k + 1) (map Store.id pts))
        with ([Store.id entryPoint] ++ skipn (k + 1) (map Store.id pts)).
      rewrite occurrences_app.
      pose proof (occurrences_skipn (k + 1) 1 (map Store.id pts) x) as Hs.
      cbn [map]. lia.
    + destruct Hrun as [_ Hrun]. rewrite Hrun. cbn [Session.settle].
      apply (distinctIds_grow (state, c) _ (Session.approachCount pts k)); [reflexivity| |exact Hinv].
      intros x. cbn [fst snd]. unfold Session.ids. cbn [fst]. lia.
  - unfold Store.Grafting.createLoopAtPoint. rewrite Hf. exact Hinv.
Qed.

Lemma perform_distinct (createLoopAtPoint : string -> Store.World -> Store.outcome)
    (a : Session.action) (w : Store.World) :
  (forall i w, Session.distinctIds w ->
               Session.distinctIds (Session.settle (createLoopAtPoint i w))) ->
  Session.distinctIds w -> Session.distinctIds (Session.perform createLoopAtPoint a w).
Proof.
  intros Hloop Hinv.
  destruct a; cbn [Session.perform];
    try (apply (distinctIds_same w); [| |exact Hinv]; destruct w as [s c]; reflexivity).
  - (* addTrackPoint *)
    destruct w as [s c]. unfold Store.addTrackPoint. rewrite newPoint_run.
    apply (distinctIds_grow (s, c) _ 1); [cbn; lia| |exact Hinv].
    intros x. unfold Session.ids. cbn [fst snd Store.set_trackPoints Store.trackPoints].
    rewrite map_app, occurrences_app. cbn [map Store.id]. unfold Session.drawnFrom.
    cbn [seq map]. lia.
  - (* updateTrackPoint *)
    destruct w as [s c]. apply (distinctIds_same (s, c)); [reflexivity| |exact Hinv].
    unfold Session.ids, Store.updateTrackPoint.
    cbn [fst Store.set_trackPoints Store.trackPoints].
    apply ids_update_map. intros p. destruct (String.eqb (Store.id p) i); reflexivity.
  - (* updateTrackPointTilt *)
    destruct w as [s c]. apply (distinctIds_same (s, c)); [reflexivity| |exact Hinv].
    unfold Session.ids, Store.updateTrackPointTilt.
    cbn [fst Store.set_trackPoints Store.trackPoints].
    apply ids_update_map. intros p. destruct (String.eqb (Store.id p) i); reflexivity.
  - (* removeTrackPoint *)
    destruct w as [s c]. apply (distinctIds_grow (s, c) _ 0); [cbn; lia| |exact Hinv].
    intros x. unfold Session.ids, Store.removeTrackPoint.
    cbn [fst snd Store.set_trackPoints Store.set_selectedPointId Store.trackPoints].
    rewrite ids_filter.
    pose proof (occurrences_filter (fun j => negb (String.eqb j i))
                  (map Store.id (Store.trackPoints s)) x). lia.
  - (* createLoopAtPoint *)
    apply Hloop. exact Hinv.
  - (* clearTrack *)
    destruct w as [s c]. apply (distinctIds_grow (s, c) _ 0); [cbn; lia| |exact Hinv].
    intros x. unfold Session.ids. cbn. lia.
  - (* startRide *)
    destruct w as [s c]. apply (distinctIds_same (s, c)); [| |exact Hinv];
      unfold Store.startRide; destruct (2 <=? _)%nat; reflexivity.
Qed.

Lemma run_distinct (createLoopAtPoint : string -> Store.World -> Store.outcome)
    (l : list Session.action) (w : Store.World) :
  (forall i w, Session.distinctIds w ->
               Session.distinctIds (Session.settle (createLoopAtPoint i w))) ->
  Session.distinctIds w -> Session.distinctIds (Session.run createLoopAtPoint l w).
Proof.
  intros Hloop. unfold Session.run. revert w.
  induction l as [|a l IH]; intros w Hinv; [exact Hinv|].
  cbn [fold_left]. apply IH. apply perform_distinct; assumption.
Qed.

Lemma distinctIds_initial : Session.distinctIds Store.initialWorld.
Proof. split; [constructor | constructor]. Qed.

(** X1.  In every state the store reaches from its initial state,
    whatever sequence of actions is called on it and with either
    listing of [createLoopAtPoint], no two track points have the same
    identifier, and every identifier is [point-k] for a [k] between 1
    and the current value of the counter. *)
Theorem track_point_ids_distinct (cfg : Scale.t) (l : list Session.action) :
  Session.distinctIds (Session.run Store.Shifting.createLoopAtPoint l Store.initialWorld) /\
  Session.distinctIds
    (Session.run (Store.Grafting.createLoopAtPoint cfg) l Store.initialWorld).
Proof.
  split; apply run_distinct; try exact distinctIds_initial.
  - apply shifting_create_distinct.
  - apply grafting_create_distinct.
Qed.

(** ** The direction of a loop *)

(** A horizontal vector that is not short normalises to a horizontal
    unit vector; [ex] stands in for a short one. *)
Lemma unit_or_ex (v : Vector3.t) :
  Vector3.y v = 0 ->
  let d := if JsNum.ltb (Vector3.length v) 0.1 then Vector3.mk 1 0 0 else Vector3.normalize v in
  Vector3.length d = 1 /\ Vector3.y d = 0.
Proof.
  intros Hy d. unfold d. destruct (JsNum.ltb (Vector3.length v) 0.1) eqn:E.
  - split; [apply length_ex | reflexivity].
  - apply ltb_false in E. split.
    + apply normalize_length. lra.
    + unfold Vector3.normalize, Vector3.divideScalar, Vector3.multiplyScalar.
      cbn [Vector3.y]. rewrite Hy. ring.
Qed.

Lemma shifting_direction (pts : list Store.TrackPoint) (k : nat) (pos : Vector3.t) :
  Vector3.length (Store.Shifting.loopDirection pts k pos) = 1 /\
  Vector3.y (Store.Shifting.loopDirection pts k pos) = 0.
Proof.
  unfold Store.Shifting.loopDirection. destruct k as [|j].
  - split; [apply length_ex | reflexivity].
  - destruct (nth_error pts j) as [prevPoint|].
    + apply unit_or_ex. reflexivity.
    + split; [apply length_ex | reflexivity].
Qed.

Lemma grafting_forward (pts : list Store.TrackPoint) (k : nat) (entryPos : Vector3.t) :
  Vector3.length (Store.Grafting.loopForward pts k entryPos) = 1 /\
  Vector3.y (Store.Grafting.loopForward pts k entryPos) = 0.
Proof.
  unfold Store.Grafting.loopForward. destruct k as [|j].
  - split; [apply length_ex | reflexivity].
  - destruct (nth_error pts j) as [prevPoint|].
    + set (v := Vector3.set_y (Vector3.sub entryPos (Store.position prevPoint)) 0).
      destruct (unit_or_ex v eq_refl) as [H1 H2].
      destruct (JsNum.ltb (Vector3.length v) 0.1) eqn:E.
      * rewrite normalize_unit by apply length_ex. split; [apply length_ex | reflexivity].
      * split; assumption.
    + split; [apply length_ex | reflexivity].
Qed.

Lemma horizontal_unit (d : Vector3.t) :
  Vector3.length d = 1 -> Vector3.y d = 0 ->
  Vector3.x d * Vector3.x d + Vector3.z d * Vector3.z d = 1.
Proof.
  intros H1 Hy. apply length_one_iff in H1. unfold Vector3.lengthSq in H1.
  rewrite Hy in H1. lra.
Qed.


Lemma forEach_Forall {A B : Type} (P : B -> Prop) (f : A -> Store.Gen B) (l : list A) :
  (forall a c, P (fst (f a c))) -> forall c, Forall P (fst (Store.forEach f l c)).
Proof.
  intros Hf. induction l as [|a l IH]; intros c.
  - constructor.
  - rewrite forEach_cons. cbn [fst]. constructor; [apply Hf | apply IH].
Qed.

Lemma in_ids_found (i : string) (pts : list Store.TrackPoint) :
  In i (map Store.id pts) ->
  exists k basePoint,
    Store.findIndex (fun p => String.eqb (Store.id p) i) pts = Some k /\
    nth_error pts k = Some basePoint /\ Store.id basePoint = i /\
    (forall j q, (j < k)%nat -> nth_error pts j = Some q -> Store.id q <> i).
Proof.
  intros Hin. apply in_map_iff in Hin. destruct Hin as [p [Hp Hin]].
  destruct (findIndex_found (fun p => String.eqb (Store.id p) i) pts p Hin) as [k Hk].
  { apply String.eqb_eq. exact Hp. }
  destruct (findIndex_some _ _ _ Hk) as [basePoint [Hn [Hb Hlt]]].
  exists k, basePoint. repeat split; auto.
  - apply String.eqb_eq. exact Hb.
  - intros j q Hj Hq E. specialize (Hlt j q Hj Hq). apply String.eqb_neq in Hlt. auto.
Qed.

Lemma shifting_loopPoints_plain (pos d : Vector3.t) (c : nat) :
  Forall (fun p => Store.tilt p = 0 /\ Store.loopMeta p = None)
         (fst (Store.Shifting.loopPoints pos d c)).
Proof.
  unfold Store.Shifting.loopPoints.
  repeat (rewrite bind_run; cbv beta; rewrite ?newPoint_run; cbn [fst snd]).
  unfold Store.ret. cbn [fst].
  repeat first [apply Forall_app; split | apply Forall_cons | apply Forall_nil
               | split; reflexivity].

Qed.

(** X2.  The first listing of [createLoopAtPoint], called with the
    identifier of a track point, never raises.  It keeps the points up
    to and including the first point with that identifier, lays out
    twenty new plain points after it, carrying the next twenty
    identifiers, and appends the points that followed, each moved by
    [shiftPoint]; the counter advances by twenty and nothing else in
    the store changes. *)
Theorem shifting_loop_layout (i : string) (w : Store.World) :
  In i (Session.ids w) ->
  exists k basePoint loopPts,
    nth_error (Store.trackPoints (fst w)) k = Some basePoint /\
    Store.id basePoint = i /\
    (forall j q, (j < k)%nat -> nth_error (Store.trackPoints (fst w)) j = Some q ->
                 Store.id q <> i) /\
    List.length loopPts = 20%nat /\
    map Store.id loopPts = Session.drawnFrom (snd w) 20 /\
    Forall (fun p => Store.tilt p = 0 /\ Store.loopMeta p = None) loopPts /\
    let direction :=
      Store.Shifting.loopDirection (Store.trackPoints (fst w)) k (Store.position basePoint) in
    Store.Shifting.createLoopAtPoint i w
    = Store.Done
        (Store.set_trackPoints
           (firstn (k + 1) (Store.trackPoints (fst w)) ++ loopPts
              ++ map (Store.Shifting.shiftPoint direction)
                     (skipn (k + 1) (Store.trackPoints (fst w))))
           (fst w),
         (snd w + 20)%nat) /\
    List.length
      (Store.trackPoints (fst (Session.settle (Store.Shifting.createLoopAtPoint i w))))
    = (List.length (Store.trackPoints (fst w)) + 20)%nat.
Proof.
  destruct w as [state c]. unfold Session.ids. cbn [fst snd]. intros Hin.
  destruct (in_ids_found i _ Hin) as [k [basePoint [Hf [Hn [Hid Hfirst]]]]].
  set (pos := Store.position basePoint).
  set (d := Store.Shifting.loopDirection (Store.trackPoints state) k pos).
  destruct (shifting_loopPoints_run pos d c) as [Hc [Hids Hlen]].
  exists k, basePoint, (fst (Store.Shifting.loopPoints pos d c)).
  repeat split; auto.
  - apply shifting_loopPoints_plain.
  - cbv zeta. fold pos. fold d. rewrite <- Hc.
    apply (shifting_create_run i state c k basePoint Hf Hn).
  - rewrite (shifting_create_run i state c k basePoint Hf Hn).
    cbn [Session.settle fst Store.set_trackPoints Store.trackPoints].
    fold pos. fold d. rewrite !length_app, length_map, Hlen.
    rewrite <- (firstn_skipn (k + 1) (Store.trackPoints state)) at 3.
    rewrite length_app. lia.
Qed.

Lemma shifting_loop_layout_witness :
  exists k basePoint loopPts,
    nth_error (Store.trackPoints (fst lineWorld)) k = Some basePoint /\
    Store.id basePoint = "point-1"%string /\
    (forall j q, (j < k)%nat -> nth_error (Store.trackPoints (fst lineWorld)) j = Some q ->
                 Store.id q <> "point-1"%string) /\
    List.length loopPts = 20%nat /\
    map Store.id loopPts = Session.drawnFrom (snd lineWorld) 20 /\
    Forall (fun p => Store.tilt p = 0 /\ Store.loopMeta p = None) loopPts /\
    let direction :=
      Store.Shifting.loopDirection (Store.trackPoints (fst lineWorld)) k
        (Store.position basePoint) in
    Store.Shifting.createLoopAtPoint "point-1" lineWorld
    = Store.Done
        (Store.set_trackPoints
           (firstn (k + 1) (Store.trackPoints (fst lineWorld)) ++ loopPts
              ++ map (Store.Shifting.shiftPoint direction)
                     (skipn (k + 1) (Store.trackPoints (fst lineWorld))))
           (fst lineWorld),
         (snd lineWorld + 20)%nat) /\
    List.length
      (Store.trackPoints
         (fst (Session.settle (Store.Shifting.createLoopAtPoint "point-1" lineWorld))))
    = (List.length (Store.trackPoints (fst lineWorld)) + 20)%nat.
Proof.
  apply (shifting_loop_layout "point-1" lineWorld).
  left. reflexivity.
Defined.

(** X3.  The direction the first listing gives a loop is a horizontal
    unit vector, whatever the track.  The points after the loop keep
    their identifier, tilt and height and move 33 units along that
    direction, the forward extent of the loop, and the last of the
    twenty new points is the entry position moved the same way: the
    track after the loop is attached as it was. *)
Theorem shifting_loop_moves_rest (pts : list Store.TrackPoint) (k : nat) (pos : Vector3.t)
    (p : Store.TrackPoint) (c : nat) :
  let direction := Store.Shifting.loopDirection pts k pos in
  let shift := Vector3.multiplyScalar direction Store.Shifting.totalLoopLength in
  Vector3.length direction = 1 /\
  Vector3.y direction = 0 /\
  Store.Shifting.totalLoopLength = 33 /\
  Store.id (Store.Shifting.shiftPoint direction p) = Store.id p /\
  Store.tilt (Store.Shifting.shiftPoint direction p) = Store.tilt p /\
  Store.loopMeta (Store.Shifting.shiftPoint direction p) = Store.loopMeta p /\
  Store.position (Store.Shifting.shiftPoint direction p) = Vector3.add (Store.position p) shift /\
  Vector3.y (Store.position (Store.Shifting.shiftPoint direction p))
  = Vector3.y (Store.position p) /\
  Vector3.distanceTo (Store.position p) (Store.position (Store.Shifting.shiftPoint direction p))
  = 33 /\
  nth_error (fst (Store.Shifting.loopPoints pos direction c)) 19
  = Some (Store.mkTrackPoint (Store.point_id (c + 20)) (Vector3.add pos shift) 0 None).
Proof.
  intros direction shift.
  destruct (shifting_direction pts k pos) as [Hlen Hy]. fold direction in Hlen, Hy.
  pose proof (horizontal_unit direction Hlen Hy) as Hxz.
  assert (Htot : Store.Shifting.totalLoopLength = 33).
  { unfold Store.Shifting.totalLoopLength, Store.Shifting.leadInDist,
      Store.Shifting.loopRadius, Store.Shifting.leadOutDist. lra. }
  repeat split; auto.
  - unfold Store.Shifting.shiftPoint, shift, Vector3.add, Vector3.multiplyScalar.
    cbn [Store.position Vector3.x Vector3.y Vector3.z]. rewrite Hy. f_equal. ring.
  - unfold Vector3.distanceTo, Store.Shifting.shiftPoint, Vector3.sub.
    cbn [Store.position Vector3.x Vector3.y Vector3.z]. rewrite Htot.
    apply length_mk; [lra|]. nra.
  - unfold Store.Shifting.loopPoints.
    repeat (rewrite bind_run; cbv beta; rewrite ?newPoint_run; cbn [fst snd]).
    set (f := fun i : nat => Store.newPoint (Store.Shifting.circlePoint pos direction i)).
    set (l := seq 1 (Store.Shifting.numLoopPoints - 1)).
    destruct (forEach_ids f l) with (c := S (S c)) as [_ Hc].
    { intros a c0. unfold f. rewrite newPoint_run. split; reflexivity. }
    pose proof (forEach_length f l (S (S c))) as Hl.
    change (List.length l) with 15%nat in Hc, Hl.
    unfold Store.ret. cbn [fst]. rewrite Hc.
    rewrite nth_error_app2 by (cbn [List.length]; lia).
    rewrite nth_error_app2 by (rewrite Hl; cbn [List.length]; lia).
    rewrite Hl. cbn [List.length Nat.sub nth_error]. f_equal. f_equal.
    + f_equal. lia.
    + unfold Store.Shifting.ahead, shift, Vector3.add, Vector3.multiplyScalar.
      cbn [Vector3.x Vector3.y Vector3.z]. rewrite Hy. f_equal; ring.
Qed.

(** X4.  The fifteen points the first listing lays out between the
    lead-in and the lead-out lie on the circle of radius 10 whose
    centre is 15 units ahead of and 10 above the entry position: none
    lies below the entry height nor more than 20 above it, and the
    eighth is the top of the loop. *)
Theorem shifting_loop_circle (pts : list Store.TrackPoint) (k : nat) (pos : Vector3.t)
    (c : nat) :
  let direction := Store.Shifting.loopDirection pts k pos in
  let centre := Store.Shifting.ahead pos direction 15 10 in
  (forall i, Vector3.distanceTo (Store.Shifting.circlePoint pos direction i) centre = 10 /\
             Vector3.y pos <= Vector3.y (Store.Shifting.circlePoint pos direction i)
               <= Vector3.y pos + 20) /\
  Store.Shifting.circlePoint pos direction 8 = Store.Shifting.ahead pos direction 15 20 /\
  (forall i, (1 <= i <= 15)%nat ->
     nth_error (fst (Store.Shifting.loopPoints pos direction c)) (i + 1)
     = Some (Store.mkTrackPoint (Store.point_id (c + 2 + i))
               (Store.Shifting.circlePoint pos direction i) 0 None)).
Proof.
  intros direction centre.
  destruct (shifting_direction pts k pos) as [Hlen Hy]. fold direction in Hlen, Hy.
  pose proof (horizontal_unit direction Hlen Hy) as Hxz.
  split; [|split].
  - intros i. unfold Store.Shifting.circlePoint, centre, Store.Shifting.ahead.
    unfold Store.Shifting.leadInDist, Store.Shifting.loopRadius, Store.Shifting.numLoopPoints.
    set (angle := - PI / 2 + INR i / INR 16 * PI * 2).
    pose proof (sin2_cos2 angle) as Hsc. unfold Rsqr in Hsc.
    pose proof (SIN_bound angle) as Hs.
    split.
    + unfold Vector3.distanceTo, Vector3.sub. cbn [Vector3.x Vector3.y Vector3.z].
      apply length_mk; [lra|]. nra.
    + cbn [Vector3.y]. lra.
  - unfold Store.Shifting.circlePoint, Store.Shifting.ahead.
    unfold Store.Shifting.leadInDist, Store.Shifting.loopRadius, Store.Shifting.numLoopPoints.
    replace (- PI / 2 + INR 8 / INR 16 * PI * 2) with (PI / 2) by (simpl INR; field).
    rewrite cos_PI2, sin_PI2. f_equal; ring.
  - intros i Hi. unfold Store.Shifting.loopPoints.
    repeat (rewrite bind_run; cbv beta; rewrite ?newPoint_run; cbn [fst snd]).
    set (f := fun i : nat => Store.newPoint (Store.Shifting.circlePoint pos direction i)).
    set (l := seq 1 (Store.Shifting.numLoopPoints - 1)).
    pose proof (forEach_length f l (S (S c))) as Hl.
    change (List.length l) with 15%nat in Hl.
    unfold Store.ret. cbn [fst].
    replace (i + 1)%nat with (S (S (i - 1))) by lia. cbn [app nth_error].
    rewrite nth_error_app1 by lia.
    rewrite (forEach_nth f l) with (a := i).
    + unfold f. rewrite newPoint_run. cbn [fst]. f_equal. f_equal. f_equal. lia.
    + intros a c0. reflexivity.
    + unfold l. rewrite nth_error_seq.
      change (Store.Shifting.numLoopPoints - 1)%nat with 15%nat.
      destruct (Nat.ltb_spec (i - 1) 15); [f_equal; lia | lia].
Qed.

(** ** The second listing: the grafted helical loop *)

Lemma helixPoint_run (cfg : Scale.t) (entryPos forward up right : Vector3.t) (i c : nat) :
  Store.Grafting.helixPoint cfg entryPos forward up right i c
  = (Store.mkTrackPoint (Store.point_id (S c))
       (Vector3.mk
          (Vector3.x entryPos
             + Vector3.x forward
               * (sin (INR i / INR (Scale.LOOP_POINTS_COUNT cfg) * PI * 2)
                  * Scale.LOOP_RADIUS cfg)
             + Vector3.x right
               * (INR i / INR (Scale.LOOP_POINTS_COUNT cfg) * Scale.HELIX_SEPARATION cfg))
          (Vector3.y entryPos
             + (1 - cos (INR i / INR (Scale.LOOP_POINTS_COUNT cfg) * PI * 2))
               * Scale.LOOP_RADIUS cfg)
          (Vector3.z entryPos
             + Vector3.z forward
               * (sin (INR i / INR (Scale.LOOP_POINTS_COUNT cfg) * PI * 2)
                  * Scale.LOOP_RADIUS cfg)
             + Vector3.z right
               * (INR i / INR (Scale.LOOP_POINTS_COUNT cfg) * Scale.HELIX_SEPARATION cfg)))
       0
       (Some (Store.mkLoopMetadata entryPos forward up right (Scale.LOOP_RADIUS cfg)
                (INR i / INR (Scale.LOOP_POINTS_COUNT cfg) * PI * 2))),
     S c).
Proof. reflexivity. Qed.

Lemma helix_nth (cfg : Scale.t) (entryPos forward up right : Vector3.t) (c j : nat)
    (p : Store.TrackPoint) :
  nth_error
    (fst (Store.forEach (Store.Grafting.helixPoint cfg entryPos forward up right)
            (seq 1 (Scale.LOOP_POINTS_COUNT cfg)) c)) j = Some p ->
  (j < Scale.LOOP_POINTS_COUNT cfg)%nat /\
  p = fst (Store.Grafting.helixPoint cfg entryPos forward up right (j + 1)%nat (c + j)%nat).
Proof.
  intros H.
  assert (Hj : (j < Scale.LOOP_POINTS_COUNT cfg)%nat).
  { assert (Hs : nth_error
                   (fst (Store.forEach
                           (Store.Grafting.helixPoint cfg entryPos forward up right)
                           (seq 1 (Scale.LOOP_POINTS_COUNT cfg)) c)) j <> None)
      by (rewrite H; discriminate).
    apply nth_error_Some in Hs. rewrite forEach_length, length_seq in Hs. exact Hs. }
  split; [exact Hj|].
  rewrite (forEach_nth (Store.Grafting.helixPoint cfg entryPos forward up right)
             (seq 1 (Scale.LOOP_POINTS_COUNT cfg)) (fun a c0 => eq_refl) c j (j + 1)%nat) in H.
  - injection H as <-. reflexivity.
  - rewrite nth_error_seq. destruct (Nat.ltb_spec j (Scale.LOOP_POINTS_COUNT cfg));
      [f_equal; lia | lia].
Qed.

(** X5.  The frame the second listing gives a loop is orthonormal:
    its forward vector is a horizontal unit vector whatever the track,
    its up vector is world up, and its right vector, the normalised
    cross product of the two, is the horizontal unit vector
    [(- forward.z, 0, forward.x)], at a right angle to both.  Every
    point of the loop carries this frame in its [loopMeta], with the
    configured radius and the angle [2 pi i / n] of the point. *)
Theorem grafting_loop_frame (cfg : Scale.t) (pts : list Store.TrackPoint) (k : nat)
    (entryPos : Vector3.t) (c : nat) :
  let forward := Store.Grafting.loopForward pts k entryPos in
  let up := Vector3.mk 0 1 0 in
  let right := Vector3.normalize (Vector3.crossVectors forward up) in
  let loopPts :=
    fst (Store.forEach (Store.Grafting.helixPoint cfg entryPos forward up right)
           (seq 1 (Scale.LOOP_POINTS_COUNT cfg)) c) in
  Vector3.length forward = 1 /\ Vector3.y forward = 0 /\
  right = Vector3.mk (- Vector3.z forward) 0 (Vector3.x forward) /\
  Vector3.length right = 1 /\
  Vector3.dot forward up = 0 /\ Vector3.dot forward right = 0 /\ Vector3.dot up right = 0 /\
  List.length loopPts = Scale.LOOP_POINTS_COUNT cfg /\
  (forall j p, nth_error loopPts j = Some p ->
     Store.loopMeta p
     = Some (Store.mkLoopMetadata entryPos forward up right (Scale.LOOP_RADIUS cfg)
               (INR (j + 1) / INR (Scale.LOOP_POINTS_COUNT cfg) * PI * 2)) /\
     Store.tilt p = 0).
Proof.
  intros forward up right loopPts.
  destruct (grafting_forward pts k entryPos) as [Hlen Hy]. fold forward in Hlen, Hy.
  pose proof (horizontal_unit forward Hlen Hy) as Hxz.
  assert (Hcross : Vector3.crossVectors forward up
                   = Vector3.mk (- Vector3.z forward) 0 (Vector3.x forward)).
  { unfold Vector3.crossVectors, up. cbn [Vector3.x Vector3.y Vector3.z].
    rewrite Hy. f_equal; ring. }
  assert (Hr : right = Vector3.mk (- Vector3.z forward) 0 (Vector3.x forward)).
  { unfold right. rewrite Hcross. apply normalize_unit.
    apply length_mk; [lra|]. lra. }
  repeat split; auto.
  - rewrite Hr. apply length_mk; [lra|]. lra.
  - unfold Vector3.dot, up. cbn [Vector3.x Vector3.y Vector3.z]. rewrite Hy. ring.
  - rewrite Hr. unfold Vector3.dot. cbn [Vector3.x Vector3.y Vector3.z]. rewrite Hy. ring.
  - rewrite Hr. unfold Vector3.dot, up. cbn [Vector3.x Vector3.y Vector3.z]. ring.
  - unfold loopPts. rewrite forEach_length, length_seq. reflexivity.
  - apply helix_nth in H. destruct H as [_ ->]. rewrite helixPoint_run. reflexivity.
  - apply helix_nth in H. destruct H as [_ ->]. rewrite helixPoint_run. reflexivity.
Qed.


Lemma nth_error_Some_lt {A : Type} (l : list A) (k : nat) (a : A) :
  nth_error l k = Some a -> (k < List.length l)%nat.
Proof. intros H. apply nth_error_Some. rewrite H. discriminate. Qed.

Lemma transitionCount_cases (pts : list Store.TrackPoint) (k : nat) :
  (k < List.length pts)%nat ->
  (Session.transitionCount pts k + List.length (skipn (k + 1 + 1) pts)
   = List.length pts - k)%nat.
Proof.
  intros Hk. unfold Session.transitionCount. rewrite length_skipn.
  destruct (nth_error pts (k + 1)) as [q|] eqn:E.
  - apply nth_error_Some_lt in E. lia.
  - apply nth_error_None in E. lia.
Qed.

(** X6.  The second listing of [createLoopAtPoint], called with the
    identifier of a track point.  With no loop points configured it
    raises on the missing last loop point, the store as it was.  With
    at least one it returns: the points before the entry point stay,
    then come the approach points (two, none when the entry point is
    the first point), the entry point itself, the loop points and the
    transition points (the exit anchor, and a blend point when a point
    follows the entry point), and the track resumes after the point
    that followed the entry point, which is dropped.  The new points
    carry the next identifiers in this order, and the track has
    [LOOP_POINTS_COUNT + 1] points more, besides the approach
    points. *)
Theorem grafting_loop_layout (cfg : Scale.t) (i : string) (w : Store.World) :
  In i (Session.ids w) ->
  exists k entryPoint,
    let pts := Store.trackPoints (fst w) in
    let n := Scale.LOOP_POINTS_COUNT cfg in
    nth_error pts k = Some entryPoint /\
    Store.id entryPoint = i /\
    (forall j q, (j < k)%nat -> nth_error pts j = Some q -> Store.id q <> i) /\
    (n = 0%nat ->
     Store.Grafting.createLoopAtPoint cfg i w
     = Store.TypeError (fst w, (snd w + Session.approachCount pts k)%nat)) /\
    ((0 < n)%nat ->
     exists approach loopPts transition,
       List.length approach = Session.approachCount pts k /\
       List.length loopPts = n /\
       List.length transition = Session.transitionCount pts k /\
       map Store.id (approach ++ loopPts ++ transition)
       = Session.drawnFrom (snd w)
           (Session.approachCount pts k + (n + Session.transitionCount pts k)) /\
       Store.Grafting.createLoopAtPoint cfg i w
       = Store.Done
           (Store.set_trackPoints
              (firstn k pts ++ approach ++ [entryPoint] ++ loopPts ++ transition
                 ++ skipn (k + 1 + 1) pts)
              (fst w),
            (snd w + (Session.approachCount pts k + (n + Session.transitionCount pts k)))%nat) /\
       List.length
         (Store.trackPoints (fst (Session.settle (Store.Grafting.createLoopAtPoint cfg i w))))
       = (List.length pts + Session.approachCount pts k + n + 1)%nat).
Proof.
  destruct w as [state c]. unfold Session.ids. cbn [fst snd]. intros Hin.
  destruct (in_ids_found i _ Hin) as [k [entryPoint [Hf [Hn [Hid Hfirst]]]]].
  exists k, entryPoint. cbv zeta.
  pose proof (grafting_create_run cfg i state c k entryPoint Hf Hn) as Hrun.
  cbv zeta in Hrun.
  set (pts := Store.trackPoints state) in *.
  set (entryPos := Store.position entryPoint) in *.
  set (forward := Store.Grafting.loopForward pts k entryPos) in *.
  set (up := Vector3.mk 0 1 0) in *.
  set (right := Vector3.normalize (Vector3.crossVectors forward up)) in *.
  destruct (approachPoints_run cfg pts k entryPos forward c) as [Hc1 [Hi1 Hl1]].
  set (approach := Store.Grafting.approachPoints cfg pts k entryPos forward c) in *.
  destruct (helixPoints_run cfg entryPos forward up right
              (seq 1 (Scale.LOOP_POINTS_COUNT cfg)) (snd approach)) as [Hc2 [Hi2 Hl2]].
  set (loopPts := Store.forEach (Store.Grafting.helixPoint cfg entryPos forward up right)
                    (seq 1 (Scale.LOOP_POINTS_COUNT cfg)) (snd approach)) in *.
  rewrite length_seq in Hc2, Hi2, Hl2.
  repeat split; auto.
  - intros Hz. destruct (last (map Some (fst loopPts)) None) as [lastLoopPoint|] eqn:El.
    + exfalso. rewrite Hz in Hl2. destruct (fst loopPts); [discriminate El | discriminate Hl2].
    + apply Hrun.
  - intros Hpos. destruct (last (map Some (fst loopPts)) None) as [lastLoopPoint|] eqn:El.
    + destruct (transitionPoints_run cfg pts k forward right
                  (Store.position lastLoopPoint) (snd loopPts)) as [Hc3 [Hi3 Hl3]].
      set (transition := Store.Grafting.transitionPoints cfg pts k forward right
                           (Store.position lastLoopPoint) (snd loopPts)) in *.
      exists (fst approach), (fst loopPts), (fst transition).
      repeat split; auto.
      * rewrite !map_app, Hi1, Hi2, Hi3, Hc2, Hc1, !drawnFrom_app.
        replace (c + Session.approachCount pts k + Scale.LOOP_POINTS_COUNT cfg)%nat
          with (c + Session.approachCount pts k + Scale.LOOP_POINTS_COUNT cfg)%nat by lia.
        reflexivity.
      * rewrite Hrun. f_equal. f_equal. lia.
      * rewrite Hrun. cbn [Session.settle fst Store.set_trackPoints Store.trackPoints].
        rewrite !length_app, Hl1, Hl2, Hl3. cbn [List.length].
        pose proof (nth_error_Some_lt _ _ _ Hn) as Hk. fold pts in Hk.
        pose proof (transitionCount_cases pts k Hk).
        rewrite length_firstn. lia.
    + destruct Hrun as [Hz _]. lia.
Qed.

Lemma grafting_loop_layout_witness :
  exists k entryPoint,
    let pts := Store.trackPoints (fst lineWorld) in
    let n := Scale.LOOP_POINTS_COUNT config in
    nth_error pts k = Some entryPoint /\
    Store.id entryPoint = "point-2"%string /\
    (forall j q, (j < k)%nat -> nth_error pts j = Some q -> Store.id q <> "point-2"%string) /\
    (n = 0%nat ->
     Store.Grafting.createLoopAtPoint config "point-2" lineWorld
     = Store.TypeError (fst lineWorld, (snd lineWorld + Session.approachCount pts k)%nat)) /\
    ((0 < n)%nat ->
     exists approach loopPts transition,
       List.length approach = Session.approachCount pts k /\
       List.length loopPts = n /\
       List.length transition = Session.transitionCount pts k /\
       map Store.id (approach ++ loopPts ++ transition)
       = Session.drawnFrom (snd lineWorld)
           (Session.approachCount pts k + (n + Session.transitionCount pts k)) /\
       Store.Grafting.createLoopAtPoint config "point-2" lineWorld
       = Store.Done
           (Store.set_trackPoints
              (firstn k pts ++ approach ++ [entryPoint] ++ loopPts ++ transition
                 ++ skipn (k + 1 + 1) pts)
              (fst lineWorld),
            (snd lineWorld
             + (Session.approachCount pts k + (n + Session.transitionCount pts k)))%nat) /\
       List.length
         (Store.trackPoints
            (fst (Session.settle (Store.Grafting.createLoopAtPoint config "point-2" lineWorld))))
       = (List.length pts + Session.approachCount pts k + n + 1)%nat).
Proof.
  apply (grafting_loop_layout config "point-2" lineWorld).
  right. left. reflexivity.
Defined.

(** X7.  A point of the helical loop of the second listing, for a
    radius that is not negative: it lies between the entry height and
    one diameter above it; seen along the right vector it is on the
    circle of that radius whose centre is one radius above the entry
    position; its offset along the right vector is the fraction [i / n]
    of the helix separation; and the last point, [i = n], is the entry
    position moved sideways by the whole helix separation. *)
Theorem grafting_helix_geometry (cfg : Scale.t) (pts : list Store.TrackPoint) (k : nat)
    (entryPos : Vector3.t) (c i : nat) :
  0 <= Scale.LOOP_RADIUS cfg ->
  let forward := Store.Grafting.loopForward pts k entryPos in
  let up := Vector3.mk 0 1 0 in
  let right := Vector3.normalize (Vector3.crossVectors forward up) in
  let radius := Scale.LOOP_RADIUS cfg in
  let n := Scale.LOOP_POINTS_COUNT cfg in
  let p := Store.position (fst (Store.Grafting.helixPoint cfg entryPos forward up right i c)) in
  Vector3.y entryPos <= Vector3.y p <= Vector3.y entryPos + 2 * radius /\
  Vector3.dot (Vector3.sub p entryPos) forward * Vector3.dot (Vector3.sub p entryPos) forward
    + (Vector3.y p - (Vector3.y entryPos + radius))
      * (Vector3.y p - (Vector3.y entryPos + radius))
  = radius * radius /\
  Vector3.dot (Vector3.sub p entryPos) right = INR i / INR n * Scale.HELIX_SEPARATION cfg /\
  (i = n -> (0 < n)%nat ->
   p = Vector3.add entryPos (Vector3.multiplyScalar right (Scale.HELIX_SEPARATION cfg))).
Proof.
  intros Hr forward up right radius n p.
  destruct (grafting_forward pts k entryPos) as [Hlen Hy]. fold forward in Hlen, Hy.
  pose proof (horizontal_unit forward Hlen Hy) as Hxz.
  assert (Hright : right = Vector3.mk (- Vector3.z forward) 0 (Vector3.x forward)).
  { unfold right, Vector3.crossVectors, up. cbn [Vector3.x Vector3.y Vector3.z].
    rewrite Hy.
    replace (0 * 0 - Vector3.z forward * 1) with (- Vector3.z forward) by ring.
    replace (Vector3.z forward * 0 - Vector3.x forward * 0) with 0 by ring.
    replace (Vector3.x forward * 1 - 0 * 0) with (Vector3.x forward) by ring.
    apply normalize_unit. apply length_mk; [lra|]. lra. }
  unfold p. rewrite helixPoint_run. cbn [fst Store.position]. fold n. fold radius.
  set (theta := INR i / INR n * PI * 2).
  pose proof (sin2_cos2 theta) as Hsc. unfold Rsqr in Hsc.
  pose proof (COS_bound theta) as Hcb.
  rewrite Hright. unfold Vector3.dot, Vector3.sub, Vector3.add, Vector3.multiplyScalar.
  cbn [Vector3.x Vector3.y Vector3.z]. rewrite Hy.
  change (0 <= radius) in Hr.
  split; [|split; [|split]].
  - assert (0 <= (1 - cos theta) * radius) by (apply Rmult_le_pos; lra).
    assert (0 <= (1 + cos theta) * radius) by (apply Rmult_le_pos; lra).
    split; lra.
  - replace (Vector3.x entryPos + Vector3.x forward * (sin theta * radius)
             + - Vector3.z forward * (INR i / INR n * Scale.HELIX_SEPARATION cfg)
             - Vector3.x entryPos)
      with (Vector3.x forward * (sin theta * radius)
            - Vector3.z forward * (INR i / INR n * Scale.HELIX_SEPARATION cfg)) by ring.
    replace (Vector3.z entryPos + Vector3.z forward * (sin theta * radius)
             + Vector3.x forward * (INR i / INR n * Scale.HELIX_SEPARATION cfg)
             - Vector3.z entryPos)
      with (Vector3.z forward * (sin theta * radius)
            + Vector3.x forward * (INR i / INR n * Scale.HELIX_SEPARATION cfg)) by ring.
    set (h := INR i / INR n * Scale.HELIX_SEPARATION cfg).
    set (fx := Vector3.x forward) in *. set (fz := Vector3.z forward) in *.
    replace ((fx * (sin theta * radius) - fz * h) * fx
             + (Vector3.y entryPos + (1 - cos theta) * radius - Vector3.y entryPos) * 0
             + (fz * (sin theta * radius) + fx * h) * fz)
      with ((fx * fx + fz * fz) * (sin theta * radius)) by ring.
    rewrite Hxz.
    replace (1 * (sin theta * radius) * (1 * (sin theta * radius))
             + (Vector3.y entryPos + (1 - cos theta) * radius - (Vector3.y entryPos + radius))
               * (Vector3.y entryPos + (1 - cos theta) * radius
                  - (Vector3.y entryPos + radius)))
      with ((sin theta * sin theta + cos theta * cos theta) * (radius * radius)) by ring.
    rewrite Hsc. ring.
  - set (h := INR i / INR n * Scale.HELIX_SEPARATION cfg).
    set (fx := Vector3.x forward) in *. set (fz := Vector3.z forward) in *.
    replace ((Vector3.x entryPos + fx * (sin theta * radius) + - fz * h - Vector3.x entryPos)
             * - fz
             + (Vector3.y entryPos + (1 - cos theta) * radius - Vector3.y entryPos) * 0
             + (Vector3.z entryPos + fz * (sin theta * radius) + fx * h - Vector3.z entryPos)
               * fx)
      with ((fx * fx + fz * fz) * h) by ring.
    rewrite Hxz. ring.
  - intros -> Hn.
    assert (Hn0 : INR n <> 0) by (apply not_0_INR; lia).
    unfold theta. replace (INR n / INR n) with 1 by (field; exact Hn0).
    replace (1 * PI * 2) with (2 * PI) by ring. rewrite sin_2PI, cos_2PI.
    f_equal; ring.
Qed.

Lemma grafting_helix_geometry_witness :
  let forward := Store.Grafting.loopForward linePoints 1 (Vector3.mk 10 0 0) in
  let up := Vector3.mk 0 1 0 in
  let right := Vector3.normalize (Vector3.crossVectors forward up) in
  let radius := Scale.LOOP_RADIUS config in
  let n := Scale.LOOP_POINTS_COUNT config in
  let p :=
    Store.position
      (fst (Store.Grafting.helixPoint config (Vector3.mk 10 0 0) forward up right 16%nat 2%nat)) in
  Vector3.y (Vector3.mk 10 0 0) <= Vector3.y p <= Vector3.y (Vector3.mk 10 0 0) + 2 * radius /\
  Vector3.dot (Vector3.sub p (Vector3.mk 10 0 0)) forward
    * Vector3.dot (Vector3.sub p (Vector3.mk 10 0 0)) forward
    + (Vector3.y p - (Vector3.y (Vector3.mk 10 0 0) + radius))
      * (Vector3.y p - (Vector3.y (Vector3.mk 10 0 0) + radius))
  = radius * radius /\
  Vector3.dot (Vector3.sub p (Vector3.mk 10 0 0)) right
  = INR 16 / INR n * Scale.HELIX_SEPARATION config /\
  (16%nat = n -> (0 < n)%nat ->
   p = Vector3.add (Vector3.mk 10 0 0)
         (Vector3.multiplyScalar right (Scale.HELIX_SEPARATION config))).
Proof.
  apply (grafting_helix_geometry config linePoints 1 (Vector3.mk 10 0 0) 2%nat 16%nat).
  simpl. lra.
Defined.

(** X8.  The cubic blend the second listing places its approach and
    exit points with passes through its first end point at 0 and its
    second at 1; half way it is the mean of the two, moved by an
    eighth of the scale along the difference of the two tangents, so
    between equal tangents it is the midpoint.  Hence the second
    approach point of a loop lies on the forward axis, 0.15 radii
    before the entry position. *)
Theorem hermite_blend (p0 t0 p1 t1 : Vector3.t) (scale : R) :
  Store.Grafting.hermite 0 p0 t0 p1 t1 scale = p0 /\
  Store.Grafting.hermite 1 p0 t0 p1 t1 scale = p1 /\
  Store.Grafting.hermite 0.5 p0 t0 p1 t1 scale
  = Vector3.add (Vector3.multiplyScalar (Vector3.add p0 p1) 0.5)
      (Vector3.multiplyScalar (Vector3.sub t0 t1) (scale / 8)) /\
  Store.Grafting.hermite 0.5 p0 t0 p1 t0 scale = Vector3.multiplyScalar (Vector3.add p0 p1) 0.5 /\
  (forall cfg pts j prevPoint entryPos forward c,
     nth_error pts j = Some prevPoint ->
     nth_error (fst (Store.Grafting.approachPoints cfg pts (S j) entryPos forward c)) 1
     = Some (Store.mkTrackPoint (Store.point_id (c + 2))
               (Vector3.sub entryPos
                  (Vector3.multiplyScalar forward (Scale.LOOP_RADIUS cfg * 0.15)))
               0 None)).
Proof.
  repeat split.
  - destruct p0, t0, p1, t1. unfold Store.Grafting.hermite. vec.
  - destruct p0, t0, p1, t1. unfold Store.Grafting.hermite. vec.
  - destruct p0, t0, p1, t1. unfold Store.Grafting.hermite. vec.
  - destruct p0, t0, p1. unfold Store.Grafting.hermite. vec.
  - intros cfg pts j prevPoint entryPos forward c Hj.
    unfold Store.Grafting.approachPoints. rewrite Hj.
    repeat (rewrite bind_run; cbv beta; rewrite ?newPoint_run; cbn [fst snd]).
    unfold Store.ret. cbn [fst nth_error]. f_equal. f_equal.
    + f_equal. lia.
    + destruct entryPos, forward. unfold Store.Grafting.hermite. vec.
Qed.

(** ** Removing and updating track points *)

Lemma map_id_ext {A : Type} (f : A -> A) (l : list A) :
  (forall a, In a l -> f a = a) -> map f l = l.
Proof.
  induction l as [|a l IH]; intros H; [reflexivity|].
  cbn [map]. rewrite (H a (or_introl eq_refl)), IH; [reflexivity|].
  intros b Hb. apply H. right. exact Hb.
Qed.

Lemma filter_all {A : Type} (f : A -> bool) (l : list A) :
  (forall a, In a l -> f a = true) -> filter f l = l.
Proof.
  induction l as [|a l IH]; intros H; [reflexivity|].
  cbn [filter]. rewrite (H a (or_introl eq_refl)), IH; [reflexivity|].
  intros b Hb. apply H. right. exact Hb.
Qed.

Lemma not_in_ids (i : string) (pts : list Store.TrackPoint) :
  ~ In i (map Store.id pts) -> forall p, In p pts -> String.eqb (Store.id p) i = false.
Proof.
  intros H p Hp. apply String.eqb_neq. intros E. apply H. rewrite <- E.
  apply in_map. exact Hp.
Qed.

Lemma updateTrackPoint_unknown (i : string) (pos : Vector3.t) (w : Store.World) :
  ~ In i (Session.ids w) -> Store.updateTrackPoint i pos w = w.
Proof.
  destruct w as [s c]. unfold Session.ids. cbn [fst]. intros H.
  unfold Store.updateTrackPoint. rewrite map_id_ext.
  - destruct s. reflexivity.
  - intros p Hp. rewrite (not_in_ids i _ H p Hp). reflexivity.
Qed.

Lemma updateTrackPointTilt_unknown (i : string) (tl : R) (w : Store.World) :
  ~ In i (Session.ids w) -> Store.updateTrackPointTilt i tl w = w.
Proof.
  destruct w as [s c]. unfold Session.ids. cbn [fst]. intros H.
  unfold Store.updateTrackPointTilt. rewrite map_id_ext.
  - destruct s. reflexivity.
  - intros p Hp. rewrite (not_in_ids i _ H p Hp). reflexivity.
Qed.

Lemma removeTrackPoint_gone (i : string) (w : Store.World) :
  ~ In i (Session.ids (Store.removeTrackPoint i w)).
Proof.
  destruct w as [s c]. unfold Session.ids, Store.removeTrackPoint.
  cbn [fst Store.set_selectedPointId Store.set_trackPoints Store.trackPoints].
  intros H. apply in_map_iff in H. destruct H as [p [Hp Hin]].
  apply filter_In in Hin. destruct Hin as [_ Hf].
  apply negb_true_iff, String.eqb_neq in Hf. auto.
Qed.

Lemma removeTrackPoint_selection (i : string) (w : Store.World) :
  Store.selectedPointId (fst (Store.removeTrackPoint i w)) <> Some i.
Proof.
  destruct w as [s c]. unfold Store.removeTrackPoint.
  cbn [fst Store.set_selectedPointId Store.set_trackPoints Store.selectedPointId].
  destruct (Store.selectedPointId s) as [j|]; [|discriminate].
  destruct (String.eqb j i) eqn:E; [discriminate|].
  apply String.eqb_neq in E. congruence.
Qed.

Lemma removeTrackPoint_unknown (i : string) (w : Store.World) :
  ~ In i (Session.ids w) -> Store.selectedPointId (fst w) <> Some i ->
  Store.removeTrackPoint i w = w.
Proof.
  destruct w as [s c]. unfold Session.ids. cbn [fst]. intros H Hsel.
  unfold Store.removeTrackPoint.
  rewrite filter_all
    by (intros p Hp; rewrite (not_in_ids i _ H p Hp); reflexivity).
  destruct s as [m tps sel rp ir rs dp ap lo cl ws nm ct].
  cbn [Store.selectedPointId Store.trackPoints Store.set_trackPoints
       Store.set_selectedPointId Store.mode Store.rideProgress Store.isRiding
       Store.rideSpeed Store.isDraggingPoint Store.isAddingPoints
       Store.isLooped Store.hasChainLift Store.showWoodSupports
       Store.isNightMode Store.cameraTarget] in *.
  destruct sel as [j|]; [|reflexivity].
  destruct (String.eqb j i) eqn:E; [|reflexivity].
  apply String.eqb_eq in E. subst j. congruence.
Qed.

(** X9.  [removeTrackPoint] removes exactly the points with the given
    identifier and keeps the others in their order; it clears the
    selection when the selected point is the one removed and leaves it
    otherwise; it leaves the counter alone.  Afterwards no point has
    that identifier, so that removing it again, moving or tilting it,
    or asking for a loop at it changes nothing.  With an identifier
    that no point has, the track is left as it was. *)
Theorem removeTrackPoint_removes (cfg : Scale.t) (i : string) (w : Store.World) :
  let w' := Store.removeTrackPoint i w in
  ~ In i (Session.ids w') /\
  (forall p, In p (Store.trackPoints (fst w'))
             <-> In p (Store.trackPoints (fst w)) /\ Store.id p <> i) /\
  Store.trackPoints (fst w')
  = filter (fun p => negb (String.eqb (Store.id p) i)) (Store.trackPoints (fst w)) /\
  (~ In i (Session.ids w) -> Store.trackPoints (fst w') = Store.trackPoints (fst w)) /\
  (Store.selectedPointId (fst w) = Some i -> Store.selectedPointId (fst w') = None) /\
  (Store.selectedPointId (fst w) <> Some i ->
   Store.selectedPointId (fst w') = Store.selectedPointId (fst w)) /\
  snd w' = snd w /\
  Store.removeTrackPoint i w' = w' /\
  (forall pos, Store.updateTrackPoint i pos w' = w') /\
  (forall tl, Store.updateTrackPointTilt i tl w' = w') /\
  Store.Shifting.createLoopAtPoint i w' = Store.Done w' /\
  Store.Grafting.createLoopAtPoint cfg i w' = Store.Done w'.
Proof.
  intros w'. pose proof (removeTrackPoint_gone i w) as Hgone. fold w' in Hgone.
  assert (Htp : Store.trackPoints (fst w')
                = filter (fun p => negb (String.eqb (Store.id p) i))
                         (Store.trackPoints (fst w))).
  { unfold w'. destruct w as [s c]. reflexivity. }
  assert (Hfalse : forall p, In p (Store.trackPoints (fst w')) ->
                             String.eqb (Store.id p) i = false).
  { apply not_in_ids. exact Hgone. }
  repeat split.
  - exact Hgone.
  - rewrite Htp in H. apply filter_In in H. tauto.
  - rewrite Htp in H. apply filter_In in H. destruct H as [_ H].
    apply negb_true_iff, String.eqb_neq in H. exact H.
  - intros [Hin Hne]. rewrite Htp. apply filter_In. split; [exact Hin|].
    apply negb_true_iff, String.eqb_neq. exact Hne.
  - exact Htp.
  - intros Hno. rewrite Htp. apply filter_all. intros p Hp.
    rewrite (not_in_ids i _ Hno p Hp). reflexivity.
  - intros Hs. unfold w'. destruct w as [s c]. cbn [fst] in *.
    unfold Store.removeTrackPoint. cbn [fst Store.set_selectedPointId Store.selectedPointId].
    rewrite Hs, String.eqb_refl. reflexivity.
  - intros Hs. unfold w'. destruct w as [s c]. cbn [fst] in *.
    unfold Store.removeTrackPoint. cbn [fst Store.set_selectedPointId Store.selectedPointId].
    cbn [Store.set_trackPoints Store.selectedPointId].
    destruct (Store.selectedPointId s) as [j|]; [|reflexivity].
    destruct (String.eqb j i) eqn:E; [|reflexivity].
    apply String.eqb_eq in E. subst j. congruence.
  - unfold w'. destruct w as [s c]. reflexivity.
  - apply removeTrackPoint_unknown; [exact Hgone | apply removeTrackPoint_selection].
  - intros pos. apply updateTrackPoint_unknown. exact Hgone.
  - intros tl. apply updateTrackPointTilt_unknown. exact Hgone.
  - destruct w' as [s' c']. unfold Store.Shifting.createLoopAtPoint.
    rewrite findIndex_none; [reflexivity | exact Hfalse].
  - destruct w' as [s' c']. unfold Store.Grafting.createLoopAtPoint.
    rewrite findIndex_none; [reflexivity | exact Hfalse].
Qed.


Lemma updateTrackPoint_points (i : string) (pos : Vector3.t) (w : Store.World) :
  Store.trackPoints (fst (Store.updateTrackPoint i pos w))
  = map (fun p => if String.eqb (Store.id p) i
                  then Store.mkTrackPoint (Store.id p) pos (Store.tilt p) (Store.loopMeta p)
                  else p)
        (Store.trackPoints (fst w)).
Proof. destruct w as [s c]. reflexivity. Qed.

Lemma updateTrackPointTilt_points (i : string) (tl : R) (w : Store.World) :
  Store.trackPoints (fst (Store.updateTrackPointTilt i tl w))
  = map (fun p => if String.eqb (Store.id p) i
                  then Store.mkTrackPoint (Store.id p) (Store.position p) tl (Store.loopMeta p)
                  else p)
        (Store.trackPoints (fst w)).
Proof. destruct w as [s c]. reflexivity. Qed.

Lemma world_eq (w w' : Store.World) :
  Store.trackPoints (fst w) = Store.trackPoints (fst w') ->
  Store.set_trackPoints [] (fst w) = Store.set_trackPoints [] (fst w') ->
  snd w = snd w' -> w = w'.
Proof.
  destruct w as [s c], w' as [s' c']. cbn [fst snd]. intros H1 H2 ->.
  destruct s, s'. cbn in *. injection H2. intros. subst. reflexivity.
Qed.

(** X10.  [updateTrackPoint] gives the new position to every point
    with the given identifier and leaves identifiers, tilts, loop
    metadata, the other points, the number and the order of the points
    as they were; with an identifier that no point has it changes
    nothing at all.  A second update of the same point overwrites the
    first, and updating the position commutes with updating the
    tilt. *)
Theorem updateTrackPoint_overwrites (i : string) (pos : Vector3.t) (w : Store.World) :
  let w' := Store.updateTrackPoint i pos w in
  Session.ids w' = Session.ids w /\
  map Store.tilt (Store.trackPoints (fst w')) = map Store.tilt (Store.trackPoints (fst w)) /\
  map Store.loopMeta (Store.trackPoints (fst w'))
  = map Store.loopMeta (Store.trackPoints (fst w)) /\
  (forall k p, nth_error (Store.trackPoints (fst w)) k = Some p ->
     exists p', nth_error (Store.trackPoints (fst w')) k = Some p' /\
                (Store.id p = i -> Store.position p' = pos) /\
                (Store.id p <> i -> p' = p)) /\
  (~ In i (Session.ids w) -> w' = w) /\
  (forall pos2, Store.updateTrackPoint i pos2 w' = Store.updateTrackPoint i pos2 w) /\
  (forall j tl, Store.updateTrackPointTilt j tl w'
                = Store.updateTrackPoint i pos (Store.updateTrackPointTilt j tl w)).
Proof.
  intros w'. pose proof (updateTrackPoint_points i pos w) as Htp. fold w' in Htp.
  repeat split.
  - unfold Session.ids. rewrite Htp. apply ids_update_map.
    intros p. destruct (String.eqb (Store.id p) i); reflexivity.
  - rewrite Htp, map_map. apply map_ext.
    intros p. destruct (String.eqb (Store.id p) i); reflexivity.
  - rewrite Htp, map_map. apply map_ext.
    intros p. destruct (String.eqb (Store.id p) i); reflexivity.
  - intros k p Hk. rewrite Htp, nth_error_map, Hk. cbn [option_map].
    eexists. split; [reflexivity|]. split.
    + intros E. apply String.eqb_eq in E. rewrite E. reflexivity.
    + intros E. apply String.eqb_neq in E. rewrite E. reflexivity.
  - apply updateTrackPoint_unknown.
  - intros pos2. apply world_eq.
    + rewrite !updateTrackPoint_points. fold w'. rewrite Htp, map_map. apply map_ext.
      intros p. destruct (String.eqb (Store.id p) i) eqn:E; cbn [Store.id]; rewrite E;
        reflexivity.
    + unfold w'. destruct w as [s c]. reflexivity.
    + unfold w'. destruct w as [s c]. reflexivity.
  - intros j tl. apply world_eq.
    + rewrite updateTrackPointTilt_points, updateTrackPoint_points,
        updateTrackPointTilt_points. fold w'. rewrite Htp, !map_map. apply map_ext.
      intros p. destruct (String.eqb (Store.id p) i) eqn:E;
        destruct (String.eqb (Store.id p) j) eqn:E'; cbn [Store.id Store.tilt Store.position
                                                           Store.loopMeta];
        rewrite ?E, ?E'; reflexivity.
    + unfold w'. destruct w as [s c]. reflexivity.
    + unfold w'. destruct w as [s c]. reflexivity.
Qed.

(** X11.  The handlers of a track point's drag handle.  Whatever
    position the handle reports, the point is stored no lower than
    0.5: every point with the handle's identifier ends at the reported
    x and z and at the height [max (0.5, y)], and the other points are
    not touched.  A change of the drag state is recorded in
    [isDraggingPoint] and moves the point only when the drag ends; a
    handler finding no mesh moves nothing; a click selects the point
    in build mode and does nothing in the other modes. *)
Theorem drag_keeps_points_above_ground (i : string) (worldPos : Vector3.t) (w : Store.World) :
  let dropped := TrackPointHandle.handleObjectChange i (Some worldPos) w in
  (forall k p, nth_error (Store.trackPoints (fst w)) k = Some p ->
     exists p', nth_error (Store.trackPoints (fst dropped)) k = Some p' /\
                (Store.id p = i ->
                 Store.position p'
                 = Vector3.mk (Vector3.x worldPos) (Rmax 0.5 (Vector3.y worldPos))
                     (Vector3.z worldPos) /\
                 0.5 <= Vector3.y (Store.position p') /\
                 Vector3.y worldPos <= Vector3.y (Store.position p')) /\
                (Store.id p <> i -> p' = p)) /\
  TrackPointHandle.handleObjectChange i None w = w /\
  (forall o, Store.isDraggingPoint (fst (TrackPointHandle.handleDraggingChanged i true o w))
             = true /\
             Store.trackPoints (fst (TrackPointHandle.handleDraggingChanged i true o w))
             = Store.trackPoints (fst w)) /\
  Store.isDraggingPoint (fst (TrackPointHandle.handleDraggingChanged i false (Some worldPos) w))
  = false /\
  Store.trackPoints (fst (TrackPointHandle.handleDraggingChanged i false (Some worldPos) w))
  = Store.trackPoints (fst dropped) /\
  (Store.mode (fst w) = Store.build ->
   Store.selectedPointId (fst (TrackPointHandle.handleClick i w)) = Some i) /\
  (Store.mode (fst w) <> Store.build -> TrackPointHandle.handleClick i w = w).
Proof.
  intros dropped.
  split.
  { intros k p Hk. unfold dropped, TrackPointHandle.handleObjectChange, TrackPointHandle.moveTo.
    rewrite updateTrackPoint_points, nth_error_map, Hk. cbn [option_map].
    eexists. split; [reflexivity|]. split.
    - intros E. apply String.eqb_eq in E. rewrite E. cbn [Store.position Vector3.y].
      split; [reflexivity|]. split; [apply Rmax_l | apply Rmax_r].
    - intros E. apply String.eqb_neq in E. rewrite E. reflexivity. }
  split; [reflexivity|].
  split; [intros o; destruct w as [s c], o; split; reflexivity|].
  split; [destruct w as [s c]; reflexivity|].
  split; [destruct w as [s c]; reflexivity|].
  split.
  - intros Hm. unfold TrackPointHandle.handleClick. rewrite Hm. destruct w as [s c]. reflexivity.
  - intros Hm. unfold TrackPointHandle.handleClick.
    destruct (Store.mode (fst w)); [congruence | reflexivity | reflexivity].
Qed.

(** ** Starting, stopping and clearing *)

(** X12.  The guard of [startRide] and the guard of [getTrackCurve]
    agree.  When [startRide] starts a ride, the track it leaves has a
    curve, and the section tables the ride camera and the car build
    from it are not empty, so that no frame of the ride is skipped for
    want of a track; when [getTrackCurve] has no curve to give,
    [startRide] changes nothing. *)
Theorem ride_starts_with_a_track (catmullRom : Curve.constructor)
    (loopSegments : list Hybrid.LoopSegment) (w : Store.World) :
  Store.isRiding (fst w) = false ->
  Store.isRiding (fst (Store.startRide w)) = true ->
  let s := fst (Store.startRide w) in
  Store.trackPoints s = Store.trackPoints (fst w) /\
  Hybrid.getTrackCurve catmullRom (Store.trackPoints s) (Store.isLooped s)
  = Some (catmullRom (map Store.position (Store.trackPoints s)) (Store.isLooped s)) /\
  HybridRideCamera.sections
    (HybridRideCamera.trackMemo catmullRom (Store.trackPoints s) loopSegments
       (Store.isLooped s)) <> [] /\
  CoasterCar.sectionsMemo catmullRom (Store.trackPoints s) loopSegments (Store.isLooped s)
  <> [] /\
  (forall w0 isLooped,
     Hybrid.getTrackCurve catmullRom (Store.trackPoints (fst w0)) isLooped = None ->
     Store.startRide w0 = w0).
Proof.
  intros Hnot Hride s.
  assert (Hlen : (2 <= List.length (Store.trackPoints (fst w)))%nat).
  { destruct w as [st c]. unfold Store.startRide in Hride. cbn [fst] in *.
    destruct (2 <=? List.length (Store.trackPoints st))%nat eqn:E.
    - apply Nat.leb_le. exact E.
    - cbn [fst] in Hride. congruence. }
  assert (Htp : Store.trackPoints s = Store.trackPoints (fst w)).
  { unfold s. destruct w as [st c]. unfold Store.startRide. cbn [fst] in *.
    destruct (2 <=? List.length (Store.trackPoints st))%nat; reflexivity. }
  split; [exact Htp|]. rewrite Htp.
  split; [|split; [|split]].
  - unfold Hybrid.getTrackCurve.
    destruct (Nat.ltb_spec (List.length (Store.trackPoints (fst w))) 2); [lia | reflexivity].
  - destruct (trackMemo_table catmullRom (Store.trackPoints (fst w)) loopSegments
                (Store.isLooped s) Hlen) as [-> _].
    unfold Hybrid.sectionTable. cbn [fst]. unfold Hybrid.normalize.
    apply normalizeFrom_nonempty. apply walk_nonempty. exact Hlen.
  - rewrite (sectionsMemo_table catmullRom (Store.trackPoints (fst w)) loopSegments
               (Store.isLooped s) Hlen).
    unfold Hybrid.sectionTable. cbn [fst]. unfold Hybrid.normalize.
    apply normalizeFrom_nonempty. apply walk_nonempty. exact Hlen.
  - intros w0 isLooped Hnone. unfold Hybrid.getTrackCurve in Hnone.
    destruct (Nat.ltb_spec (List.length (Store.trackPoints (fst w0))) 2) as [Hlt|];
      [|discriminate].
    destruct w0 as [st c]. unfold Store.startRide. cbn [fst] in Hlt.
    destruct (Nat.leb_spec 2 (List.length (Store.trackPoints st))); [lia | reflexivity].
Qed.

Lemma ride_starts_with_a_track_witness :
  let w := Store.addTrackPoint (Vector3.mk 10 0 0)
             (Store.addTrackPoint origin Store.initialWorld) in
  let s := fst (Store.startRide w) in
  Store.trackPoints s = Store.trackPoints (fst w) /\
  Hybrid.getTrackCurve (fun _ _ => lineCurve) (Store.trackPoints s) (Store.isLooped s)
  = Some lineCurve /\
  HybridRideCamera.sections
    (HybridRideCamera.trackMemo (fun _ _ => lineCurve) (Store.trackPoints s) lineLoop
       (Store.isLooped s)) <> [] /\
  CoasterCar.sectionsMemo (fun _ _ => lineCurve) (Store.trackPoints s) lineLoop
    (Store.isLooped s) <> [] /\
  (forall w0 isLooped,
     Hybrid.getTrackCurve (fun _ _ => lineCurve) (Store.trackPoints (fst w0)) isLooped = None ->
     Store.startRide w0 = w0).
Proof.
  apply (ride_starts_with_a_track (fun _ _ => lineCurve) lineLoop
           (Store.addTrackPoint (Vector3.mk 10 0 0)
              (Store.addTrackPoint origin Store.initialWorld))); reflexivity.
Defined.

(** X13.  Starting and stopping compose as a user expects: stopping
    after starting is stopping, starting twice is starting once,
    stopping twice is stopping once, and neither touches the track, the
    selection or the counter.  [clearTrack] empties the track, drops
    the selection and ends the ride, but leaves the mode and the
    counter: after it [startRide] is refused, no curve exists, and the
    next point added gets an identifier never used before. *)
Theorem ride_life_cycle (w : Store.World) :
  Store.stopRide (Store.startRide w) = Store.stopRide w /\
  Store.startRide (Store.startRide w) = Store.startRide w /\
  Store.stopRide (Store.stopRide w) = Store.stopRide w /\
  Store.trackPoints (fst (Store.startRide w)) = Store.trackPoints (fst w) /\
  Store.trackPoints (fst (Store.stopRide w)) = Store.trackPoints (fst w) /\
  snd (Store.startRide w) = snd w /\ snd (Store.stopRide w) = snd w /\
  Store.trackPoints (fst (Store.clearTrack w)) = [] /\
  Store.selectedPointId (fst (Store.clearTrack w)) = None /\
  Store.isRiding (fst (Store.clearTrack w)) = false /\
  Store.rideProgress (fst (Store.clearTrack w)) = 0 /\
  Store.mode (fst (Store.clearTrack w)) = Store.mode (fst w) /\
  snd (Store.clearTrack w) = snd w /\
  Store.startRide (Store.clearTrack w) = Store.clearTrack w /\
  (forall catmullRom isLooped,
     Hybrid.getTrackCurve catmullRom (Store.trackPoints (fst (Store.clearTrack w))) isLooped
     = None) /\
  (forall pos, Session.ids (Store.addTrackPoint pos (Store.clearTrack w))
               = [Store.point_id (S (snd w))]).
Proof.
  destruct w as [s c]. unfold Store.startRide, Store.stopRide, Store.clearTrack.
  cbn [fst snd].
  destruct (2 <=? List.length (Store.trackPoints s))%nat eqn:E;
    cbn [fst snd Store.set_rideProgress Store.set_isRiding Store.set_mode Store.trackPoints
         Store.set_trackPoints Store.set_selectedPointId Store.selectedPointId
         Store.isRiding Store.rideProgress Store.mode];
    rewrite ?E; repeat split.
Qed.

(** ** The tilt along the track *)

Lemma at_index_some {A : Type} (l : list A) (i : Z) :
  (0 <= i < Z.of_nat (List.length l))%Z ->
  exists a, TrackRenderer.at_index l i = Some a /\ nth_error l (Z.to_nat i) = Some a /\ In a l.
Proof.
  intros Hi. unfold TrackRenderer.at_index.
  destruct (Z.ltb_spec i 0) as [H|H]; [lia|].
  destruct (nth_error l (Z.to_nat i)) as [a|] eqn:E.
  - exists a. repeat split. apply nth_error_In in E. exact E.
  - apply nth_error_None in E. lia.
Qed.

Lemma at_index_negative {A : Type} (l : list A) (i : Z) :
  (i < 0)%Z -> TrackRenderer.at_index l i = None.
Proof.
  intros Hi. unfold TrackRenderer.at_index.
  destruct (Z.ltb_spec i 0) as [H|H]; [reflexivity | lia].
Qed.

Lemma at_index_nat {A : Type} (l : list A) (k : nat) :
  TrackRenderer.at_index l (Z.of_nat k) = nth_error l k.
Proof.
  unfold TrackRenderer.at_index.
  destruct (Z.ltb_spec (Z.of_nat k) 0) as [H|H]; [lia|].
  rewrite Nat2Z.id. reflexivity.
Qed.

Lemma few_points_false (l : list Store.TrackPoint) :
  (2 <= List.length l)%nat -> (List.length l <? 2)%nat = false.
Proof. intros H. apply Nat.ltb_ge. exact H. Qed.

Lemma blend_within (a b f lo hi : R) :
  lo <= a <= hi -> lo <= b <= hi -> 0 <= f < 1 -> lo <= a * (1 - f) + b * f <= hi.
Proof. intros Ha Hb Hf. split; nra. Qed.

Lemma floor_nonneg (x : R) : 0 <= x -> (0 <= Zfloor x)%Z.
Proof. intros H. apply Zfloor_lub. exact H. Qed.

Lemma floor_negative (x : R) : x < 0 -> (Zfloor x < 0)%Z.
Proof.
  intros H. pose proof (Zfloor_bound x) as [Hl _].
  apply lt_IZR. lra.
Qed.

(** X14.  On a track of at least two points and for a parameter that
    is not negative, [interpolateTilt] returns a number, on an open
    and on a closed track alike, and the number lies within any bounds
    that hold for the tilts of all track points: the interpolation
    never overshoots.  With fewer than two points the tilt is 0. *)
Theorem interpolateTilt_within (trackPoints : list Store.TrackPoint) (t : R)
    (isLooped : bool) (lo hi : R) :
  (2 <= List.length trackPoints)%nat ->
  0 <= t ->
  Forall (fun p => lo <= Store.tilt p <= hi) trackPoints ->
  (exists v, TrackRenderer.interpolateTilt trackPoints t isLooped = Some v /\ lo <= v <= hi) /\
  TrackRenderer.getTrackTiltAtProgress trackPoints t isLooped
  = TrackRenderer.interpolateTilt trackPoints t isLooped /\
  (forall few t' b, (List.length few < 2)%nat ->
                    TrackRenderer.interpolateTilt few t' b = Some 0).
Proof.
  intros Hlen Ht Hall. rewrite Forall_forall in Hall.
  split; [|split; [reflexivity|]].
  - unfold TrackRenderer.interpolateTilt. rewrite (few_points_false _ Hlen).
    set (n := Z.of_nat (List.length trackPoints)).
    assert (Hn : (2 <= n)%Z) by (unfold n; lia).
    set (scaledT := if isLooped then t * IZR n else t * IZR (n - 1)).
    assert (Hs : 0 <= scaledT).
    { unfold scaledT. destruct isLooped; apply Rmult_le_pos; try exact Ht;
        apply IZR_le; lia. }
    pose proof (floor_nonneg scaledT Hs) as Hi.
    pose proof (Zfloor_bound scaledT) as Hb.
    set (index := Zfloor scaledT) in *.
    assert (Hf : 0 <= scaledT - IZR index < 1) by lra.
    destruct isLooped.
    + pose proof (Z.rem_bound_pos index n Hi ltac:(lia)) as H0.
      pose proof (Z.rem_bound_pos (index + 1) n ltac:(lia) ltac:(lia)) as H1.
      destruct (at_index_some trackPoints (Z.rem index n) H0) as [p0 [-> [_ In0]]].
      destruct (at_index_some trackPoints (Z.rem (index + 1) n) H1) as [p1 [-> [_ In1]]].
      eexists. split; [reflexivity|].
      apply blend_within; auto.
    + destruct (Z.leb_spec (n - 1) index) as [Hlast|Hmid].
      * destruct (at_index_some trackPoints (n - 1) ltac:(lia)) as [p [-> [_ Inp]]].
        exists (Store.tilt p). split; [reflexivity | auto].
      * destruct (at_index_some trackPoints index ltac:(lia)) as [p0 [-> [_ In0]]].
        destruct (at_index_some trackPoints (index + 1) ltac:(lia)) as [p1 [-> [_ In1]]].
        eexists. split; [reflexivity|].
        apply blend_within; auto.
  - intros few t' b Hfew. unfold TrackRenderer.interpolateTilt.
    destruct (Nat.ltb_spec (List.length few) 2); [reflexivity | lia].
Qed.


Lemma tiltedPoints_listed :
  Samples.tiltedPoints
  = [Store.mkTrackPoint "point-1" (Vector3.mk 0 0 0) 0 None;
     Store.mkTrackPoint "point-2" (Vector3.mk 10 0 0) 10 None;
     Store.mkTrackPoint "point-3" (Vector3.mk 20 0 0) (-20) None].
Proof. reflexivity. Qed.

Lemma interpolateTilt_within_witness :
  (exists v, TrackRenderer.interpolateTilt Samples.tiltedPoints 0.25 false = Some v
             /\ -20 <= v <= 10) /\
  TrackRenderer.getTrackTiltAtProgress Samples.tiltedPoints 0.25 false
  = TrackRenderer.interpolateTilt Samples.tiltedPoints 0.25 false /\
  (forall few t' b, (List.length few < 2)%nat ->
                    TrackRenderer.interpolateTilt few t' b = Some 0).
Proof.
  apply (interpolateTilt_within Samples.tiltedPoints 0.25 false (-20) 10).
  - rewrite tiltedPoints_listed. simpl. lia.
  - lra.
  - rewrite tiltedPoints_listed.
    repeat (constructor; [cbn [Store.tilt]; lra|]). constructor.
Defined.

Lemma IZR_pred_nat (n : nat) : (1 <= n)%nat -> IZR (Z.of_nat n - 1) = INR (n - 1).
Proof.
  intros H. rewrite INR_IZR_INZ. f_equal. lia.
Qed.

(** X15.  [interpolateTilt] passes through the tilts of the track
    points: on an open track of [n] points the parameter [k / (n - 1)]
    gives the tilt of point [k], and every parameter from 1 on gives
    the tilt of the last point; on a closed track [k / n] gives the
    tilt of point [k], and the parameter 1 wraps to the first
    point. *)
Theorem interpolateTilt_at_points (trackPoints : list Store.TrackPoint) (k : nat)
    (p : Store.TrackPoint) :
  (2 <= List.length trackPoints)%nat ->
  nth_error trackPoints k = Some p ->
  let n := List.length trackPoints in
  TrackRenderer.interpolateTilt trackPoints (INR k / INR (n - 1)) false = Some (Store.tilt p) /\
  TrackRenderer.interpolateTilt trackPoints (INR k / INR n) true = Some (Store.tilt p) /\
  (forall t, 1 <= t ->
     TrackRenderer.interpolateTilt trackPoints t false
     = option_map Store.tilt (nth_error trackPoints (n - 1))) /\
  TrackRenderer.interpolateTilt trackPoints 1 true
  = option_map Store.tilt (nth_error trackPoints 0).
Proof.
  intros Hlen Hk n.
  assert (Hkn : (k < n)%nat) by (apply nth_error_Some; rewrite Hk; discriminate).
  assert (Hn1 : INR (n - 1) <> 0) by (apply not_0_INR; lia).
  assert (Hn0 : INR n <> 0) by (apply not_0_INR; lia).
  unfold TrackRenderer.interpolateTilt. rewrite (few_points_false _ Hlen). fold n.
  split; [|split; [|split]].
  - cbv zeta. rewrite (IZR_pred_nat n) by lia.
    replace (INR k / INR (n - 1) * INR (n - 1)) with (IZR (Z.of_nat k))
      by (rewrite <- INR_IZR_INZ; field; exact Hn1).
    rewrite ZfloorZ.
    destruct (Z.leb_spec (Z.of_nat n - 1) (Z.of_nat k)) as [Hlast|Hmid].
    + assert (k = (n - 1)%nat) by lia. subst k.
      replace (Z.of_nat n - 1)%Z with (Z.of_nat (n - 1)) by lia.
      rewrite at_index_nat, Hk. reflexivity.
    + rewrite at_index_nat, Hk.
      destruct (at_index_some trackPoints (Z.of_nat k + 1)) as [q [-> _]]; [fold n; lia|].
      f_equal. ring.
  - cbv zeta.
    replace (INR k / INR n * IZR (Z.of_nat n)) with (IZR (Z.of_nat k))
      by (rewrite <- !INR_IZR_INZ; field; exact Hn0).
    rewrite ZfloorZ. rewrite (Z.rem_small (Z.of_nat k)) by lia.
    rewrite at_index_nat, Hk.
    destruct (at_index_some trackPoints (Z.rem (Z.of_nat k + 1) (Z.of_nat n))) as [q [-> _]].
    { fold n. apply Z.rem_bound_pos; lia. }
    f_equal. ring.
  - intros t Ht. cbv zeta.
    assert (Hs : IZR (Z.of_nat n - 1) <= t * IZR (Z.of_nat n - 1)).
    { assert (0 <= IZR (Z.of_nat n - 1)) by (apply IZR_le; lia). nra. }
    apply Zfloor_lub in Hs.
    destruct (Z.leb_spec (Z.of_nat n - 1) (Zfloor (t * IZR (Z.of_nat n - 1)))); [|lia].
    replace (Z.of_nat n - 1)%Z with (Z.of_nat (n - 1)) by lia.
    rewrite at_index_nat. reflexivity.
  - cbv zeta. rewrite Rmult_1_l, ZfloorZ, Z.rem_same by lia.
    replace (Z.rem (Z.of_nat n + 1) (Z.of_nat n)) with 1%Z.
    + change 0%Z with (Z.of_nat 0). rewrite at_index_nat.
      change 1%Z with (Z.of_nat 1). rewrite at_index_nat.
      destruct trackPoints as [|a [|b l]]; cbn [List.length] in Hlen; try lia.
      cbn [nth_error option_map]. f_equal. ring.
    + symmetry. replace (Z.of_nat n + 1)%Z with (1 + 1 * Z.of_nat n)%Z by lia.
      rewrite Z.rem_add by lia. apply Z.rem_small. lia.
Qed.

Lemma interpolateTilt_at_points_witness :
  let n := List.length Samples.tiltedPoints in
  TrackRenderer.interpolateTilt Samples.tiltedPoints (INR 1 / INR (n - 1)) false
  = Some (Store.tilt (Store.mkTrackPoint "point-2" (Vector3.mk 10 0 0) 10 None)) /\
  TrackRenderer.interpolateTilt Samples.tiltedPoints (INR 1 / INR n) true
  = Some (Store.tilt (Store.mkTrackPoint "point-2" (Vector3.mk 10 0 0) 10 None)) /\
  (forall t, 1 <= t ->
     TrackRenderer.interpolateTilt Samples.tiltedPoints t false
     = option_map Store.tilt (nth_error Samples.tiltedPoints (n - 1))) /\
  TrackRenderer.interpolateTilt Samples.tiltedPoints 1 true
  = option_map Store.tilt (nth_error Samples.tiltedPoints 0).
Proof.
  apply (interpolateTilt_at_points Samples.tiltedPoints 1
           (Store.mkTrackPoint "point-2" (Vector3.mk 10 0 0) 10 None)).
  - rewrite tiltedPoints_listed. simpl. lia.
  - rewrite tiltedPoints_listed. reflexivity.
Defined.

(** X16.  A negative parameter makes [interpolateTilt] read the tilt
    of a point that does not exist: on a track of at least two points
    it raises, open or closed. *)
Theorem interpolateTilt_negative (trackPoints : list Store.TrackPoint) (t : R)
    (isLooped : bool) :
  (2 <= List.length trackPoints)%nat ->
  t < 0 ->
  TrackRenderer.interpolateTilt trackPoints t isLooped = None.
Proof.
  intros Hlen Ht. unfold TrackRenderer.interpolateTilt. rewrite (few_points_false _ Hlen).
  set (n := Z.of_nat (List.length trackPoints)).
  assert (Hn : (2 <= n)%Z) by (unfold n; lia).
  set (scaledT := if isLooped then t * IZR n else t * IZR (n - 1)).
  assert (Hs : scaledT < 0).
  { unfold scaledT. destruct isLooped.
    - assert (0 < IZR n) by (apply IZR_lt; lia). nra.
    - assert (0 < IZR (n - 1)) by (apply IZR_lt; lia). nra. }
  pose proof (floor_negative scaledT Hs) as Hi.
  set (index := Zfloor scaledT) in *. cbv zeta.
  destruct isLooped.
  - pose proof (Z.rem_bound_pos_neg index n ltac:(lia) ltac:(lia)) as H0.
    destruct (Z.eq_dec (Z.rem index n) 0) as [Hz|Hnz].
    + assert (H1 : (Z.rem (index + 1) n < 0)%Z).
      { apply Z.rem_divide in Hz; [|lia]. destruct Hz as [a Ha].
        assert (Hlt : (index + 1 < 0)%Z) by (assert ((a <= -1)%Z) by nia; nia).
        pose proof (Z.rem_bound_pos_neg (index + 1) n ltac:(lia) ltac:(lia)) as Hb.
        destruct (Z.eq_dec (Z.rem (index + 1) n) 0) as [Hz1|]; [|lia].
        exfalso. apply Z.rem_divide in Hz1; [|lia].
        destruct Hz1 as [b Hb1].
        assert (Hd : (1 = (b - a) * n)%Z) by lia.
        assert ((b - a = 0 \/ b - a <= -1 \/ 1 <= b - a)%Z) as [E|[E|E]] by lia; nia. }
      rewrite (at_index_negative trackPoints _ H1).
      destruct (TrackRenderer.at_index trackPoints (Z.rem index n)); reflexivity.
    + rewrite (at_index_negative trackPoints (Z.rem index n)) by lia. reflexivity.
  - destruct (Z.leb_spec (n - 1) index); [lia|].
    rewrite (at_index_negative trackPoints index Hi). reflexivity.
Qed.

Lemma interpolateTilt_negative_witness :
  TrackRenderer.interpolateTilt Samples.tiltedPoints (-0.5) true = None.
Proof.
  apply (interpolateTilt_negative Samples.tiltedPoints (-0.5) true).
  - rewrite tiltedPoints_listed. simpl. lia.
  - lra.
Defined.

(** ** Loops: the circle and its frame *)

(** A combination of two orthonormal vectors with coefficients on the
    unit circle is a unit vector. *)
Lemma plane_unit (f u : Vector3.t) (a b : R) :
  orthonormal f u -> a * a + b * b = 1 ->
  Vector3.length
    (Vector3.addScaledVector (Vector3.addScaledVector Vector3.zero f a) u b) = 1.
Proof.
  intros (Hf & Hu & Hd) Hab.
  apply length_one_iff in Hf. apply length_one_iff in Hu. apply length_one_iff.
  unfold Vector3.lengthSq, Vector3.dot in *.
  unfold Vector3.addScaledVector, Vector3.zero. cbn [Vector3.x Vector3.y Vector3.z].
  set (ff := Vector3.x f * Vector3.x f + Vector3.y f * Vector3.y f + Vector3.z f * Vector3.z f)
    in *.
  set (uu := Vector3.x u * Vector3.x u + Vector3.y u * Vector3.y u + Vector3.z u * Vector3.z u)
    in *.
  set (fu := Vector3.x f * Vector3.x u + Vector3.y f * Vector3.y u + Vector3.z f * Vector3.z u)
    in *.
  replace ((0 + Vector3.x f * a + Vector3.x u * b) * (0 + Vector3.x f * a + Vector3.x u * b)
           + (0 + Vector3.y f * a + Vector3.y u * b) * (0 + Vector3.y f * a + Vector3.y u * b)
           + (0 + Vector3.z f * a + Vector3.z u * b) * (0 + Vector3.z f * a + Vector3.z u * b))
    with (a * a * ff + b * b * uu + 2 * a * b * fu) by (unfold ff, uu, fu; ring).
  rewrite Hf, Hu, Hd. lra.
Qed.

Lemma orthonormal_sym (f u : Vector3.t) : orthonormal f u -> orthonormal u f.
Proof.
  intros (Hf & Hu & Hd). repeat split; auto.
  unfold Vector3.dot in *. lra.
Qed.

Lemma sin_cos_one (x : R) : cos x * cos x + sin x * sin x = 1.
Proof. pose proof (sin2_cos2 x) as H. unfold Rsqr in H. lra. Qed.

Lemma sin_cos_one' (x : R) : - sin x * - sin x + cos x * cos x = 1.
Proof. pose proof (sin2_cos2 x) as H. unfold Rsqr in H. lra. Qed.

Lemma cos_sin_one' (x : R) : cos x * cos x + - sin x * - sin x = 1.
Proof. pose proof (sin2_cos2 x) as H. unfold Rsqr in H. lra. Qed.

(** The squared length of a cross product (Lagrange). *)
Lemma lengthSq_cross (a b : Vector3.t) :
  Vector3.lengthSq (Vector3.crossVectors a b)
  = Vector3.lengthSq a * Vector3.lengthSq b - Vector3.dot a b * Vector3.dot a b.
Proof.
  unfold Vector3.lengthSq, Vector3.crossVectors, Vector3.dot.
  cbn [Vector3.x Vector3.y Vector3.z]. ring.
Qed.

Lemma cross_unit (a b : Vector3.t) :
  orthonormal a b -> Vector3.length (Vector3.crossVectors a b) = 1.
Proof.
  intros (Ha & Hb & Hd). apply length_one_iff in Ha. apply length_one_iff in Hb.
  apply length_one_iff. rewrite lengthSq_cross, Ha, Hb, Hd. ring.
Qed.

(** X18.  The loop sampler of the hybrid track, on an orthonormal
    frame and at every angle: the point lies on the circle of the
    frame's radius about the centre one radius above the entry
    position along the frame's up vector; the tangent is a unit vector
    at a right angle to the radius; the up vector is the unit vector
    from the point towards the centre.  The sampler of the track
    renderer returns the same point, tangent and up vector, and its
    normal is at every angle the cross product of the frame's forward
    and up vectors, a unit vector: the loop stays in one plane. *)
Theorem loop_sample_on_circle (frame : Hybrid.LoopFrame) (theta : R) :
  orthonormal (Hybrid.forward frame) (Hybrid.up frame) ->
  let s := Hybrid.sampleLoopAnalytically frame theta in
  let r := TrackRenderer.sampleLoopAnalytically frame theta in
  let centre :=
    Vector3.addScaledVector (Hybrid.entryPos frame) (Hybrid.up frame) (Hybrid.lf_radius frame) in
  Vector3.distanceTo (Hybrid.ls_point s) centre = Rabs (Hybrid.lf_radius frame) /\
  Vector3.length (Hybrid.ls_tangent s) = 1 /\
  Vector3.dot (Vector3.sub (Hybrid.ls_point s) centre) (Hybrid.ls_tangent s) = 0 /\
  Vector3.sub centre (Hybrid.ls_point s)
  = Vector3.multiplyScalar (Hybrid.ls_up s) (Hybrid.lf_radius frame) /\
  TrackRenderer.rs_point r = Hybrid.ls_point s /\
  TrackRenderer.rs_tangent r = Hybrid.ls_tangent s /\
  TrackRenderer.rs_up r = Hybrid.ls_up s /\
  TrackRenderer.rs_normal r = Vector3.crossVectors (Hybrid.forward frame) (Hybrid.up frame) /\
  Vector3.length (TrackRenderer.rs_normal r) = 1.
Proof.
  intros Hon s r centre.
  pose proof (cross_unit _ _ Hon) as Hcross.
  pose proof (plane_unit _ _ (cos theta) (sin theta) Hon (sin_cos_one theta)) as Ht.
  pose proof (plane_unit _ _ (- sin theta) (cos theta) Hon (sin_cos_one' theta)) as Hu.
  destruct Hon as (Hf & Hup & Hd).
  apply length_one_iff in Hf. apply length_one_iff in Hup.
  unfold s, r, centre, Hybrid.sampleLoopAnalytically, TrackRenderer.sampleLoopAnalytically.
  cbn [Hybrid.ls_point Hybrid.ls_tangent Hybrid.ls_up TrackRenderer.rs_point
       TrackRenderer.rs_tangent TrackRenderer.rs_up TrackRenderer.rs_normal].
  rewrite (normalize_unit _ Ht), (normalize_unit _ Hu).
  destruct frame as [e f u rt rad]. cbn [Hybrid.entryPos Hybrid.forward Hybrid.up
                                          Hybrid.lf_radius] in *.
  destruct e as [ex0 ey0 ez0], f as [fx fy fz], u as [ux uy uz].
  unfold Vector3.lengthSq, Vector3.dot in Hf, Hup, Hd.
  cbn [Vector3.x Vector3.y Vector3.z] in Hf, Hup, Hd.
  set (c := cos theta) in *. set (sn := sin theta) in *.
  assert (Hsc : c * c + sn * sn = 1) by (apply sin_cos_one).
  assert (Hcr : Vector3.crossVectors
                  (Vector3.addScaledVector
                     (Vector3.addScaledVector Vector3.zero (Vector3.mk fx fy fz) c)
                     (Vector3.mk ux uy uz) sn)
                  (Vector3.addScaledVector
                     (Vector3.addScaledVector Vector3.zero (Vector3.mk fx fy fz) (- sn))
                     (Vector3.mk ux uy uz) c)
                = Vector3.crossVectors (Vector3.mk fx fy fz) (Vector3.mk ux uy uz)).
  { unfold Vector3.crossVectors, Vector3.addScaledVector, Vector3.zero.
    cbn [Vector3.x Vector3.y Vector3.z].
    f_equal.
    - replace ((0 + fy * c + uy * sn) * (0 + fz * - sn + uz * c)
               - (0 + fz * c + uz * sn) * (0 + fy * - sn + uy * c))
        with ((c * c + sn * sn) * (fy * uz - fz * uy)) by ring.
      rewrite Hsc. ring.
    - replace ((0 + fz * c + uz * sn) * (0 + fx * - sn + ux * c)
               - (0 + fx * c + ux * sn) * (0 + fz * - sn + uz * c))
        with ((c * c + sn * sn) * (fz * ux - fx * uz)) by ring.
      rewrite Hsc. ring.
    - replace ((0 + fx * c + ux * sn) * (0 + fy * - sn + uy * c)
               - (0 + fy * c + uy * sn) * (0 + fx * - sn + ux * c))
        with ((c * c + sn * sn) * (fx * uy - fy * ux)) by ring.
      rewrite Hsc. ring. }
  rewrite Hcr, (normalize_unit _ Hcross).
  repeat split; auto.
  - unfold Vector3.distanceTo, Vector3.sub, Vector3.addScaledVector.
    cbn [Vector3.x Vector3.y Vector3.z].
    apply length_mk; [apply Rabs_pos|].
    replace (Rabs rad * Rabs rad) with (rad * rad)
      by (unfold Rabs; destruct (Rcase_abs rad); ring).
    replace ((ex0 + fx * sn * rad + ux * (1 - c) * rad - (ex0 + ux * rad))
             * (ex0 + fx * sn * rad + ux * (1 - c) * rad - (ex0 + ux * rad))
             + (ey0 + fy * sn * rad + uy * (1 - c) * rad - (ey0 + uy * rad))
               * (ey0 + fy * sn * rad + uy * (1 - c) * rad - (ey0 + uy * rad))
             + (ez0 + fz * sn * rad + uz * (1 - c) * rad - (ez0 + uz * rad))
               * (ez0 + fz * sn * rad + uz * (1 - c) * rad - (ez0 + uz * rad)))
      with (rad * rad * (sn * sn * (fx * fx + fy * fy + fz * fz)
                         + c * c * (ux * ux + uy * uy + uz * uz)
                         - 2 * sn * c * (fx * ux + fy * uy + fz * uz))) by ring.
    rewrite Hf, Hup, Hd.
    replace (sn * sn * 1 + c * c * 1 - 2 * sn * c * 0) with (c * c + sn * sn) by ring.
    rewrite Hsc. ring.
  - unfold Vector3.dot, Vector3.sub, Vector3.addScaledVector, Vector3.zero.
    cbn [Vector3.x Vector3.y Vector3.z].
    replace ((ex0 + fx * sn * rad + ux * (1 - c) * rad - (ex0 + ux * rad))
             * (0 + fx * c + ux * sn)
             + (ey0 + fy * sn * rad + uy * (1 - c) * rad - (ey0 + uy * rad))
               * (0 + fy * c + uy * sn)
             + (ez0 + fz * sn * rad + uz * (1 - c) * rad - (ez0 + uz * rad))
               * (0 + fz * c + uz * sn))
      with (rad * (sn * c * (fx * fx + fy * fy + fz * fz)
                   - sn * c * (ux * ux + uy * uy + uz * uz)
                   + (sn * sn - c * c) * (fx * ux + fy * uy + fz * uz))) by ring.
    rewrite Hf, Hup, Hd. ring.
  - unfold Vector3.sub, Vector3.addScaledVector, Vector3.multiplyScalar, Vector3.zero.
    cbn [Vector3.x Vector3.y Vector3.z]. f_equal; ring.
Qed.

Lemma loop_sample_on_circle_witness :
  let s := Hybrid.sampleLoopAnalytically lineFrame 1 in
  let r := TrackRenderer.sampleLoopAnalytically lineFrame 1 in
  let centre :=
    Vector3.addScaledVector (Hybrid.entryPos lineFrame) (Hybrid.up lineFrame)
      (Hybrid.lf_radius lineFrame) in
  Vector3.distanceTo (Hybrid.ls_point s) centre = Rabs (Hybrid.lf_radius lineFrame) /\
  Vector3.length (Hybrid.ls_tangent s) = 1 /\
  Vector3.dot (Vector3.sub (Hybrid.ls_point s) centre) (Hybrid.ls_tangent s) = 0 /\
  Vector3.sub centre (Hybrid.ls_point s)
  = Vector3.multiplyScalar (Hybrid.ls_up s) (Hybrid.lf_radius lineFrame) /\
  TrackRenderer.rs_point r = Hybrid.ls_point s /\
  TrackRenderer.rs_tangent r = Hybrid.ls_tangent s /\
  TrackRenderer.rs_up r = Hybrid.ls_up s /\
  TrackRenderer.rs_normal r
  = Vector3.crossVectors (Hybrid.forward lineFrame) (Hybrid.up lineFrame) /\
  Vector3.length (TrackRenderer.rs_normal r) = 1.
Proof.
  apply (loop_sample_on_circle lineFrame 1). exact orthonormal_ex_ey.
Defined.


(** ** The vertical loop of the track renderer *)

Lemma theta_at_0 : VerticalLoop.theta 0 = 0.
Proof.
  unfold VerticalLoop.theta. rewrite Rmult_0_r, sin_0. unfold Rdiv. ring.
Qed.

Lemma theta_at_1 : VerticalLoop.theta 1 = 2 * PI.
Proof.
  pose proof twoPi_pos as Hp.
  unfold VerticalLoop.theta. rewrite Rmult_1_r.
  unfold VerticalLoop.twoPi in *. replace (PI * 2) with (2 * PI) by ring.
  rewrite sin_2PI. field. lra.
Qed.

Lemma theta_at_half : VerticalLoop.theta (1 / 2) = PI.
Proof.
  pose proof twoPi_pos as Hp.
  unfold VerticalLoop.theta, VerticalLoop.twoPi in *.
  replace (PI * 2 * (1 / 2)) with PI by field.
  rewrite sin_PI. field. lra.
Qed.

Lemma dThetaDt_at_0 : VerticalLoop.dThetaDt 0 = 0.
Proof. unfold VerticalLoop.dThetaDt. rewrite Rmult_0_r, cos_0. ring. Qed.

Lemma dThetaDt_at_1 : VerticalLoop.dThetaDt 1 = 0.
Proof.
  unfold VerticalLoop.dThetaDt, VerticalLoop.twoPi. rewrite Rmult_1_r.
  replace (PI * 2) with (2 * PI) by ring. rewrite cos_2PI. ring.
Qed.

Lemma normalize_scaled_unit (f : Vector3.t) (p : R) :
  Vector3.length f = 1 -> 0 < p ->
  Vector3.normalize (Vector3.multiplyScalar f p) = f.
Proof.
  intros Hf Hp.
  assert (Hl : Vector3.length (Vector3.multiplyScalar f p) = p).
  { destruct f as [a b c]. unfold Vector3.multiplyScalar. cbn [Vector3.x Vector3.y Vector3.z].
    apply length_mk; [lra|]. apply length_one_iff in Hf. unfold Vector3.lengthSq in Hf.
    cbn [Vector3.x Vector3.y Vector3.z] in Hf.
    replace (a * p * (a * p) + b * p * (b * p) + c * p * (c * p))
      with ((a * a + b * b + c * c) * (p * p)) by ring.
    rewrite Hf. ring. }
  rewrite normalize_scaled by lra. rewrite Hl.
  destruct f as [a b c]. unfold Vector3.multiplyScalar. cbn [Vector3.x Vector3.y Vector3.z].
  f_equal; field; lra.
Qed.

(** X17.  The vertical loop of the track renderer, on a frame whose
    forward and up vectors are orthonormal.  It starts at the entry
    position with the frame's up vector and ends one pitch further
    along the forward vector, the up vector restored; half way the
    point is two radii above the middle of the two and the up vector
    is inverted.  At both ends the tangent is the forward vector when
    the pitch is positive, and the zero vector when the pitch is zero,
    the angular rate vanishing there.  At every parameter the up
    vector is a unit vector, the normal is the frame's right vector,
    and the height over the entry position along the up vector is
    [radius * (1 - cos theta)] plus the part of the corkscrew offset
    [0.4 * radius * sin theta] that the right vector has along the up
    vector.  Where the right vector is at a right angle to the up
    vector, that height is between 0 and two radii; it is so for the
    right vector the renderer builds, the normalised cross product of
    forward and up. *)
Theorem vertical_loop_shape (frame : VerticalLoop.BarrelRollFrame) :
  orthonormal (VerticalLoop.forward frame) (VerticalLoop.up frame) ->
  0 <= VerticalLoop.radius frame ->
  let sample := VerticalLoop.sampleVerticalLoopAnalytically frame in
  let entryPos := VerticalLoop.entryPos frame in
  let forward := VerticalLoop.forward frame in
  let up := VerticalLoop.up frame in
  VerticalLoop.point (sample 0) = entryPos /\
  VerticalLoop.sampleUp (sample 0) = up /\
  VerticalLoop.point (sample 1)
  = Vector3.addScaledVector entryPos forward (VerticalLoop.pitch frame) /\
  VerticalLoop.sampleUp (sample 1) = up /\
  VerticalLoop.point (sample (1 / 2))
  = Vector3.addScaledVector
      (Vector3.addScaledVector entryPos forward (VerticalLoop.pitch frame / 2))
      up (2 * VerticalLoop.radius frame) /\
  VerticalLoop.sampleUp (sample (1 / 2)) = Vector3.negate up /\
  (0 < VerticalLoop.pitch frame ->
   VerticalLoop.tangent (sample 0) = forward /\ VerticalLoop.tangent (sample 1) = forward) /\
  (VerticalLoop.pitch frame = 0 ->
   VerticalLoop.tangent (sample 0) = Vector3.zero /\
   VerticalLoop.tangent (sample 1) = Vector3.zero) /\
  (forall t,
     Vector3.length (VerticalLoop.sampleUp (sample t)) = 1 /\
     VerticalLoop.normal (sample t) = VerticalLoop.right frame /\
     Vector3.dot (Vector3.sub (VerticalLoop.point (sample t)) entryPos) up
     = VerticalLoop.radius frame * (1 - cos (VerticalLoop.theta t))
       + VerticalLoop.radius frame * 0.4 * sin (VerticalLoop.theta t)
         * Vector3.dot (VerticalLoop.right frame) up /\
     (Vector3.dot (VerticalLoop.right frame) up = 0 ->
      0 <= Vector3.dot (Vector3.sub (VerticalLoop.point (sample t)) entryPos) up
        <= 2 * VerticalLoop.radius frame)) /\
  (VerticalLoop.right frame = Vector3.normalize (Vector3.crossVectors forward up) ->
   Vector3.dot (VerticalLoop.right frame) up = 0).
Proof.
  intros Hon Hrad sample entryPos forward up.
  pose proof (orthonormal_sym _ _ Hon) as Hon'.
  assert (Hup : forall t,
             Vector3.length
               (Vector3.addScaledVector
                  (Vector3.addScaledVector Vector3.zero up (cos (VerticalLoop.theta t)))
                  forward (- sin (VerticalLoop.theta t))) = 1).
  { intros t. apply plane_unit; [exact Hon' | apply cos_sin_one']. }
  destruct Hon as (Hf & Hu & Hd). fold forward in Hf, Hd. fold up in Hu, Hd.
  unfold sample, VerticalLoop.sampleVerticalLoopAnalytically.
  cbn [VerticalLoop.point VerticalLoop.tangent VerticalLoop.sampleUp VerticalLoop.normal].
  fold entryPos forward up.
  split; [|split; [|split; [|split; [|split; [|split; [|split; [|split; [|split]]]]]]]].
  - rewrite theta_at_0, sin_0, cos_0. destruct entryPos, forward, up, (VerticalLoop.right frame).
    unfold Vector3.addScaledVector. cbn [Vector3.x Vector3.y Vector3.z]. f_equal; ring.
  - rewrite (normalize_unit _ (Hup 0)). rewrite theta_at_0, sin_0, cos_0.
    destruct forward, up. unfold Vector3.addScaledVector, Vector3.zero.
    cbn [Vector3.x Vector3.y Vector3.z]. f_equal; ring.
  - rewrite theta_at_1, sin_2PI, cos_2PI.
    destruct entryPos, forward, up, (VerticalLoop.right frame).
    unfold Vector3.addScaledVector. cbn [Vector3.x Vector3.y Vector3.z]. f_equal; ring.
  - rewrite (normalize_unit _ (Hup 1)). rewrite theta_at_1, sin_2PI, cos_2PI.
    destruct forward, up. unfold Vector3.addScaledVector, Vector3.zero.
    cbn [Vector3.x Vector3.y Vector3.z]. f_equal; ring.
  - rewrite theta_at_half, sin_PI, cos_PI.
    destruct entryPos, forward, up, (VerticalLoop.right frame).
    unfold Vector3.addScaledVector. cbn [Vector3.x Vector3.y Vector3.z]. f_equal; field.
  - rewrite (normalize_unit _ (Hup (1 / 2))). rewrite theta_at_half, sin_PI, cos_PI.
    destruct forward, up. unfold Vector3.addScaledVector, Vector3.zero, Vector3.negate.
    cbn [Vector3.x Vector3.y Vector3.z]. f_equal; ring.
  - intros Hp. rewrite dThetaDt_at_0, dThetaDt_at_1. split.
    + rewrite <- (normalize_scaled_unit forward (VerticalLoop.pitch frame) Hf Hp) at 2.
      f_equal. destruct forward, up, (VerticalLoop.right frame).
      unfold Vector3.addScaledVector, Vector3.multiplyScalar.
      cbn [Vector3.x Vector3.y Vector3.z]. f_equal; ring.
    + rewrite <- (normalize_scaled_unit forward (VerticalLoop.pitch frame) Hf Hp) at 2.
      f_equal. destruct forward, up, (VerticalLoop.right frame).
      unfold Vector3.addScaledVector, Vector3.multiplyScalar.
      cbn [Vector3.x Vector3.y Vector3.z]. f_equal; ring.
  - intros Hp. rewrite Hp, dThetaDt_at_0, dThetaDt_at_1. split.
    + transitivity (Vector3.normalize Vector3.zero); [|apply normalize_zero]. f_equal.
      destruct forward, up, (VerticalLoop.right frame).
      unfold Vector3.addScaledVector, Vector3.multiplyScalar, Vector3.zero.
      cbn [Vector3.x Vector3.y Vector3.z]. f_equal; ring.
    + transitivity (Vector3.normalize Vector3.zero); [|apply normalize_zero]. f_equal.
      destruct forward, up, (VerticalLoop.right frame).
      unfold Vector3.addScaledVector, Vector3.multiplyScalar, Vector3.zero.
      cbn [Vector3.x Vector3.y Vector3.z]. f_equal; ring.
  - intros t.
    assert (Hh : Vector3.dot
                   (Vector3.sub
                      (Vector3.addScaledVector
                         (Vector3.addScaledVector
                            (Vector3.addScaledVector entryPos forward
                               (VerticalLoop.pitch frame * t
                                + VerticalLoop.radius frame * sin (VerticalLoop.theta t)))
                            up (VerticalLoop.radius frame * (1 - cos (VerticalLoop.theta t))))
                         (VerticalLoop.right frame)
                         (VerticalLoop.radius frame * 0.4 * sin (VerticalLoop.theta t)))
                      entryPos) up
                 = VerticalLoop.radius frame * (1 - cos (VerticalLoop.theta t))
                   + VerticalLoop.radius frame * 0.4 * sin (VerticalLoop.theta t)
                     * Vector3.dot (VerticalLoop.right frame) up).
    { apply length_one_iff in Hu.
      unfold Vector3.lengthSq, Vector3.dot in *.
      set (th := VerticalLoop.theta t).
      destruct entryPos as [e1 e2 e3], forward as [f1 f2 f3], up as [u1 u2 u3],
        (VerticalLoop.right frame) as [r1 r2 r3].
      unfold Vector3.addScaledVector, Vector3.sub. cbn [Vector3.x Vector3.y Vector3.z] in *.
      set (rad := VerticalLoop.radius frame) in *.
      set (a := VerticalLoop.pitch frame * t + rad * sin th).
      set (k := rad * 0.4 * sin th).
      replace ((e1 + f1 * a + u1 * (rad * (1 - cos th)) + r1 * k - e1) * u1
               + (e2 + f2 * a + u2 * (rad * (1 - cos th)) + r2 * k - e2) * u2
               + (e3 + f3 * a + u3 * (rad * (1 - cos th)) + r3 * k - e3) * u3)
        with (a * (f1 * u1 + f2 * u2 + f3 * u3)
              + rad * (1 - cos th) * (u1 * u1 + u2 * u2 + u3 * u3)
              + k * (r1 * u1 + r2 * u2 + r3 * u3)) by ring.
      rewrite Hd, Hu. ring. }
    split; [|split; [|split]].
    + rewrite (normalize_unit _ (Hup t)). apply Hup.
    + reflexivity.
    + exact Hh.
    + intros Hr. rewrite Hh, Hr.
      pose proof (COS_bound (VerticalLoop.theta t)) as Hc.
      assert (0 <= VerticalLoop.radius frame * (1 - cos (VerticalLoop.theta t)))
        by (apply Rmult_le_pos; lra).
      assert (0 <= VerticalLoop.radius frame * (1 + cos (VerticalLoop.theta t)))
        by (apply Rmult_le_pos; lra).
      lra.
  - intros Er. rewrite Er.
    rewrite (normalize_unit _ (cross_unit forward up (conj Hf (conj Hu Hd)))).
    destruct forward as [f1 f2 f3], up as [u1 u2 u3].
    unfold Vector3.dot, Vector3.crossVectors. cbn [Vector3.x Vector3.y Vector3.z]. ring.
Qed.

Lemma vertical_loop_shape_witness :
  let sample := VerticalLoop.sampleVerticalLoopAnalytically Samples.rollFrame in
  let entryPos := VerticalLoop.entryPos Samples.rollFrame in
  let forward := VerticalLoop.forward Samples.rollFrame in
  let up := VerticalLoop.up Samples.rollFrame in
  VerticalLoop.point (sample 0) = entryPos /\
  VerticalLoop.sampleUp (sample 0) = up /\
  VerticalLoop.point (sample 1)
  = Vector3.addScaledVector entryPos forward (VerticalLoop.pitch Samples.rollFrame) /\
  VerticalLoop.sampleUp (sample 1) = up /\
  VerticalLoop.point (sample (1 / 2))
  = Vector3.addScaledVector
      (Vector3.addScaledVector entryPos forward (VerticalLoop.pitch Samples.rollFrame / 2))
      up (2 * VerticalLoop.radius Samples.rollFrame) /\
  VerticalLoop.sampleUp (sample (1 / 2)) = Vector3.negate up /\
  (0 < VerticalLoop.pitch Samples.rollFrame ->
   VerticalLoop.tangent (sample 0) = forward /\ VerticalLoop.tangent (sample 1) = forward) /\
  (VerticalLoop.pitch Samples.rollFrame = 0 ->
   VerticalLoop.tangent (sample 0) = Vector3.zero /\
   VerticalLoop.tangent (sample 1) = Vector3.zero) /\
  (forall t,
     Vector3.length (VerticalLoop.sampleUp (sample t)) = 1 /\
     VerticalLoop.normal (sample t) = VerticalLoop.right Samples.rollFrame /\
     Vector3.dot (Vector3.sub (VerticalLoop.point (sample t)) entryPos) up
     = VerticalLoop.radius Samples.rollFrame * (1 - cos (VerticalLoop.theta t))
       + VerticalLoop.radius Samples.rollFrame * 0.4 * sin (VerticalLoop.theta t)
         * Vector3.dot (VerticalLoop.right Samples.rollFrame) up /\
     (Vector3.dot (VerticalLoop.right Samples.rollFrame) up = 0 ->
      0 <= Vector3.dot (Vector3.sub (VerticalLoop.point (sample t)) entryPos) up
        <= 2 * VerticalLoop.radius Samples.rollFrame)) /\
  (VerticalLoop.right Samples.rollFrame = Vector3.normalize (Vector3.crossVectors forward up) ->
   Vector3.dot (VerticalLoop.right Samples.rollFrame) up = 0).
Proof.
  apply (vertical_loop_shape Samples.rollFrame).
  - exact orthonormal_ex_ey.
  - simpl. lra.
Defined.

(** ** Frames over a spline *)

(** A vector that is not vertical has a length. *)
Lemma horizontal_part_length (v : Vector3.t) :
  Vector3.x v <> 0 \/ Vector3.z v <> 0 -> Vector3.length v <> 0.
Proof.
  intros H E. apply length_zero_iff in E. apply lengthSq_zero in E. subst v.
  destruct H as [H|H]; apply H; reflexivity.
Qed.

(** The normalised tangent of such a vector: a unit vector that is not
    vertical either. *)
Lemma normalize_not_vertical (v : Vector3.t) :
  Vector3.x v <> 0 \/ Vector3.z v <> 0 ->
  Vector3.length (Vector3.normalize v) = 1 /\
  (Vector3.x (Vector3.normalize v) <> 0 \/ Vector3.z (Vector3.normalize v) <> 0).
Proof.
  intros H. pose proof (horizontal_part_length v H) as Hl.
  split; [apply normalize_length; exact Hl|].
  rewrite normalize_scaled by exact Hl.
  unfold Vector3.multiplyScalar. cbn [Vector3.x Vector3.z].
  assert (Hi : / Vector3.length v <> 0) by (apply Rinv_neq_0_compat; exact Hl).
  destruct H as [H|H]; [left | right]; apply Rmult_integral_contrapositive; auto.
Qed.

(** World up projected off a unit vector that is not vertical does
    not vanish. *)
Lemma reject_ey_length (f : Vector3.t) :
  Vector3.length f = 1 -> Vector3.x f <> 0 \/ Vector3.z f <> 0 ->
  Vector3.length (Hybrid.reject (Vector3.mk 0 1 0) f) <> 0.
Proof.
  intros Hf Hh. apply length_one_iff in Hf.
  apply length_pos_of_lengthSq. rewrite lengthSq_reject by exact Hf.
  unfold Vector3.lengthSq, Vector3.dot in *. cbn [Vector3.x Vector3.y Vector3.z].
  assert (0 < Vector3.x f * Vector3.x f + Vector3.z f * Vector3.z f).
  { destruct Hh as [H|H].
    - assert (0 < Vector3.x f * Vector3.x f) by nra. nra.
    - assert (0 < Vector3.z f * Vector3.z f) by nra. nra. }
  nra.
Qed.

(** The choice every frame computation ends with: the projected
    vector normalised when it is long enough, world up projected off
    the tangent otherwise. *)
Lemma up_or_fallback (v f : Vector3.t) (b : bool) :
  Vector3.length f = 1 -> Vector3.x f <> 0 \/ Vector3.z f <> 0 ->
  (b = true -> Vector3.length v <> 0) ->
  Vector3.dot v f = 0 ->
  let up := if b then Vector3.normalize v
            else Vector3.normalize (Hybrid.reject (Vector3.mk 0 1 0) f) in
  Vector3.length up = 1 /\ Vector3.dot up f = 0.
Proof.
  intros Hf Hh Hb Hd up. unfold up. destruct b.
  - specialize (Hb eq_refl). split; [apply normalize_length; exact Hb|].
    rewrite normalize_dot by exact Hb. rewrite Hd. unfold Rdiv. ring.
  - pose proof (reject_ey_length f Hf Hh) as Hl.
    split; [apply normalize_length; exact Hl|].
    rewrite normalize_dot by exact Hl.
    rewrite dot_reject by (apply length_one_iff; exact Hf). unfold Rdiv. ring.
Qed.

Lemma dot_cross_l (a b : Vector3.t) : Vector3.dot (Vector3.crossVectors a b) a = 0.
Proof. unfold Vector3.dot, Vector3.crossVectors. cbn [Vector3.x Vector3.y Vector3.z]. ring. Qed.

Lemma dot_cross_r (a b : Vector3.t) : Vector3.dot (Vector3.crossVectors a b) b = 0.
Proof. unfold Vector3.dot, Vector3.crossVectors. cbn [Vector3.x Vector3.y Vector3.z]. ring. Qed.

Lemma dot_comm (a b : Vector3.t) : Vector3.dot a b = Vector3.dot b a.
Proof. unfold Vector3.dot. ring. Qed.

Lemma computeLoopFrame_frame (spline_ : Curve.t) (splineT : R)
    (prevTangent prevUp : Vector3.t) (radius : R) :
  Vector3.x (Curve.getTangent spline_ splineT) <> 0
  \/ Vector3.z (Curve.getTangent spline_ splineT) <> 0 ->
  let frame := Hybrid.computeLoopFrame spline_ splineT prevTangent prevUp radius in
  orthonormal (Hybrid.forward frame) (Hybrid.up frame) /\
  Hybrid.right frame = Vector3.crossVectors (Hybrid.forward frame) (Hybrid.up frame) /\
  Vector3.length (Hybrid.right frame) = 1.
Proof.
  intros Hh frame.
  destruct (normalize_not_vertical _ Hh) as [Hf Hnv].
  unfold frame, Hybrid.computeLoopFrame.
  cbn [Hybrid.forward Hybrid.up Hybrid.right].
  set (forward := Vector3.normalize (Curve.getTangent spline_ splineT)) in *.
  set (dot := Hybrid.clampDot (Vector3.dot prevTangent forward)).
  set (e := if JsNum.gtb dot 0.9999 then prevUp
            else if JsNum.ltb dot (- 0.9999) then prevUp
            else if JsNum.gtb (Vector3.length (Vector3.crossVectors prevTangent forward)) 0.0001
                 then Quaternion.applyQuaternion prevUp
                        (Quaternion.setFromAxisAngle
                           (Vector3.normalize (Vector3.crossVectors prevTangent forward))
                           (acos dot))
                 else prevUp).
  set (v := Hybrid.reject e forward).
  destruct (up_or_fallback v forward (JsNum.gtb (Vector3.length v) 0.001) Hf Hnv)
    as [Hu Hd].
  { intros Hb. apply ltb_spec in Hb. lra. }
  { apply dot_reject. apply length_one_iff. exact Hf. }
  set (up := if JsNum.gtb (Vector3.length v) 0.001 then Vector3.normalize v
             else Vector3.normalize (Hybrid.reject (Vector3.mk 0 1 0) forward)) in *.
  assert (Hon : orthonormal forward up).
  { repeat split; auto. rewrite dot_comm. exact Hd. }
  split; [exact Hon|].
  rewrite (normalize_unit _ (cross_unit _ _ Hon)).
  split; [reflexivity | apply cross_unit; exact Hon].
Qed.

(** X19.  Where the tangent of the spline is neither zero nor
    vertical, [computeLoopFrame] yields a right-handed orthonormal
    frame, whatever frame it is handed to transport: the forward and
    up vectors are unit vectors at a right angle, and the right vector
    is their cross product, a unit vector at a right angle to both.
    The frame sits at the point of the spline and has the given
    radius. *)
Theorem computeLoopFrame_orthonormal (spline_ : Curve.t) (splineT : R)
    (prevTangent prevUp : Vector3.t) (radius : R) :
  Vector3.x (Curve.getTangent spline_ splineT) <> 0
  \/ Vector3.z (Curve.getTangent spline_ splineT) <> 0 ->
  let frame := Hybrid.computeLoopFrame spline_ splineT prevTangent prevUp radius in
  orthonormal (Hybrid.forward frame) (Hybrid.up frame) /\
  Hybrid.right frame = Vector3.crossVectors (Hybrid.forward frame) (Hybrid.up frame) /\
  Vector3.length (Hybrid.right frame) = 1 /\
  Vector3.dot (Hybrid.right frame) (Hybrid.forward frame) = 0 /\
  Vector3.dot (Hybrid.right frame) (Hybrid.up frame) = 0 /\
  Hybrid.forward frame = Vector3.normalize (Curve.getTangent spline_ splineT) /\
  Hybrid.entryPos frame = Curve.getPoint spline_ splineT /\
  Hybrid.lf_radius frame = radius.
Proof.
  intros Hh frame.
  destruct (computeLoopFrame_frame spline_ splineT prevTangent prevUp radius Hh)
    as [Hon [Hr Hl]]. fold frame in Hon, Hr, Hl.
  repeat split; try apply Hon; auto.
  - rewrite Hr. apply dot_cross_l.
  - rewrite Hr. apply dot_cross_r.
Qed.

Lemma computeLoopFrame_orthonormal_witness :
  let frame := Hybrid.computeLoopFrame lineCurve 0 ex ey 2 in
  orthonormal (Hybrid.forward frame) (Hybrid.up frame) /\
  Hybrid.right frame = Vector3.crossVectors (Hybrid.forward frame) (Hybrid.up frame) /\
  Vector3.length (Hybrid.right frame) = 1 /\
  Vector3.dot (Hybrid.right frame) (Hybrid.forward frame) = 0 /\
  Vector3.dot (Hybrid.right frame) (Hybrid.up frame) = 0 /\
  Hybrid.forward frame = Vector3.normalize (Curve.getTangent lineCurve 0) /\
  Hybrid.entryPos frame = Curve.getPoint lineCurve 0 /\
  Hybrid.lf_radius frame = 2.
Proof.
  apply (computeLoopFrame_orthonormal lineCurve 0 ex ey 2).
  left. simpl. lra.
Defined.


(** ** The section table over a spline that is nowhere vertical *)

Lemma wellFormed_setProgress (s : Hybrid.TrackSection) (a b : R) :
  wellFormed s -> wellFormed (Hybrid.setProgress s a b).
Proof. intros H. exact H. Qed.

Lemma normalizeFrom_wellFormed (acc r : R) (l : list Hybrid.TrackSection) :
  Forall wellFormed l -> Forall wellFormed (Hybrid.normalizeFrom acc r l).
Proof.
  revert r. induction l as [|s l IH]; intros r H; [constructor|].
  inversion H; subst. cbn [Hybrid.normalizeFrom].
  constructor; [apply wellFormed_setProgress; assumption | apply IH; assumption].
Qed.

Lemma walkStep_wellFormed curve segs isLooped n pix w ip :
  (forall t, Vector3.x (Curve.getTangent curve t) <> 0
             \/ Vector3.z (Curve.getTangent curve t) <> 0) ->
  Forall wellFormed (Hybrid.sections w) ->
  Forall wellFormed (Hybrid.sections (Hybrid.walkStep curve segs isLooped n pix w ip)).
Proof.
  intros Ht Hw. destruct ip as [i p]. unfold Hybrid.walkStep.
  set (w1 := match Hybrid.loopMap_get segs (Store.id p) with
             | Some loopSeg => _
             | None => w
             end).
  assert (H1 : Forall wellFormed (Hybrid.sections w1)).
  { unfold w1. destruct (Hybrid.loopMap_get segs (Store.id p)) as [loopSeg|]; [|exact Hw].
    cbn [Hybrid.sections]. apply Forall_app. split; [exact Hw|].
    constructor; [|constructor].
    unfold wellFormed. cbn [Hybrid.type Hybrid.loopFrame].
    apply computeLoopFrame_frame. apply Ht. }
  destruct ((n - 1 <=? i)%nat && negb isLooped); [exact H1|].
  cbn [Hybrid.sections]. apply Forall_app. split; [exact H1|].
  constructor; [|constructor].
  unfold wellFormed. cbn [Hybrid.type Hybrid.loopFrame Hybrid.splineStartT Hybrid.splineEndT].
  split; discriminate.
Qed.

Lemma sectionTable_wellFormed curve tps segs isLooped pix :
  (forall t, Vector3.x (Curve.getTangent curve t) <> 0
             \/ Vector3.z (Curve.getTangent curve t) <> 0) ->
  Forall wellFormed (fst (Hybrid.sectionTable curve tps segs isLooped pix)).
Proof.
  intros Ht. unfold Hybrid.sectionTable. cbn [fst]. unfold Hybrid.normalize.
  apply normalizeFrom_wellFormed. unfold Hybrid.walk.
  apply (fold_walk_invariant curve segs isLooped (List.length tps) pix
           (fun w => Forall wellFormed (Hybrid.sections w))).
  - intros w ip Hw. apply walkStep_wellFormed; assumption.
  - constructor.
Qed.

(** X20.  Over a spline whose tangent is nowhere zero or vertical,
    every section of the table the ride camera builds, and of the
    table the car builds, is well formed: a loop section carries an
    orthonormal frame, any other section its spline range.  These are
    the tables for which the hybrid sampler returns a sample with a
    unit up vector at a right angle to the tangent. *)
Theorem built_table_well_formed (catmullRom : Curve.constructor)
    (trackPoints : list Store.TrackPoint) (loopSegments : list Hybrid.LoopSegment)
    (isLooped : bool) :
  (forall t, Vector3.x (Curve.getTangent
                          (catmullRom (map Store.position trackPoints) isLooped) t) <> 0
             \/ Vector3.z (Curve.getTangent
                             (catmullRom (map Store.position trackPoints) isLooped) t) <> 0) ->
  Forall wellFormed
    (HybridRideCamera.sections
       (HybridRideCamera.trackMemo catmullRom trackPoints loopSegments isLooped)) /\
  Forall wellFormed (CoasterCar.sectionsMemo catmullRom trackPoints loopSegments isLooped).
Proof.
  intros Ht.
  destruct (Nat.lt_ge_cases (List.length trackPoints) 2) as [Hfew|Hlen].
  - unfold HybridRideCamera.trackMemo, CoasterCar.sectionsMemo.
    destruct (Nat.ltb_spec (List.length trackPoints) 2); [|lia].
    split; constructor.
  - destruct (trackMemo_table catmullRom trackPoints loopSegments isLooped Hlen) as [-> _].
    rewrite (sectionsMemo_table catmullRom trackPoints loopSegments isLooped Hlen).
    split; apply sectionTable_wellFormed; exact Ht.
Qed.

Lemma built_table_well_formed_witness :
  Forall wellFormed
    (HybridRideCamera.sections
       (HybridRideCamera.trackMemo (fun _ _ => lineCurve) linePoints lineLoop false)) /\
  Forall wellFormed (CoasterCar.sectionsMemo (fun _ _ => lineCurve) linePoints lineLoop false).
Proof.
  apply (built_table_well_formed (fun _ _ => lineCurve) linePoints lineLoop false).
  intros t. left. simpl. lra.
Defined.

(** ** Every progress has its section *)

Lemma find_cover (acc p : R) (l : list Hybrid.TrackSection) (r : R) :
  r / acc <= p -> p < (r + sumArcLength l) / acc ->
  exists s, Hybrid.findSection p (Hybrid.normalizeFrom acc r l) = Some s.
Proof.
  revert r. induction l as [|s l IH]; intros r Hlo Hhi.
  - cbn [sumArcLength fold_right] in Hhi. rewrite Rplus_0_r in Hhi. lra.
  - unfold Hybrid.findSection. cbn [Hybrid.normalizeFrom find].
    cbn [Hybrid.setProgress Hybrid.startProgress Hybrid.endProgress].
    rewrite (geb_true p (r / acc)) by exact Hlo. cbn [andb].
    destruct (JsNum.ltb p ((r + Hybrid.arcLength s) / acc)) eqn:E.
    + eexists. reflexivity.
    + apply ltb_false in E. apply (IH (r + Hybrid.arcLength s)); [exact E|].
      cbn [sumArcLength fold_right] in Hhi. fold (sumArcLength l) in Hhi.
      rewrite Rplus_assoc. exact Hhi.
Qed.

(** X21.  In a table built from at least two track points, with a
    total length that is not zero, every progress from 0 up to but not
    including 1 lies in the range of a section of the table, and the
    search of the sampler finds one: the fallback to the last section
    is not taken, and the local parameter of the sample lies between 0
    and 1. *)
Theorem progress_has_its_section (curve : Curve.t) (trackPoints : list Store.TrackPoint)
    (loopSegments : list Hybrid.LoopSegment) (isLooped : bool)
    (pointIndexOf : nat -> option nat) (p : R) :
  (2 <= List.length trackPoints)%nat ->
  snd (Hybrid.sectionTable curve trackPoints loopSegments isLooped pointIndexOf) <> 0 ->
  0 <= p < 1 ->
  let table := fst (Hybrid.sectionTable curve trackPoints loopSegments isLooped pointIndexOf) in
  exists s,
    Hybrid.findSection p table = Some s /\
    In s table /\
    Hybrid.startProgress s <= p < Hybrid.endProgress s /\
    0 <= (p - Hybrid.startProgress s) / (Hybrid.endProgress s - Hybrid.startProgress s) < 1 /\
    Hybrid.findSection (Hybrid.clampProgress p) table <> None.
Proof.
  intros Hlen Htot Hp table.
  unfold Hybrid.sectionTable in *. cbn [fst snd] in *. unfold Hybrid.normalize in *.
  set (w := Hybrid.walk curve trackPoints loopSegments isLooped pointIndexOf) in *.
  pose proof (walk_accumulated curve trackPoints loopSegments isLooped pointIndexOf) as Hacc.
  fold w in Hacc.
  assert (Hcover : forall q, 0 <= q < 1 -> exists s, Hybrid.findSection q table = Some s).
  { intros q Hq. unfold table. apply find_cover.
    - unfold Rdiv. rewrite Rmult_0_l. lra.
    - rewrite Rplus_0_l, <- Hacc. unfold Rdiv. rewrite Rinv_r by exact Htot. lra. }
  destruct (Hcover p Hp) as [s Hs]. exists s.
  pose proof Hs as Hfind. unfold Hybrid.findSection in Hfind. apply find_some in Hfind.
  destruct Hfind as [Hin Hb]. apply andb_true_iff in Hb. destruct Hb as [Hge Hlt].
  apply leb_spec in Hge. apply ltb_spec in Hlt.
  split; [exact Hs|]. split; [exact Hin|]. split; [lra|]. split.
  - assert (Hd : 0 < Hybrid.endProgress s - Hybrid.startProgress s) by lra.
    split.
    + apply Rmult_le_pos; [lra|]. left. apply Rinv_0_lt_compat. exact Hd.
    + apply (Rmult_lt_reg_r (Hybrid.endProgress s - Hybrid.startProgress s)); [exact Hd|].
      unfold Rdiv. rewrite Rmult_assoc, Rinv_l by lra. lra.
  - destruct (Hcover (Hybrid.clampProgress p)) as [s' Hs'].
    + pose proof (clampProgress_range p). lra.
    + rewrite Hs'. discriminate.
Qed.

Lemma progress_has_its_section_witness :
  let table := fst (Hybrid.sectionTable lineCurve linePoints lineLoop false Some) in
  exists s,
    Hybrid.findSection 0.75 table = Some s /\
    In s table /\
    Hybrid.startProgress s <= 0.75 < Hybrid.endProgress s /\
    0 <= (0.75 - Hybrid.startProgress s) / (Hybrid.endProgress s - Hybrid.startProgress s) < 1 /\
    Hybrid.findSection (Hybrid.clampProgress 0.75) table <> None.
Proof.
  apply (progress_has_its_section lineCurve linePoints lineLoop false Some 0.75).
  - simpl. lia.
  - rewrite line_table. simpl. lra.
  - lra.
Defined.

(** ** The first peak *)

Lemma plain_scan_range (curve : Curve.t) (fuel : nat) (t : R) (st : RideCamera.Scan) :
  0 <= t -> 0 <= RideCamera.peakT st <= 0.5 ->
  0 <= RideCamera.peakT (RideCamera.scanFrom fuel curve t st) <= 0.5.
Proof.
  revert t st. induction fuel as [|fuel IH]; intros t st Ht Hst; [exact Hst|].
  cbn [RideCamera.scanFrom].
  destruct (JsNum.leb t 0.5) eqn:E; [|exact Hst].
  apply leb_spec in E.
  set (found := RideCamera.foundClimb st
                || JsNum.gtb (Vector3.y (Curve.getTangent curve t)) 0.1).
  set (st' := if found && HybridRideCamera.above (Vector3.y (Curve.getPoint curve t))
                            (RideCamera.maxHeight st)
              then RideCamera.mkScan (Some (Vector3.y (Curve.getPoint curve t))) t found
              else RideCamera.mkScan (RideCamera.maxHeight st) (RideCamera.peakT st) found).
  assert (Hst' : 0 <= RideCamera.peakT st' <= 0.5).
  { unfold st'. destruct (found && _); cbn [RideCamera.peakT]; lra. }
  destruct (found && JsNum.ltb (Vector3.y (Curve.getTangent curve t)) (- 0.1)
            && JsNum.gtb t (RideCamera.peakT st')); [exact Hst'|].
  apply IH; [lra | exact Hst'].
Qed.

Lemma hybrid_scan_range (l : list Hybrid.TrackSection) (curve : Curve.t) (fuel : nat) (p : R)
    (st : HybridRideCamera.Scan) :
  0 <= p -> 0 <= HybridRideCamera.peakProgress st <= 0.5 ->
  0 <= HybridRideCamera.peakProgress (HybridRideCamera.scanFrom fuel l curve p st) <= 0.5.
Proof.
  revert p st. induction fuel as [|fuel IH]; intros p st Hp Hst; [exact Hst|].
  cbn [HybridRideCamera.scanFrom].
  destruct (JsNum.leb p 0.5) eqn:E; [|exact Hst].
  apply leb_spec in E.
  destruct (Hybrid.sampleHybridTrack p l curve) as [sample|]; [|apply IH; [lra | exact Hst]].
  set (found := HybridRideCamera.foundClimb st
                || JsNum.gtb (Vector3.y (Hybrid.tangent sample)) 0.1).
  set (st' := if found && HybridRideCamera.above (Vector3.y (Hybrid.point sample))
                            (HybridRideCamera.maxHeight st)
              then HybridRideCamera.mkScan (Some (Vector3.y (Hybrid.point sample))) p found
              else HybridRideCamera.mkScan (HybridRideCamera.maxHeight st)
                     (HybridRideCamera.peakProgress st) found).
  assert (Hst' : 0 <= HybridRideCamera.peakProgress st' <= 0.5).
  { unfold st'. destruct (found && _); cbn [HybridRideCamera.peakProgress]; lra. }
  destruct (found && JsNum.ltb (Vector3.y (Hybrid.tangent sample)) (- 0.1)
            && JsNum.gtb p (HybridRideCamera.peakProgress st')); [exact Hst'|].
  apply IH; [lra | exact Hst'].
Qed.

(** X23.  The first peak lies in the first half of the track.  For a
    track of at least two points the plain ride camera's [firstPeakT]
    is above 0 and at most 0.5, so that with the chain lift on a ride
    always starts on the chain; the hybrid ride camera's
    [firstPeakProgress] is between 0 and 0.5.  With fewer points they
    are 0 and 0.2.  From half way on, neither camera is on the chain
    any more. *)
Theorem first_peak_in_first_half (cfg : Scale.t) (catmullRom : Curve.constructor)
    (trackPoints : list Store.TrackPoint) (loopSegments : list Hybrid.LoopSegment)
    (isLooped : bool) :
  let firstPeakT := RideCamera.firstPeakT catmullRom trackPoints isLooped in
  let firstPeakProgress :=
    HybridRideCamera.firstPeakProgress
      (HybridRideCamera.trackMemo catmullRom trackPoints loopSegments isLooped) in
  ((List.length trackPoints < 2)%nat -> firstPeakT = 0 /\ firstPeakProgress = 0.2) /\
  ((2 <= List.length trackPoints)%nat ->
   0 < firstPeakT <= 0.5 /\ 0 <= firstPeakProgress <= 0.5 /\
   forall rideSpeed maxHeight height,
     RideCamera.speedPhase cfg true 0 firstPeakT rideSpeed maxHeight height
     = (Scale.CHAIN_SPEED cfg * rideSpeed, Rmax maxHeight height)) /\
  (forall hasChainLift progress rideSpeed maxHeight height,
     0.5 <= progress ->
     HybridRideCamera.speedPhase hasChainLift progress firstPeakProgress rideSpeed
       maxHeight height = (12 * rideSpeed, maxHeight) /\
     fst (RideCamera.speedPhase cfg hasChainLift progress firstPeakT rideSpeed
            maxHeight height)
     = Rmax (Scale.MIN_RIDE_SPEED cfg)
         (sqrt (2 * (9.8 * Scale.GRAVITY_SCALE cfg)
                * Rmax 0 (Rmax maxHeight height - height)))
       * rideSpeed).
Proof.
  intros firstPeakT firstPeakProgress.
  assert (Hplain : 0 <= firstPeakT <= 0.5 /\
                   ((2 <= List.length trackPoints)%nat -> 0 < firstPeakT)).
  { unfold firstPeakT, RideCamera.firstPeakT.
    destruct (Nat.ltb_spec (List.length trackPoints) 2) as [Hlt|Hge].
    - split; [lra | lia].
    - unfold Hybrid.getTrackCurve.
      destruct (Nat.ltb_spec (List.length trackPoints) 2); [lia|].
      set (curve := catmullRom (map Store.position trackPoints) isLooped).
      pose proof (plain_scan_range curve 52 0 (RideCamera.mkScan None 0 false)
                    ltac:(lra) ltac:(cbn; lra)) as Hr.
      set (peak := RideCamera.peakT _) in *.
      destruct (JsNum.gtb peak 0) eqn:E.
      + apply ltb_spec in E. split; [lra | intros _; exact E].
      + split; [lra | intros _; lra]. }
  assert (Hhyb : 0 <= firstPeakProgress <= 0.5).
  { unfold firstPeakProgress, HybridRideCamera.trackMemo.
    destruct (Nat.ltb_spec (List.length trackPoints) 2) as [Hlt|Hge].
    - cbn. lra.
    - unfold Hybrid.getTrackCurve.
      destruct (Nat.ltb_spec (List.length trackPoints) 2); [lia|].
      destruct (Hybrid.sectionTable _ _ _ _ _) as [table total].
      cbn [HybridRideCamera.firstPeakProgress]. unfold HybridRideCamera.firstPeak.
      apply hybrid_scan_range; cbn; lra. }
  split; [|split].
  - intros Hlt. unfold firstPeakT, firstPeakProgress, RideCamera.firstPeakT,
      HybridRideCamera.trackMemo.
    destruct (Nat.ltb_spec (List.length trackPoints) 2); [|lia]. split; reflexivity.
  - intros Hge. destruct Hplain as [Hr Hpos]. specialize (Hpos Hge).
    split; [lra|]. split; [exact Hhyb|].
    intros rideSpeed maxHeight height. unfold RideCamera.speedPhase.
    rewrite (ltb_true 0 firstPeakT) by exact Hpos. reflexivity.
  - intros hasChainLift progress rideSpeed maxHeight height Hp.
    unfold HybridRideCamera.speedPhase, RideCamera.speedPhase.
    rewrite (ltb_ge progress firstPeakProgress) by lra.
    rewrite (ltb_ge progress firstPeakT) by lra.
    rewrite andb_false_r. cbn [fst]. split; [f_equal; lra | reflexivity].
Qed.


Lemma first_peak_in_first_half_witness :
  0 < RideCamera.firstPeakT (fun _ _ => lineCurve) linePoints false <= 0.5 /\
  0 <= HybridRideCamera.firstPeakProgress
         (HybridRideCamera.trackMemo (fun _ _ => lineCurve) linePoints lineLoop false) <= 0.5 /\
  forall rideSpeed maxHeight height,
    RideCamera.speedPhase config true 0
      (RideCamera.firstPeakT (fun _ _ => lineCurve) linePoints false) rideSpeed maxHeight height
    = (Scale.CHAIN_SPEED config * rideSpeed, Rmax maxHeight height).
Proof.
  apply (proj1 (proj2 (first_peak_in_first_half config (fun _ _ => lineCurve) linePoints
                         lineLoop false))).
  simpl. lia.
Defined.

(** ** Frames of a ride *)

Lemma plain_speed_nonneg (cfg : Scale.t) (b : bool) (p fp rs m h : R) :
  0 <= Scale.CHAIN_SPEED cfg -> 0 <= rs ->
  0 <= fst (RideCamera.speedPhase cfg b p fp rs m h).
Proof.
  intros Hc Hrs. unfold RideCamera.speedPhase.
  destruct (b && JsNum.ltb p fp); cbn [fst].
  - apply Rmult_le_pos; assumption.
  - apply Rmult_le_pos; [|exact Hrs].
    eapply Rle_trans; [apply sqrt_pos | apply Rmax_r].
Qed.

Lemma hybrid_speed_nonneg (b : bool) (p fp rs m h : R) :
  0 <= rs -> 0 <= fst (HybridRideCamera.speedPhase b p fp rs m h).
Proof.
  intros Hrs. unfold HybridRideCamera.speedPhase.
  destruct (b && JsNum.ltb p fp); cbn [fst]; lra.
Qed.

Lemma step_nonneg (speed delta len : R) :
  0 <= speed -> 0 <= delta -> 0 < len -> 0 <= speed * delta / len.
Proof.
  intros Hs Hd Hl. apply Rmult_le_pos; [apply Rmult_le_pos; assumption|].
  left. apply Rinv_0_lt_compat. exact Hl.
Qed.

Lemma setRideProgress_fields (p : R) (w : Store.World) :
  Store.rideProgress (fst (Store.setRideProgress p w)) = p /\
  Store.rideSpeed (fst (Store.setRideProgress p w)) = Store.rideSpeed (fst w) /\
  Store.hasChainLift (fst (Store.setRideProgress p w)) = Store.hasChainLift (fst w) /\
  Store.isLooped (fst (Store.setRideProgress p w)) = Store.isLooped (fst w) /\
  Store.trackPoints (fst (Store.setRideProgress p w)) = Store.trackPoints (fst w).
Proof. destruct w as [s c]. repeat split. Qed.

Lemma stopRide_fields (w : Store.World) :
  Store.rideProgress (fst (Store.stopRide w)) = 0 /\
  Store.rideSpeed (fst (Store.stopRide w)) = Store.rideSpeed (fst w) /\
  Store.hasChainLift (fst (Store.stopRide w)) = Store.hasChainLift (fst w) /\
  Store.isLooped (fst (Store.stopRide w)) = Store.isLooped (fst w) /\
  Store.trackPoints (fst (Store.stopRide w)) = Store.trackPoints (fst w).
Proof. destruct w as [s c]. repeat split. Qed.

Lemma plain_frame_keeps (cfg : Scale.t) (curve : Curve.t) (firstPeakT delta : R)
    (st : RideCamera.RideState) :
  0 <= Scale.CHAIN_SPEED cfg -> 0 < Curve.getLength curve -> 0 <= delta ->
  0 <= Store.rideSpeed (fst (RideCamera.world st)) ->
  0 <= Store.rideProgress (fst (RideCamera.world st)) < 1 ->
  Rides.plainKeeps st (RideCamera.useFrame cfg (Some curve) firstPeakT delta st).
Proof.
  intros Hc Hl Hd Hrs Hp. unfold Rides.plainKeeps, Rides.keeps, RideCamera.useFrame. cbv zeta.
  set (s := fst (RideCamera.world st)) in *.
  destruct (Store.isRiding s); cbn [negb].
  2:{ fold s. repeat split; try lra. }
  set (h := Vector3.y (Curve.getPoint curve (Store.rideProgress s))).
  pose proof (plain_speed_nonneg cfg (Store.hasChainLift s) (Store.rideProgress s) firstPeakT
                (Store.rideSpeed s) (RideCamera.maxHeightReached (RideCamera.refs st)) h
                Hc Hrs) as Hsp.
  assert (Hm : RideCamera.maxHeightReached (RideCamera.refs st)
               <= snd (RideCamera.speedPhase cfg (Store.hasChainLift s) (Store.rideProgress s)
                         firstPeakT (Store.rideSpeed s)
                         (RideCamera.maxHeightReached (RideCamera.refs st)) h)).
  { unfold RideCamera.speedPhase. destruct (_ && _); cbn [snd]; apply Rmax_l. }
  destruct (RideCamera.speedPhase cfg (Store.hasChainLift s) (Store.rideProgress s)
              firstPeakT (Store.rideSpeed s)
              (RideCamera.maxHeightReached (RideCamera.refs st)) h) as [speed maxHeight].
  cbn [fst snd] in Hsp, Hm.
  pose proof (step_nonneg speed delta (Curve.getLength curve) Hsp Hd Hl) as Hstep.
  set (newProgress := Store.rideProgress s + speed * delta / Curve.getLength curve) in *.
  assert (Hnp : Store.rideProgress s <= newProgress) by (unfold newProgress; lra).
  destruct (JsNum.geb newProgress 1) eqn:E.
  - apply leb_spec in E. destruct (Store.isLooped s) eqn:El.
    + unfold RideCamera.moveTo. cbn [RideCamera.world RideCamera.refs
                                      RideCamera.maxHeightReached].
      destruct (setRideProgress_fields (JsNum.rem newProgress 1) (RideCamera.world st))
        as (-> & -> & -> & -> & ->).
      destruct (rem_one newProgress E) as [_ Hr]. fold s.
      repeat split; try lra; auto.
      intros [Hcl|Hlo]; [rewrite Hcl; exact Hm | congruence].
    + cbn [RideCamera.world RideCamera.refs RideCamera.maxHeightReached].
      destruct (stopRide_fields (RideCamera.world st)) as (-> & -> & -> & -> & ->). fold s.
      repeat split; try lra; auto.
  - apply leb_false in E.
    unfold RideCamera.moveTo. cbn [RideCamera.world RideCamera.refs
                                    RideCamera.maxHeightReached].
    destruct (setRideProgress_fields newProgress (RideCamera.world st))
      as (-> & -> & -> & -> & ->). fold s.
    repeat split; try lra; auto.
Qed.

(** X24.  Over any number of frames of the plain ride camera, for
    frame times that are not negative, a ride speed and a chain speed
    that are not negative and a curve of positive length: the ride
    progress stays from 0 up to but not including 1, the settings of
    the ride stay as they were, and the height tracker never falls
    unless the track is closed and the chain lift is on. *)
Theorem plain_ride_keeps_progress (cfg : Scale.t) (curve : Curve.t) (firstPeakT : R)
    (deltas : list R) (st : RideCamera.RideState) :
  0 <= Scale.CHAIN_SPEED cfg -> 0 < Curve.getLength curve ->
  Forall (fun delta => 0 <= delta) deltas ->
  0 <= Store.rideSpeed (fst (RideCamera.world st)) ->
  0 <= Store.rideProgress (fst (RideCamera.world st)) < 1 ->
  Rides.plainKeeps st (RideCamera.frames cfg (Some curve) firstPeakT deltas st).
Proof.
  intros Hc Hl Hds. unfold RideCamera.frames. revert st.
  induction Hds as [|delta deltas Hd Hds IH]; intros st Hrs Hp.
  - cbn [fold_left]. unfold Rides.plainKeeps, Rides.keeps. repeat split; try lra.
  - cbn [fold_left].
    pose proof (plain_frame_keeps cfg curve firstPeakT delta st Hc Hl Hd Hrs Hp) as H1.
    set (st1 := RideCamera.useFrame cfg (Some curve) firstPeakT delta st) in *.
    destruct H1 as (Hp1 & Hrs1 & Hcl1 & Hlo1 & Htp1 & Hm1).
    assert (Hrs' : 0 <= Store.rideSpeed (fst (RideCamera.world st1))) by (rewrite Hrs1; exact Hrs).
    destruct (IH st1 Hrs' Hp1) as (Hp2 & Hrs2 & Hcl2 & Hlo2 & Htp2 & Hm2).
    unfold Rides.plainKeeps, Rides.keeps. repeat split; try lra; try congruence.
    intros Hor. eapply Rle_trans; [apply Hm1; exact Hor|].
    apply Hm2. rewrite Hcl1, Hlo1. exact Hor.
Qed.

Lemma plain_ride_keeps_progress_witness :
  Rides.plainKeeps plainStart (RideCamera.frames config (Some lineCurve) 0.2 [0.1; 0.25; 3] plainStart).
Proof.
  apply (plain_ride_keeps_progress config lineCurve 0.2 [0.1; 0.25; 3] plainStart).
  - simpl. lra.
  - simpl. lra.
  - repeat (constructor; [lra|]). constructor.
  - simpl. lra.
  - simpl. lra.
Defined.

Lemma keeps_refl (w : Store.World) (m : R) :
  0 <= Store.rideProgress (fst w) < 1 -> Rides.keeps w m w m.
Proof. intros H. unfold Rides.keeps. repeat split; try lra. Qed.

Lemma keeps_trans (w1 w2 w3 : Store.World) (m1 m2 m3 : R) :
  Rides.keeps w1 m1 w2 m2 -> Rides.keeps w2 m2 w3 m3 -> Rides.keeps w1 m1 w3 m3.
Proof.
  unfold Rides.keeps. intros (Hp1 & Hrs1 & Hcl1 & Hlo1 & Htp1 & Hm1)
                             (Hp2 & Hrs2 & Hcl2 & Hlo2 & Htp2 & Hm2).
  repeat split; try lra; try congruence.
  intros Hor. eapply Rle_trans; [apply Hm1; exact Hor|].
  apply Hm2. rewrite Hcl1, Hlo1. exact Hor.
Qed.

Lemma hybrid_moveTo_fields (memo : HybridRideCamera.TrackMemo) (curve : Curve.t)
    (newProgress maxHeight : R) (st : HybridRideCamera.RideState) :
  HybridRideCamera.world (HybridRideCamera.moveTo memo curve newProgress maxHeight st)
  = Store.setRideProgress newProgress (HybridRideCamera.world st) /\
  HybridRideCamera.maxHeightReached
    (HybridRideCamera.refs (HybridRideCamera.moveTo memo curve newProgress maxHeight st))
  = maxHeight.
Proof.
  unfold HybridRideCamera.moveTo.
  destruct (Hybrid.sampleHybridTrack newProgress (HybridRideCamera.sections memo) curve);
    split; reflexivity.
Qed.

Lemma hybrid_frame_keeps (curveRef : option Curve.t) (memo : HybridRideCamera.TrackMemo)
    (delta : R) (st : HybridRideCamera.RideState) :
  0 < HybridRideCamera.totalArcLength memo -> 0 <= delta ->
  0 <= Store.rideSpeed (fst (HybridRideCamera.world st)) ->
  0 <= Store.rideProgress (fst (HybridRideCamera.world st)) < 1 ->
  Rides.hybridKeeps st (HybridRideCamera.useFrame curveRef memo delta st).
Proof.
  intros Hl Hd Hrs Hp. unfold Rides.hybridKeeps, HybridRideCamera.useFrame. cbv zeta.
  set (s := fst (HybridRideCamera.world st)) in *.
  destruct (Store.isRiding s); cbn [negb]; [|apply keeps_refl; exact Hp].
  destruct curveRef as [curve|]; [|apply keeps_refl; exact Hp].
  destruct (HybridRideCamera.sections memo) as [|first rest] eqn:Es;
    [apply keeps_refl; exact Hp|].
  destruct (Hybrid.sampleHybridTrack (Store.rideProgress s) (first :: rest) curve)
    as [currentSample|]; [|apply keeps_refl; exact Hp].
  set (h := Vector3.y (Hybrid.point currentSample)).
  pose proof (hybrid_speed_nonneg (Store.hasChainLift s) (Store.rideProgress s)
                (HybridRideCamera.firstPeakProgress memo) (Store.rideSpeed s)
                (HybridRideCamera.maxHeightReached (HybridRideCamera.refs st)) h Hrs) as Hsp.
  assert (Hm : HybridRideCamera.maxHeightReached (HybridRideCamera.refs st)
               <= snd (HybridRideCamera.speedPhase (Store.hasChainLift s)
                         (Store.rideProgress s) (HybridRideCamera.firstPeakProgress memo)
                         (Store.rideSpeed s)
                         (HybridRideCamera.maxHeightReached (HybridRideCamera.refs st)) h)).
  { unfold HybridRideCamera.speedPhase. destruct (_ && _); cbn [snd];
      [apply Rmax_l | lra]. }
  destruct (HybridRideCamera.speedPhase (Store.hasChainLift s) (Store.rideProgress s)
              (HybridRideCamera.firstPeakProgress memo) (Store.rideSpeed s)
              (HybridRideCamera.maxHeightReached (HybridRideCamera.refs st)) h)
    as [speed maxHeight].
  cbn [fst snd] in Hsp, Hm.
  pose proof (step_nonneg speed delta (HybridRideCamera.totalArcLength memo) Hsp Hd Hl)
    as Hstep.
  set (newProgress :=
         Store.rideProgress s + speed * delta / HybridRideCamera.totalArcLength memo) in *.
  assert (Hnp : Store.rideProgress s <= newProgress) by (unfold newProgress; lra).
  unfold Rides.keeps.
  destruct (JsNum.geb newProgress 1) eqn:E.
  - apply leb_spec in E. destruct (Store.isLooped s) eqn:El.
    + match goal with
      | |- context [HybridRideCamera.moveTo memo curve ?p ?m st] =>
          destruct (hybrid_moveTo_fields memo curve p m st) as [-> ->]
      end.
      destruct (setRideProgress_fields (JsNum.rem newProgress 1) (HybridRideCamera.world st))
        as (-> & -> & -> & -> & ->).
      destruct (rem_one newProgress E) as [_ Hr]. fold s.
      repeat split; try lra; auto.
      intros [Hcl|Hlo]; [rewrite Hcl; exact Hm | congruence].
    + cbn [HybridRideCamera.world HybridRideCamera.refs HybridRideCamera.maxHeightReached].
      destruct (stopRide_fields (HybridRideCamera.world st)) as (-> & -> & -> & -> & ->).
      fold s. repeat split; try lra; auto.
  - apply leb_false in E.
    destruct (hybrid_moveTo_fields memo curve newProgress maxHeight st) as [-> ->].
    destruct (setRideProgress_fields newProgress (HybridRideCamera.world st))
      as (-> & -> & -> & -> & ->). fold s.
    repeat split; try lra; auto.
Qed.

(** X25.  Over any number of frames of the ride camera on the hybrid
    track, for frame times and a ride speed that are not negative and
    a table of positive total length: the ride progress stays from 0
    up to but not including 1, the settings of the ride and the track
    stay as they were, and the height tracker never falls unless the
    track is closed and the chain lift is on.  This holds with or
    without a curve, and whatever the table holds. *)
Theorem hybrid_ride_keeps_progress (curveRef : option Curve.t)
    (memo : HybridRideCamera.TrackMemo) (deltas : list R) (st : HybridRideCamera.RideState) :
  0 < HybridRideCamera.totalArcLength memo ->
  Forall (fun delta => 0 <= delta) deltas ->
  0 <= Store.rideSpeed (fst (HybridRideCamera.world st)) ->
  0 <= Store.rideProgress (fst (HybridRideCamera.world st)) < 1 ->
  Rides.hybridKeeps st (Rides.hybridFrames curveRef memo deltas st).
Proof.
  intros Hl Hds. unfold Rides.hybridFrames. revert st.
  induction Hds as [|delta deltas Hd Hds IH]; intros st Hrs Hp.
  - cbn [fold_left]. apply keeps_refl. exact Hp.
  - cbn [fold_left].
    pose proof (hybrid_frame_keeps curveRef memo delta st Hl Hd Hrs Hp) as H1.
    set (st1 := HybridRideCamera.useFrame curveRef memo delta st) in *.
    pose proof H1 as (Hp1 & Hrs1 & _).
    assert (Hrs' : 0 <= Store.rideSpeed (fst (HybridRideCamera.world st1)))
      by (rewrite Hrs1; exact Hrs).
    unfold Rides.hybridKeeps in *.
    eapply keeps_trans; [exact H1 | apply IH; assumption].
Qed.

Lemma hybrid_ride_keeps_progress_witness :
  Rides.hybridKeeps lineStart
    (Rides.hybridFrames (Some lineCurve) lineMemo [0.1; 0.25; 3] lineStart).
Proof.
  apply (hybrid_ride_keeps_progress (Some lineCurve) lineMemo [0.1; 0.25; 3] lineStart).
  - rewrite lineMemo_total. lra.
  - repeat (constructor; [lra|]). constructor.
  - simpl. lra.
  - simpl. lra.
Defined.

(** ** The up vector of the camera *)

Lemma stableUp_frame (previousUp tangent : Vector3.t) :
  Vector3.length tangent = 1 -> Vector3.x tangent <> 0 \/ Vector3.z tangent <> 0 ->
  Vector3.length (RideCamera.stableUp previousUp tangent) = 1 /\
  Vector3.dot (RideCamera.stableUp previousUp tangent) tangent = 0.
Proof.
  intros Ht Hh. unfold RideCamera.stableUp.
  apply (up_or_fallback (Hybrid.reject previousUp tangent) tangent
           (JsNum.gtb (Vector3.length (Hybrid.reject previousUp tangent)) 0.01) Ht Hh).
  - intros Hb. apply ltb_spec in Hb. lra.
  - apply dot_reject. apply length_one_iff. exact Ht.
Qed.

(** X26.  Where the tangent of the curve is neither zero nor
    vertical, the up vector the plain ride camera stores after moving
    there is a unit vector at a right angle to the unit tangent,
    whatever up vector it held before, a degenerate one included. *)
Theorem plain_camera_up (curve : Curve.t) (newProgress maxHeight : R)
    (st : RideCamera.RideState) :
  Vector3.x (Curve.getTangent curve newProgress) <> 0
  \/ Vector3.z (Curve.getTangent curve newProgress) <> 0 ->
  let st' := RideCamera.moveTo curve newProgress maxHeight st in
  let tangent := Vector3.normalize (Curve.getTangent curve newProgress) in
  Vector3.length tangent = 1 /\
  Vector3.length (RideCamera.previousUp (RideCamera.refs st')) = 1 /\
  Vector3.dot (RideCamera.previousUp (RideCamera.refs st')) tangent = 0 /\
  Store.rideProgress (fst (RideCamera.world st')) = newProgress /\
  RideCamera.maxHeightReached (RideCamera.refs st') = maxHeight.
Proof.
  intros Hh st' tangent.
  destruct (normalize_not_vertical _ Hh) as [Ht Hnv]. fold tangent in Ht, Hnv.
  unfold st', RideCamera.moveTo. cbn [RideCamera.refs RideCamera.previousUp
                                       RideCamera.world RideCamera.maxHeightReached].
  fold tangent.
  destruct (stableUp_frame (RideCamera.previousUp (RideCamera.refs st)) tangent Ht Hnv)
    as [Hl Hd].
  repeat split; auto.
Qed.

Lemma plain_camera_up_witness :
  let st' := RideCamera.moveTo lineCurve 0.5 0 plainStart in
  let tangent := Vector3.normalize (Curve.getTangent lineCurve 0.5) in
  Vector3.length tangent = 1 /\
  Vector3.length (RideCamera.previousUp (RideCamera.refs st')) = 1 /\
  Vector3.dot (RideCamera.previousUp (RideCamera.refs st')) tangent = 0 /\
  Store.rideProgress (fst (RideCamera.world st')) = 0.5 /\
  RideCamera.maxHeightReached (RideCamera.refs st') = 0.
Proof.
  apply (plain_camera_up lineCurve 0.5 0 plainStart).
  left. simpl. lra.
Defined.

(** A sample of a well-formed table: inside a loop, with a unit up
    vector at a right angle to the tangent; or on the spline, with the
    normalised tangent of the curve. *)
Lemma sample_cases (p : R) (l : list Hybrid.TrackSection) (curve : Curve.t) :
  l <> [] -> Forall wellFormed l ->
  exists sample,
    Hybrid.sampleHybridTrack p l curve = Some sample /\
    Vector3.length (Hybrid.sampleUp sample) = 1 /\
    Vector3.dot (Hybrid.sampleUp sample) (Hybrid.tangent sample) = 0 /\
    (Hybrid.inLoop sample = false ->
     exists t, Hybrid.tangent sample = Vector3.normalize (Curve.getTangent curve t)).
Proof.
  intros Hne Hwf.
  destruct l as [|first rest]; [congruence|].
  unfold Hybrid.sampleHybridTrack.
  pose proof (selected_in (Hybrid.clampProgress p) (first :: rest) first Hne) as Hin.
  set (section := match Hybrid.findSection (Hybrid.clampProgress p) (first :: rest) with
                  | Some s => s
                  | None => last (first :: rest) first
                  end) in *.
  rewrite Forall_forall in Hwf. specialize (Hwf section Hin).
  unfold wellFormed in Hwf.
  assert (Hspline : Hybrid.splineStartT section <> None /\ Hybrid.splineEndT section <> None ->
            forall o : option Hybrid.Sample,
              o = match Hybrid.splineStartT section, Hybrid.splineEndT section with
                  | Some startT, Some endT =>
                      let splineT :=
                        startT
                        + (Hybrid.clampProgress p - Hybrid.startProgress section)
                          / (Hybrid.endProgress section - Hybrid.startProgress section)
                          * (endT - startT) in
                      let tangent := Vector3.normalize (Curve.getTangent curve splineT) in
                      Some (Hybrid.mkSample (Curve.getPoint curve splineT) tangent
                              (Hybrid.worldUpAt tangent) false)
                  | _, _ => None
                  end ->
            exists sample,
              o = Some sample /\
              Vector3.length (Hybrid.sampleUp sample) = 1 /\
              Vector3.dot (Hybrid.sampleUp sample) (Hybrid.tangent sample) = 0 /\
              (Hybrid.inLoop sample = false ->
               exists t, Hybrid.tangent sample
                         = Vector3.normalize (Curve.getTangent curve t))).
  { intros [Hs He] o ->.
    destruct (Hybrid.splineStartT section) as [startT|]; [|congruence].
    destruct (Hybrid.splineEndT section) as [endT|]; [|congruence].
    eexists. split; [reflexivity|]. cbn [Hybrid.sampleUp Hybrid.tangent Hybrid.inLoop].
    split; [|split].
    - apply worldUpAt_frame. apply normalize_cases.
    - apply worldUpAt_frame. apply normalize_cases.
    - intros _. eexists. reflexivity. }
  destruct (Hybrid.type section) eqn:Et;
    destruct (Hybrid.loopFrame section) as [frame|] eqn:Ef.
  - apply (Hspline Hwf). reflexivity.
  - apply (Hspline Hwf). reflexivity.
  - eexists. split; [reflexivity|]. cbn [Hybrid.sampleUp Hybrid.tangent Hybrid.inLoop].
    split; [|split].
    + apply loop_sample_frame. exact Hwf.
    + apply loop_sample_frame. exact Hwf.
    + discriminate.
  - apply (Hspline Hwf). reflexivity.
Qed.

(** X27.  The ride camera on the hybrid track, over a well-formed
    table and a curve whose tangent is nowhere zero or vertical.
    Moving to a progress finds a sample there, and the up vector given
    to the camera, which is the transported up vector stored for the
    next frame, is a unit vector at a right angle to the tangent of
    the sample: whether it was copied from a loop sample, transported
    from the previous tangent or replaced by the fallback, and
    whatever vector was stored before.  The camera is placed half way
    between its previous position and the point 1.2 above the track
    along that up vector. *)
Theorem hybrid_camera_up (memo : HybridRideCamera.TrackMemo) (curve : Curve.t)
    (newProgress maxHeight : R) (st : HybridRideCamera.RideState) :
  HybridRideCamera.sections memo <> [] ->
  Forall wellFormed (HybridRideCamera.sections memo) ->
  (forall t, Vector3.x (Curve.getTangent curve t) <> 0
             \/ Vector3.z (Curve.getTangent curve t) <> 0) ->
  let st' := HybridRideCamera.moveTo memo curve newProgress maxHeight st in
  let up := HybridRideCamera.cam_up (HybridRideCamera.camera st') in
  exists sample,
    Hybrid.sampleHybridTrack newProgress (HybridRideCamera.sections memo) curve = Some sample /\
    up = HybridRideCamera.transportedUp (HybridRideCamera.refs st') /\
    Vector3.length up = 1 /\
    Vector3.dot up (Hybrid.tangent sample) = 0 /\
    HybridRideCamera.cam_position (HybridRideCamera.camera st')
    = Vector3.lerp (HybridRideCamera.previousCameraPos (HybridRideCamera.refs st))
        (Vector3.add (Hybrid.point sample) (Vector3.multiplyScalar up 1.2)) 0.5 /\
    HybridRideCamera.lastProgress (HybridRideCamera.refs st') = newProgress.
Proof.
  intros Hne Hwf Ht st' up.
  destruct (sample_cases newProgress _ curve Hne Hwf) as [sample [Hs [Hl [Hd Hsp]]]].
  exists sample. split; [exact Hs|].
  unfold up, st', HybridRideCamera.moveTo. rewrite Hs.
  cbn [HybridRideCamera.camera HybridRideCamera.cam_up HybridRideCamera.refs
       HybridRideCamera.transportedUp HybridRideCamera.cam_position
       HybridRideCamera.lastProgress].
  set (r := HybridRideCamera.refs st).
  assert (Hup : Vector3.length
                  (HybridRideCamera.transportUp (HybridRideCamera.sections memo) curve
                     (HybridRideCamera.lastProgress r) (HybridRideCamera.transportedUp r)
                     sample) = 1 /\
                Vector3.dot
                  (HybridRideCamera.transportUp (HybridRideCamera.sections memo) curve
                     (HybridRideCamera.lastProgress r) (HybridRideCamera.transportedUp r)
                     sample) (Hybrid.tangent sample) = 0).
  { unfold HybridRideCamera.transportUp.
    destruct (Hybrid.inLoop sample) eqn:Ein; [split; assumption|].
    destruct (Hybrid.sampleHybridTrack (HybridRideCamera.lastProgress r)
                (HybridRideCamera.sections memo) curve) as [prevSample|];
      [|split; assumption].
    destruct (Hybrid.inLoop prevSample); [split; assumption|].
    destruct (Hsp eq_refl) as [t Etan].
    destruct (normalize_not_vertical _ (Ht t)) as [Hunit Hnv].
    rewrite <- Etan in Hunit, Hnv.
    set (rotated := if JsNum.gtb (Vector3.lengthSq
                                    (Vector3.crossVectors (Hybrid.tangent prevSample)
                                       (Hybrid.tangent sample))) 0.0001
                       && JsNum.gtb
                            (acos (Rmin 1 (Rmax (-1)
                                             (Vector3.dot (Hybrid.tangent prevSample)
                                                (Hybrid.tangent sample))))) 0.0001
                    then _ else HybridRideCamera.transportedUp r).
    apply (up_or_fallback (Hybrid.reject rotated (Hybrid.tangent sample))
             (Hybrid.tangent sample)
             (JsNum.gtb (Vector3.lengthSq (Hybrid.reject rotated (Hybrid.tangent sample)))
                0.0001) Hunit Hnv).
    - intros Hb. apply ltb_spec in Hb. apply length_pos_of_lengthSq. lra.
    - apply dot_reject. apply length_one_iff. exact Hunit. }
  destruct Hup as [Hul Hud]. repeat split; auto.
Qed.

Lemma hybrid_camera_up_witness :
  let st' := HybridRideCamera.moveTo lineMemo lineCurve 0.75 0 lineStart in
  let up := HybridRideCamera.cam_up (HybridRideCamera.camera st') in
  exists sample,
    Hybrid.sampleHybridTrack 0.75 (HybridRideCamera.sections lineMemo) lineCurve
    = Some sample /\
    up = HybridRideCamera.transportedUp (HybridRideCamera.refs st') /\
    Vector3.length up = 1 /\
    Vector3.dot up (Hybrid.tangent sample) = 0 /\
    HybridRideCamera.cam_position (HybridRideCamera.camera st')
    = Vector3.lerp (HybridRideCamera.previousCameraPos (HybridRideCamera.refs lineStart))
        (Vector3.add (Hybrid.point sample) (Vector3.multiplyScalar up 1.2)) 0.5 /\
    HybridRideCamera.lastProgress (HybridRideCamera.refs st') = 0.75.
Proof.
  apply (hybrid_camera_up lineMemo lineCurve 0.75 0 lineStart).
  - rewrite lineMemo_sections. discriminate.
  - rewrite lineMemo_sections. exact lineTable_wellFormed.
  - intros t. left. simpl. lra.
Defined.

(** ** Lengths and ranges of the sections *)

Lemma length_nonneg (v : Vector3.t) : 0 <= Vector3.length v.
Proof. apply sqrt_pos. Qed.

Lemma fold_add_nonneg {A : Type} (f : A -> R) (l : list A) (a : R) :
  (forall x, 0 <= f x) -> 0 <= a -> 0 <= fold_left (fun acc x => acc + f x) l a.
Proof.
  intros Hf. revert a. induction l as [|x l IH]; intros a Ha; [exact Ha|].
  cbn [fold_left]. apply IH. pose proof (Hf x). lra.
Qed.

Lemma segmentLength_nonneg (curve : Curve.t) (a b : R) : 0 <= Hybrid.segmentLength curve a b.
Proof.
  unfold Hybrid.segmentLength.
  apply (fold_add_nonneg
           (fun s => Vector3.distanceTo
                       (Curve.getPoint curve (a + INR s / INR Hybrid.subSamples * (b - a)))
                       (Curve.getPoint curve
                          (a + INR (s + 1) / INR Hybrid.subSamples * (b - a))))).
  - intros s. apply length_nonneg.
  - lra.
Qed.

Lemma loopMap_get_in (segs : list Hybrid.LoopSegment) (i : string) (seg : Hybrid.LoopSegment) :
  Hybrid.loopMap_get segs i = Some seg -> In seg segs /\ Hybrid.entryPointId seg = i.
Proof.
  unfold Hybrid.loopMap_get. intros H. apply find_some in H. destruct H as [Hin Hb].
  split; [apply in_rev; exact Hin | apply String.eqb_eq; exact Hb].
Qed.

Lemma walkStep_nonneg curve segs isLooped n pix w ip :
  Forall (fun seg => 0 <= Hybrid.radius seg) segs ->
  Tables.lengthsNonneg (Hybrid.sections w) ->
  Tables.lengthsNonneg (Hybrid.sections (Hybrid.walkStep curve segs isLooped n pix w ip)).
Proof.
  intros Hr Hw. destruct ip as [i p]. unfold Hybrid.walkStep, Tables.lengthsNonneg in *.
  set (w1 := match Hybrid.loopMap_get segs (Store.id p) with
             | Some loopSeg => _
             | None => w
             end).
  assert (H1 : Forall (fun s => 0 <= Hybrid.arcLength s) (Hybrid.sections w1)).
  { unfold w1. destruct (Hybrid.loopMap_get segs (Store.id p)) as [loopSeg|] eqn:E;
      [|exact Hw].
    cbn [Hybrid.sections]. apply Forall_app. split; [exact Hw|].
    constructor; [|constructor]. cbn [Hybrid.arcLength].
    apply loopMap_get_in in E. destruct E as [Hin _].
    rewrite Forall_forall in Hr. specialize (Hr loopSeg Hin).
    pose proof PI_RGT_0. apply Rmult_le_pos; [lra | exact Hr]. }
  destruct ((n - 1 <=? i)%nat && negb isLooped); [exact H1|].
  cbn [Hybrid.sections]. apply Forall_app. split; [exact H1|].
  constructor; [|constructor]. cbn [Hybrid.arcLength]. apply segmentLength_nonneg.
Qed.

Lemma sumArcLength_nonneg (l : list Hybrid.TrackSection) :
  Tables.lengthsNonneg l -> 0 <= sumArcLength l.
Proof.
  induction 1 as [|s l Hs Hl IH]; cbn [sumArcLength fold_right]; [lra|].
  fold (sumArcLength l). lra.
Qed.

Lemma normalizeFrom_ordered (acc r : R) (l : list Hybrid.TrackSection) :
  0 < acc -> 0 <= r -> Tables.lengthsNonneg l -> r + sumArcLength l <= acc ->
  Forall (fun s => 0 <= Hybrid.arcLength s /\
                   0 <= Hybrid.startProgress s <= Hybrid.endProgress s /\
                   Hybrid.endProgress s <= 1)
         (Hybrid.normalizeFrom acc r l).
Proof.
  intros Hacc. revert r. induction l as [|s l IH]; intros r Hr Hl Hsum; [constructor|].
  inversion Hl as [|? ? Hs Hl']; subst.
  cbn [sumArcLength fold_right] in Hsum. fold (sumArcLength l) in Hsum.
  pose proof (sumArcLength_nonneg l Hl') as Hrest.
  assert (Hi : 0 < / acc) by (apply Rinv_0_lt_compat; exact Hacc).
  cbn [Hybrid.normalizeFrom]. constructor.
  - cbn [Hybrid.setProgress Hybrid.arcLength Hybrid.startProgress Hybrid.endProgress].
    unfold Rdiv. split; [exact Hs|]. split; [split|].
    + apply Rmult_le_pos; lra.
    + apply Rmult_le_compat_r; lra.
    + apply (Rmult_le_reg_r acc); [exact Hacc|].
      rewrite Rmult_assoc, Rinv_l by lra. lra.
  - apply IH; [lra | exact Hl' | lra].
Qed.

(** X22.  In a table built from at least two track points and loop
    segments whose radii are not negative, no section has a negative
    length, the total length is not negative, and, when it is not
    zero, the progress ranges are ordered: every section starts at or
    after 0, ends at or after its start and at or before 1. *)
Theorem built_table_ordered (curve : Curve.t) (trackPoints : list Store.TrackPoint)
    (loopSegments : list Hybrid.LoopSegment) (isLooped : bool)
    (pointIndexOf : nat -> option nat) :
  Forall (fun seg => 0 <= Hybrid.radius seg) loopSegments ->
  let table := fst (Hybrid.sectionTable curve trackPoints loopSegments isLooped pointIndexOf) in
  let total := snd (Hybrid.sectionTable curve trackPoints loopSegments isLooped pointIndexOf) in
  0 <= total /\
  Forall (fun s => 0 <= Hybrid.arcLength s) table /\
  (total <> 0 ->
   Forall (fun s => 0 <= Hybrid.startProgress s <= Hybrid.endProgress s /\
                    Hybrid.endProgress s <= 1) table).
Proof.
  intros Hr table total.
  unfold table, total, Hybrid.sectionTable. cbn [fst snd]. unfold Hybrid.normalize.
  set (w := Hybrid.walk curve trackPoints loopSegments isLooped pointIndexOf).
  pose proof (walk_accumulated curve trackPoints loopSegments isLooped pointIndexOf) as Hacc.
  fold w in Hacc.
  assert (Hnn : Tables.lengthsNonneg (Hybrid.sections w)).
  { unfold w, Hybrid.walk.
    apply (fold_walk_invariant curve loopSegments isLooped (List.length trackPoints)
             pointIndexOf (fun w => Tables.lengthsNonneg (Hybrid.sections w))).
    - intros w0 ip Hw. apply walkStep_nonneg; assumption.
    - constructor. }
  pose proof (sumArcLength_nonneg _ Hnn) as Hsum. rewrite <- Hacc in Hsum.
  split; [exact Hsum|]. split.
  - unfold Tables.lengthsNonneg in Hnn. rewrite Forall_forall in *. intros s Hin.
    apply in_map with (f := Hybrid.arcLength) in Hin.
    rewrite normalizeFrom_arcLength in Hin. apply in_map_iff in Hin.
    destruct Hin as [s' [<- Hin']]. apply Hnn. exact Hin'.
  - intros Hne.
    pose proof (normalizeFrom_ordered (Hybrid.accumulatedLength w) 0 (Hybrid.sections w)
                  ltac:(lra) ltac:(lra) Hnn ltac:(lra)) as Hord.
    rewrite Forall_forall in *. intros s Hin. specialize (Hord s Hin). tauto.
Qed.

Lemma built_table_ordered_witness :
  let table := fst (Hybrid.sectionTable lineCurve linePoints lineLoop false Some) in
  let total := snd (Hybrid.sectionTable lineCurve linePoints lineLoop false Some) in
  0 <= total /\
  Forall (fun s => 0 <= Hybrid.arcLength s) table /\
  (total <> 0 ->
   Forall (fun s => 0 <= Hybrid.startProgress s <= Hybrid.endProgress s /\
                    Hybrid.endProgress s <= 1) table).
Proof.
  apply (built_table_ordered lineCurve linePoints lineLoop false Some).
  constructor; [|constructor]. simpl. pose proof PI_RGT_0.
  apply Rmult_le_pos; [lra|]. left. apply Rinv_0_lt_compat. lra.
Defined.

(** ** The pose of the plain ride camera *)

Lemma approach_between (cfg : Scale.t) (previous target lo hi : R) :
  0 <= Scale.CAMERA_LERP cfg <= 1 ->
  lo <= previous <= hi -> lo <= target <= hi ->
  lo <= CameraPose.approach cfg previous target <= hi.
Proof.
  intros Hl Hp Ht. unfold CameraPose.approach.
  set (k := Scale.CAMERA_LERP cfg) in *.
  replace (previous + (target - previous) * k) with (previous * (1 - k) + target * k) by ring.
  split; nra.
Qed.

Lemma approach_gap (cfg : Scale.t) (previous target : R) :
  CameraPose.approach cfg previous target - target
  = (1 - Scale.CAMERA_LERP cfg) * (previous - target).
Proof. unfold CameraPose.approach. ring. Qed.

Lemma unit_component_y (t : Vector3.t) : Vector3.length t = 1 -> -1 <= Vector3.y t <= 1.
Proof.
  intros H. apply length_one_iff in H. unfold Vector3.lengthSq in H.
  assert (Vector3.y t * Vector3.y t <= 1) by nra. split; nra.
Qed.

Lemma slope_range (t : Vector3.t) :
  Vector3.length t = 1 -> 0 <= Rmax 0 (- Vector3.y t) <= 1.
Proof.
  intros H. pose proof (unit_component_y t H). split.
  - apply Rmax_l.
  - apply Rmax_lub; lra.
Qed.

Lemma pose_refs (cfg : Scale.t) (tilt : R) (position tangent upVector : Vector3.t)
    (r : CameraPose.Refs) :
  let r' := fst (CameraPose.pose cfg tilt position tangent upVector r) in
  CameraPose.previousRoll r'
  = CameraPose.approach cfg (CameraPose.previousRoll r) (tilt * PI / 180) /\
  CameraPose.previousFov r'
  = CameraPose.approach cfg (CameraPose.previousFov r) (75 + Rmax 0 (- Vector3.y tangent) * 15) /\
  CameraPose.previousPitchOffset r'
  = CameraPose.approach cfg (CameraPose.previousPitchOffset r)
      (Rmax 0 (- Vector3.y tangent) * 0.25).
Proof. repeat split. Qed.

Lemma pose_inRange (cfg : Scale.t) (i : CameraPose.Input) (r : CameraPose.Refs) :
  0 <= Scale.CAMERA_LERP cfg <= 1 ->
  Vector3.length (CameraPose.in_tangent i) = 1 ->
  CameraPose.inRange r ->
  CameraPose.inRange
    (fst (CameraPose.pose cfg (CameraPose.in_tilt i) (CameraPose.in_position i)
            (CameraPose.in_tangent i) (CameraPose.in_up i) r)).
Proof.
  intros Hl Ht [Hf Hp]. pose proof (slope_range _ Ht) as Hs.
  destruct (pose_refs cfg (CameraPose.in_tilt i) (CameraPose.in_position i)
              (CameraPose.in_tangent i) (CameraPose.in_up i) r) as (_ & Ef & Ep).
  unfold CameraPose.inRange. rewrite Ef, Ep.
  split; apply approach_between; auto; lra.
Qed.

(** X28.  The smoothed quantities of the plain ride camera.  For a
    smoothing constant between 0 and 1 and unit tangents, over any
    number of frames: a field of view that is between 75 and 90
    degrees stays there, and a pitch offset between 0 and 0.25 stays
    there, as they are from their initial values.  In each frame the
    distance of the roll, of the field of view and of the pitch offset
    to their targets shrinks by the factor [1 - CAMERA_LERP]; the
    targets are the tilt in radians, 75 plus 15 times the downward
    slope, and a quarter of the downward slope, the slope being 0 on
    level and on climbing track. *)
Theorem pose_stays_in_range (cfg : Scale.t) (inputs : list CameraPose.Input)
    (r : CameraPose.Refs) :
  0 <= Scale.CAMERA_LERP cfg <= 1 ->
  Forall (fun i => Vector3.length (CameraPose.in_tangent i) = 1) inputs ->
  CameraPose.inRange r ->
  CameraPose.inRange (CameraPose.poses cfg inputs r) /\
  CameraPose.inRange CameraPose.initialRefs /\
  (forall tilt position tangent upVector r0,
     let r' := fst (CameraPose.pose cfg tilt position tangent upVector r0) in
     let slope := Rmax 0 (- Vector3.y tangent) in
     CameraPose.previousRoll r' - tilt * PI / 180
     = (1 - Scale.CAMERA_LERP cfg) * (CameraPose.previousRoll r0 - tilt * PI / 180) /\
     CameraPose.previousFov r' - (75 + slope * 15)
     = (1 - Scale.CAMERA_LERP cfg) * (CameraPose.previousFov r0 - (75 + slope * 15)) /\
     CameraPose.previousPitchOffset r' - slope * 0.25
     = (1 - Scale.CAMERA_LERP cfg) * (CameraPose.previousPitchOffset r0 - slope * 0.25) /\
     CameraPose.fov (snd (CameraPose.pose cfg tilt position tangent upVector r0))
     = CameraPose.previousFov r' /\
     (0 <= Vector3.y tangent -> slope = 0)).
Proof.
  intros Hl Hin Hr. split; [|split].
  - unfold CameraPose.poses. revert r Hr.
    induction Hin as [|i inputs Hi Hin IH]; intros r Hr; [exact Hr|].
    cbn [fold_left]. apply IH. apply pose_inRange; assumption.
  - unfold CameraPose.inRange, CameraPose.initialRefs.
    cbn [CameraPose.previousFov CameraPose.previousPitchOffset]. lra.
  - intros tilt position tangent upVector r0 r' slope.
    destruct (pose_refs cfg tilt position tangent upVector r0) as (Er & Ef & Ep).
    fold r' in Er, Ef, Ep. fold slope in Ef, Ep.
    rewrite Er, Ef, Ep, !approach_gap.
    repeat split.
    intros Hy. unfold slope. apply Rmax_left. lra.
Qed.

Lemma pose_stays_in_range_witness :
  CameraPose.inRange
    (CameraPose.poses config
       [CameraPose.mkInput 10 origin ex ey; CameraPose.mkInput 0 ex down ex]
       CameraPose.initialRefs).
Proof.
  apply (pose_stays_in_range config
           [CameraPose.mkInput 10 origin ex ey; CameraPose.mkInput 0 ex down ex]
           CameraPose.initialRefs).
  - simpl. lra.
  - constructor; [exact length_ex|]. constructor; [|constructor].
    cbn [CameraPose.in_tangent]. apply length_mk; [lra|]. ring.
  - unfold CameraPose.inRange, CameraPose.initialRefs.
    cbn [CameraPose.previousFov CameraPose.previousPitchOffset]. lra.
Defined.


(** A vector at a right angle to a unit axis turns in the plane across
    the axis: by [angle], towards the cross product of the axis and the
    vector. *)
Lemma rotate_about (t v : Vector3.t) (angle : R) :
  Vector3.lengthSq t = 1 -> Vector3.dot t v = 0 ->
  Quaternion.applyQuaternion v (Quaternion.setFromAxisAngle t angle)
  = Vector3.addScaledVector (Vector3.multiplyScalar v (cos angle))
      (Vector3.crossVectors t v) (sin angle).
Proof.
  intros Ht Hd.
  replace (cos angle) with (1 - 2 * sin (angle / 2) * sin (angle / 2))
    by (rewrite <- cos_2a_sin; f_equal; field).
  replace (sin angle) with (2 * sin (angle / 2) * cos (angle / 2))
    by (rewrite <- sin_2a; f_equal; field).
  unfold Quaternion.applyQuaternion, Quaternion.setFromAxisAngle.
  cbn [Quaternion.x Quaternion.y Quaternion.z Quaternion.w].
  set (s := sin (angle / 2)). set (c := cos (angle / 2)).
  destruct t as [tx ty tz], v as [vx vy vz].
  unfold Vector3.lengthSq, Vector3.dot in Ht, Hd.
  unfold Vector3.addScaledVector, Vector3.multiplyScalar, Vector3.crossVectors.
  cbn [Vector3.x Vector3.y Vector3.z] in *.
  set (tt := tx * tx + ty * ty + tz * tz) in *.
  set (tv := tx * vx + ty * vy + tz * vz) in *.
  apply vec_eq; cbn [Vector3.x Vector3.y Vector3.z].
  - replace (vx + c * (2 * (ty * s * vz - tz * s * vy))
             + ty * s * (2 * (tx * s * vy - ty * s * vx))
             - tz * s * (2 * (tz * s * vx - tx * s * vz)))
      with (vx + 2 * s * c * (ty * vz - tz * vy) + 2 * s * s * (tx * tv - vx * tt))
      by (unfold tt, tv; ring).
    rewrite Ht, Hd. ring.
  - replace (vy + c * (2 * (tz * s * vx - tx * s * vz))
             + tz * s * (2 * (ty * s * vz - tz * s * vy))
             - tx * s * (2 * (tx * s * vy - ty * s * vx)))
      with (vy + 2 * s * c * (tz * vx - tx * vz) + 2 * s * s * (ty * tv - vy * tt))
      by (unfold tt, tv; ring).
    rewrite Ht, Hd. ring.
  - replace (vz + c * (2 * (tx * s * vy - ty * s * vx))
             + tx * s * (2 * (tz * s * vx - tx * s * vz))
             - ty * s * (2 * (ty * s * vz - tz * s * vy)))
      with (vz + 2 * s * c * (tx * vy - ty * vx) + 2 * s * s * (tz * tv - vz * tt))
      by (unfold tt, tv; ring).
    rewrite Ht, Hd. ring.
Qed.

(** The cross product of two orthonormal vectors completes them to a
    right-handed frame. *)
Lemma cross_cross_l (a b : Vector3.t) :
  orthonormal a b -> Vector3.crossVectors (Vector3.crossVectors a b) a = b.
Proof.
  intros (Ha & Hb & Hd). apply length_one_iff in Ha.
  destruct a as [a1 a2 a3], b as [b1 b2 b3].
  unfold Vector3.lengthSq, Vector3.dot in Ha, Hd.
  unfold Vector3.crossVectors. cbn [Vector3.x Vector3.y Vector3.z] in *.
  f_equal.
  - replace ((a3 * b1 - a1 * b3) * a3 - (a1 * b2 - a2 * b1) * a2)
      with (b1 * (a1 * a1 + a2 * a2 + a3 * a3) - a1 * (a1 * b1 + a2 * b2 + a3 * b3)) by ring.
    rewrite Ha, Hd. ring.
  - replace ((a1 * b2 - a2 * b1) * a1 - (a2 * b3 - a3 * b2) * a3)
      with (b2 * (a1 * a1 + a2 * a2 + a3 * a3) - a2 * (a1 * b1 + a2 * b2 + a3 * b3)) by ring.
    rewrite Ha, Hd. ring.
  - replace ((a2 * b3 - a3 * b2) * a2 - (a3 * b1 - a1 * b3) * a1)
      with (b3 * (a1 * a1 + a2 * a2 + a3 * a3) - a3 * (a1 * b1 + a2 * b2 + a3 * b3)) by ring.
    rewrite Ha, Hd. ring.
Qed.

Lemma cross_cross_r (a b : Vector3.t) :
  orthonormal a b ->
  Vector3.crossVectors (Vector3.crossVectors a b) b = Vector3.negate a.
Proof.
  intros (Ha & Hb & Hd). apply length_one_iff in Hb.
  destruct a as [a1 a2 a3], b as [b1 b2 b3].
  unfold Vector3.lengthSq, Vector3.dot in Hb, Hd.
  unfold Vector3.crossVectors, Vector3.negate. cbn [Vector3.x Vector3.y Vector3.z] in *.
  f_equal.
  - replace ((a3 * b1 - a1 * b3) * b3 - (a1 * b2 - a2 * b1) * b2)
      with (b1 * (a1 * b1 + a2 * b2 + a3 * b3) - a1 * (b1 * b1 + b2 * b2 + b3 * b3)) by ring.
    rewrite Hb, Hd. ring.
  - replace ((a1 * b2 - a2 * b1) * b1 - (a2 * b3 - a3 * b2) * b3)
      with (b2 * (a1 * b1 + a2 * b2 + a3 * b3) - a2 * (b1 * b1 + b2 * b2 + b3 * b3)) by ring.
    rewrite Hb, Hd. ring.
  - replace ((a2 * b3 - a3 * b2) * b2 - (a3 * b1 - a1 * b3) * b1)
      with (b3 * (a1 * b1 + a2 * b2 + a3 * b3) - a3 * (b1 * b1 + b2 * b2 + b3 * b3)) by ring.
    rewrite Hb, Hd. ring.
Qed.

(** A turn in the plane of two orthonormal vectors gives orthonormal
    vectors again. *)
Lemma turned_pair (f u : Vector3.t) (a : R) :
  orthonormal f u ->
  orthonormal
    (Vector3.addScaledVector (Vector3.multiplyScalar f (cos a)) u (sin a))
    (Vector3.addScaledVector (Vector3.multiplyScalar u (cos a)) f (- sin a)).
Proof.
  intros (Hf & Hu & Hd).
  apply length_one_iff in Hf. apply length_one_iff in Hu.
  pose proof (sin_cos_one a) as Hsc.
  destruct f as [f1 f2 f3], u as [u1 u2 u3].
  unfold Vector3.lengthSq, Vector3.dot in Hf, Hu, Hd.
  cbn [Vector3.x Vector3.y Vector3.z] in *.
  set (ff := f1 * f1 + f2 * f2 + f3 * f3) in *.
  set (uu := u1 * u1 + u2 * u2 + u3 * u3) in *.
  set (fu := f1 * u1 + f2 * u2 + f3 * u3) in *.
  set (c := cos a) in *. set (s := sin a) in *.
  unfold orthonormal. rewrite !length_one_iff.
  unfold Vector3.lengthSq, Vector3.dot, Vector3.addScaledVector, Vector3.multiplyScalar.
  cbn [Vector3.x Vector3.y Vector3.z].
  split; [|split].
  - replace ((f1 * c + u1 * s) * (f1 * c + u1 * s) + (f2 * c + u2 * s) * (f2 * c + u2 * s)
             + (f3 * c + u3 * s) * (f3 * c + u3 * s))
      with (c * c * ff + s * s * uu + 2 * c * s * fu) by (unfold ff, uu, fu; ring).
    rewrite Hf, Hu, Hd. lra.
  - replace ((u1 * c + f1 * - s) * (u1 * c + f1 * - s)
             + (u2 * c + f2 * - s) * (u2 * c + f2 * - s)
             + (u3 * c + f3 * - s) * (u3 * c + f3 * - s))
      with (c * c * uu + s * s * ff - 2 * c * s * fu) by (unfold ff, uu, fu; ring).
    rewrite Hf, Hu, Hd. lra.
  - replace ((f1 * c + u1 * s) * (u1 * c + f1 * - s) + (f2 * c + u2 * s) * (u2 * c + f2 * - s)
             + (f3 * c + u3 * s) * (u3 * c + f3 * - s))
      with (c * s * (uu - ff) + (c * c - s * s) * fu) by (unfold ff, uu, fu; ring).
    rewrite Hf, Hu, Hd. ring.
Qed.

Lemma cross_frame (a b : Vector3.t) :
  orthonormal a b ->
  orthonormal (Vector3.crossVectors a b) a /\ orthonormal (Vector3.crossVectors a b) b /\
  orthonormal b (Vector3.crossVectors a b).
Proof.
  intros H. pose proof (cross_unit a b H) as Hc. destruct H as (Ha & Hb & Hd).
  repeat split; auto; try apply dot_cross_l; try apply dot_cross_r.
  rewrite dot_comm. apply dot_cross_r.
Qed.

Lemma cross_scaled (a b : Vector3.t) (k m : R) (w : Vector3.t) :
  Vector3.crossVectors a (Vector3.addScaledVector (Vector3.multiplyScalar b k) w m)
  = Vector3.addScaledVector (Vector3.multiplyScalar (Vector3.crossVectors a b) k)
      (Vector3.crossVectors a w) m.
Proof.
  destruct a, b, w. unfold Vector3.crossVectors, Vector3.addScaledVector,
                      Vector3.multiplyScalar.
  cbn [Vector3.x Vector3.y Vector3.z]. f_equal; ring.
Qed.

Lemma dot_addScaled (r a b : Vector3.t) (k m : R) :
  Vector3.dot r (Vector3.addScaledVector (Vector3.multiplyScalar a k) b m)
  = k * Vector3.dot r a + m * Vector3.dot r b.
Proof.
  unfold Vector3.dot, Vector3.addScaledVector, Vector3.multiplyScalar.
  cbn [Vector3.x Vector3.y Vector3.z]. ring.
Qed.

(** X29.  The basis of the plain ride camera, for a unit tangent and
    a unit up vector at a right angle to it.  Banking turns the up
    vector about the tangent by the smoothed roll, away from the cross
    product of tangent and up; the result is again a unit vector at a
    right angle to the tangent, the right vector is the cross product
    of the tangent and the banked up vector, and the recomputed up
    vector is the banked one.  The pitch turns tangent and up together
    in their plane by the smoothed pitch offset, the tangent towards
    the up vector.  Right vector, pitched up vector and pitched
    tangent are unit vectors at right angles to each other, and the
    target position of the camera is the camera height away from the
    track along the recomputed up vector. *)
Theorem pose_basis (cfg : Scale.t) (tilt : R) (position tangent upVector : Vector3.t)
    (r : CameraPose.Refs) :
  orthonormal tangent upVector ->
  let p := snd (CameraPose.pose cfg tilt position tangent upVector r) in
  let roll := CameraPose.previousRoll (fst (CameraPose.pose cfg tilt position tangent upVector r)) in
  let pitch :=
    CameraPose.previousPitchOffset (fst (CameraPose.pose cfg tilt position tangent upVector r)) in
  CameraPose.bankedUp p
  = Vector3.addScaledVector (Vector3.multiplyScalar upVector (cos roll))
      (Vector3.crossVectors tangent upVector) (- sin roll) /\
  orthonormal tangent (CameraPose.bankedUp p) /\
  CameraPose.finalUp p = CameraPose.bankedUp p /\
  CameraPose.rightVector p = Vector3.crossVectors tangent (CameraPose.finalUp p) /\
  CameraPose.pitchedTangent p
  = Vector3.addScaledVector (Vector3.multiplyScalar tangent (cos pitch))
      (CameraPose.finalUp p) (sin pitch) /\
  CameraPose.pitchedUp p
  = Vector3.addScaledVector (Vector3.multiplyScalar (CameraPose.finalUp p) (cos pitch))
      tangent (- sin pitch) /\
  orthonormal (CameraPose.pitchedTangent p) (CameraPose.pitchedUp p) /\
  Vector3.length (CameraPose.rightVector p) = 1 /\
  Vector3.dot (CameraPose.rightVector p) (CameraPose.pitchedTangent p) = 0 /\
  Vector3.dot (CameraPose.rightVector p) (CameraPose.pitchedUp p) = 0 /\
  Vector3.distanceTo (CameraPose.targetCameraPos p) position = Rabs (Scale.CAMERA_HEIGHT cfg).
Proof.
  intros Hon p roll pitch.
  pose proof Hon as (Ht & Hu & Hd).
  assert (Htt : Vector3.lengthSq tangent = 1) by (apply length_one_iff; exact Ht).
  set (w := Vector3.crossVectors tangent upVector).
  destruct (cross_frame tangent upVector Hon) as (Hwt & Hwu & Huw). fold w in Hwt, Hwu, Huw.
  unfold p, CameraPose.pose.
  cbn [snd CameraPose.bankedUp CameraPose.rightVector CameraPose.finalUp
       CameraPose.pitchedTangent CameraPose.pitchedUp CameraPose.targetCameraPos].
  change (CameraPose.approach cfg (CameraPose.previousRoll r) (tilt * PI / 180)) with roll.
  change (CameraPose.approach cfg (CameraPose.previousPitchOffset r)
            (Rmax 0 (- Vector3.y tangent) * 0.25)) with pitch.
  (* the banked up vector *)
  rewrite (rotate_about tangent upVector (- roll) Htt Hd).
  rewrite cos_neg, sin_neg. fold w.
  set (b := Vector3.addScaledVector (Vector3.multiplyScalar upVector (cos roll)) w (- sin roll)).
  assert (Hb : orthonormal tangent b).
  { pose proof (turned_pair upVector w (- roll) Huw) as (Hl & _ & _).
    rewrite cos_neg, sin_neg in Hl. fold b in Hl.
    repeat split; auto. unfold b. rewrite dot_addScaled.
    destruct Hwt as (_ & _ & Hwt). rewrite (dot_comm tangent w), Hwt, Hd. ring. }
  pose proof (cross_unit tangent b Hb) as Hr.
  rewrite (normalize_unit (Vector3.crossVectors tangent b) Hr).
  rewrite (cross_cross_l tangent b Hb).
  rewrite (normalize_unit b (proj1 (proj2 Hb))).
  destruct (cross_frame tangent b Hb) as (Hrt & Hrb & _).
  rewrite (rotate_about (Vector3.crossVectors tangent b) tangent pitch);
    [|apply length_one_iff; apply Hrt|apply Hrt].
  rewrite (rotate_about (Vector3.crossVectors tangent b) b pitch);
    [|apply length_one_iff; apply Hrb|apply Hrb].
  rewrite (cross_cross_l tangent b Hb), (cross_cross_r tangent b Hb).
  set (rv := Vector3.crossVectors tangent b) in *.
  assert (Epu : Vector3.addScaledVector (Vector3.multiplyScalar b (cos pitch))
                  (Vector3.negate tangent) (sin pitch)
                = Vector3.addScaledVector (Vector3.multiplyScalar b (cos pitch))
                    tangent (- sin pitch)).
  { destruct tangent, b. unfold Vector3.addScaledVector, Vector3.multiplyScalar,
                           Vector3.negate.
    cbn [Vector3.x Vector3.y Vector3.z]. f_equal; ring. }
  rewrite Epu.
  split; [reflexivity|]. split; [exact Hb|]. split; [reflexivity|]. split; [reflexivity|].
  split; [reflexivity|]. split; [reflexivity|].
  split; [apply turned_pair; exact Hb|].
  split; [exact Hr|].
  destruct Hrt as (_ & _ & Hrt). destruct Hrb as (_ & _ & Hrb).
  split; [rewrite dot_addScaled, Hrt, Hrb; ring|].
  split; [rewrite dot_addScaled, Hrt, Hrb; ring|].
  destruct Hb as (_ & Hbl & _). apply length_one_iff in Hbl.
  clear - Hbl.
  destruct position as [p1 p2 p3], b as [b1 b2 b3].
  unfold Vector3.lengthSq in Hbl.
  unfold Vector3.distanceTo, Vector3.sub, Vector3.add, Vector3.multiplyScalar.
  cbn [Vector3.x Vector3.y Vector3.z] in *.
  set (h := Scale.CAMERA_HEIGHT cfg).
  apply length_mk; [apply Rabs_pos|].
  replace (Rabs h * Rabs h) with (h * h) by (unfold Rabs; destruct (Rcase_abs h); ring).
  replace ((p1 + b1 * h - p1) * (p1 + b1 * h - p1) + (p2 + b2 * h - p2) * (p2 + b2 * h - p2)
           + (p3 + b3 * h - p3) * (p3 + b3 * h - p3))
    with ((b1 * b1 + b2 * b2 + b3 * b3) * (h * h)) by ring.
  rewrite Hbl. ring.
Qed.

Lemma pose_basis_witness :
  let p := snd (CameraPose.pose config 10 origin ex ey CameraPose.initialRefs) in
  let roll :=
    CameraPose.previousRoll (fst (CameraPose.pose config 10 origin ex ey CameraPose.initialRefs)) in
  let pitch :=
    CameraPose.previousPitchOffset
      (fst (CameraPose.pose config 10 origin ex ey CameraPose.initialRefs)) in
  CameraPose.bankedUp p
  = Vector3.addScaledVector (Vector3.multiplyScalar ey (cos roll))
      (Vector3.crossVectors ex ey) (- sin roll) /\
  orthonormal ex (CameraPose.bankedUp p) /\
  CameraPose.finalUp p = CameraPose.bankedUp p /\
  CameraPose.rightVector p = Vector3.crossVectors ex (CameraPose.finalUp p) /\
  CameraPose.pitchedTangent p
  = Vector3.addScaledVector (Vector3.multiplyScalar ex (cos pitch))
      (CameraPose.finalUp p) (sin pitch) /\
  CameraPose.pitchedUp p
  = Vector3.addScaledVector (Vector3.multiplyScalar (CameraPose.finalUp p) (cos pitch))
      ex (- sin pitch) /\
  orthonormal (CameraPose.pitchedTangent p) (CameraPose.pitchedUp p) /\
  Vector3.length (CameraPose.rightVector p) = 1 /\
  Vector3.dot (CameraPose.rightVector p) (CameraPose.pitchedTangent p) = 0 /\
  Vector3.dot (CameraPose.rightVector p) (CameraPose.pitchedUp p) = 0 /\
  Vector3.distanceTo (CameraPose.targetCameraPos p) origin
  = Rabs (Scale.CAMERA_HEIGHT config).
Proof.
  apply (pose_basis config 10 origin ex ey CameraPose.initialRefs).
  exact orthonormal_ex_ey.
Defined.
